(** * The DWARF type materializer of libdrgn (libdrgn/dwarf_info_cache.c)

    A shallow embedding of the functions of [dwarf_info_cache.c] that turn
    DWARF debugging information entries into drgn type descriptors, and of
    the memoization done by [drgn_type_from_dwarf_internal], followed by the
    properties of the specification that were checked against it.

    Conventions.
    - [uint64_t] and [Dwarf_Word] values are integers of [Z] kept in
      [0, 2^64) by [wrap64]; [int] values are kept in range by [to_int].
    - A function returning [struct drgn_error *] returns a [res]: [Ok] for
      [NULL], [Err e] otherwise.  Functions that touch the cache or create
      types are state transformers over [drgn_dwarf_info_cache].
    - [malloc] never fails in this model, with one exception: the insertion
      into the memoization maps, whose failure the source handles explicitly
      (see [dwarf_type_map_insert_searched]). *)

From Stdlib Require Import ZArith List String Bool Lia Relations.
From stdpp Require Import base option list strings gmap.

Local Open Scope Z_scope.

(** ** Machine integers *)

Definition UINT64_MAX : Z := 2 ^ 64 - 1.

(** Conversion to [uint64_t] / [Dwarf_Word]. *)
Definition wrap64 (z : Z) : Z := z mod 2 ^ 64.

(** Conversion to [int64_t] / [Dwarf_Sword]. *)
Definition signed64 (z : Z) : Z :=
  let w := wrap64 z in if w <? 2 ^ 63 then w else w - 2 ^ 64.

(** Conversion to [int]. *)
Definition to_int (z : Z) : Z :=
  let w := z mod 2 ^ 32 in if w <? 2 ^ 31 then w else w - 2 ^ 32.

(** ** libdw: debugging information entries

    libdw is an external library.  A [Dwarf_Die] is modelled by the data
    libdw reads through it: its address (the memoization key), its tag, its
    attributes after integration of [DW_AT_specification] and
    [DW_AT_abstract_origin], and its children. *)

Definition die_address := N.

Inductive dwarf_tag_t :=
  | DW_TAG_array_type | DW_TAG_class_type | DW_TAG_enumeration_type
  | DW_TAG_formal_parameter | DW_TAG_member | DW_TAG_pointer_type
  | DW_TAG_structure_type | DW_TAG_subroutine_type | DW_TAG_typedef
  | DW_TAG_union_type | DW_TAG_unspecified_parameters | DW_TAG_base_type
  | DW_TAG_const_type | DW_TAG_enumerator | DW_TAG_subprogram
  | DW_TAG_subrange_type | DW_TAG_variable | DW_TAG_volatile_type
  | DW_TAG_restrict_type | DW_TAG_atomic_type
  | DW_TAG_other (tag_code : Z).

Inductive dwarf_at_t :=
  | DW_AT_name | DW_AT_byte_size | DW_AT_bit_offset | DW_AT_bit_size
  | DW_AT_const_value | DW_AT_upper_bound | DW_AT_count
  | DW_AT_data_member_location | DW_AT_declaration | DW_AT_encoding
  | DW_AT_type | DW_AT_data_bit_offset | DW_AT_endianity | DW_AT_low_pc
  | DW_AT_location.

#[global] Instance dwarf_at_eq_dec : EqDecision dwarf_at_t.
Proof. solve_decision. Defined.

#[global] Instance dwarf_tag_eq_dec : EqDecision dwarf_tag_t.
Proof. solve_decision. Defined.

(** The form of an attribute together with the value stored under it.
    [DW_FORM_udata] stands for all the unsigned constant forms
    ([DW_FORM_data1] ... [DW_FORM_data8], [DW_FORM_udata]). *)
Inductive dwarf_form_t :=
  | DW_FORM_udata (u : Z)
  | DW_FORM_sdata (s : Z)
  | DW_FORM_implicit_const (s : Z)
  | DW_FORM_string (str : string)
  | DW_FORM_ref (target : die_address)
  | DW_FORM_flag (b : bool)
  | DW_FORM_block (data : list Z)
  | DW_FORM_other.

Record Dwarf_Attribute := mk_attr { code : dwarf_at_t; form : dwarf_form_t }.

Definition drgn_language := N.
Definition drgn_language_c : drgn_language := 0%N.

#[warnings="-register-all"]
Inductive Dwarf_Die := mk_die {
  die_addr : die_address;
  die_tag : dwarf_tag_t;
  die_attrs : list Dwarf_Attribute;
  (* the children walked by dwarf_child()/dwarf_siblingof() ... *)
  die_children : list Dwarf_Die;
  (* ... and whether the walk ends with -1 (libdw error) instead of 1 *)
  die_children_error : bool;
  (* DW_AT_language of the unit: None if libdw cannot read the unit DIE,
     Some None for a language drgn does not know *)
  die_cu_language : option (option drgn_language);
  (* EI_DATA of the ELF file is ELFDATA2LSB *)
  die_elf_lsb : bool
}.

Definition dwarf_tag (die : Dwarf_Die) : dwarf_tag_t := die_tag die.

Definition dwarf_attr_integrate (die : Dwarf_Die) (name : dwarf_at_t)
  : option Dwarf_Attribute :=
  List.find (fun a => bool_decide (code a = name)) (die_attrs die).

Definition dwarf_formudata (attr : Dwarf_Attribute) : option Z :=
  match form attr with
  | DW_FORM_udata u => Some (wrap64 u)
  | DW_FORM_sdata s => Some (wrap64 s)
  | DW_FORM_implicit_const s => Some (wrap64 s)
  | _ => None
  end.

Definition dwarf_formsdata (attr : Dwarf_Attribute) : option Z :=
  match form attr with
  | DW_FORM_udata u => Some (signed64 u)
  | DW_FORM_sdata s => Some (signed64 s)
  | DW_FORM_implicit_const s => Some (signed64 s)
  | _ => None
  end.

Definition dwarf_formstring (attr : Dwarf_Attribute) : option string :=
  match form attr with
  | DW_FORM_string s => Some s
  | _ => None
  end.

Definition dwarf_formflag (attr : Dwarf_Attribute) : option bool :=
  match form attr with
  | DW_FORM_flag b => Some b
  | _ => None
  end.

Definition is_DW_FORM_sdata (attr : Dwarf_Attribute) : bool :=
  match form attr with DW_FORM_sdata _ => true | _ => false end.

Definition is_DW_FORM_implicit_const (attr : Dwarf_Attribute) : bool :=
  match form attr with DW_FORM_implicit_const _ => true | _ => false end.

Definition dwarf_diename (die : Dwarf_Die) : option string :=
  match dwarf_attr_integrate die DW_AT_name with
  | Some attr => dwarf_formstring attr
  | None => None
  end.

(** [dwarf_bytesize] returns an [int], -1 on error. *)
Definition dwarf_bytesize (die : Dwarf_Die) : Z :=
  match dwarf_attr_integrate die DW_AT_byte_size with
  | Some attr =>
      match dwarf_formudata attr with
      | Some value => to_int value
      | None => -1
      end
  | None => -1
  end.

(** One hit of the name index: a DIE and the bias of its module. *)
Definition index_hit : Type := Dwarf_Die * Z.

(** ** Errors *)

Inductive drgn_error_code :=
  | DRGN_ERROR_NO_MEMORY | DRGN_ERROR_STOP | DRGN_ERROR_OTHER
  | DRGN_ERROR_INVALID_ARGUMENT | DRGN_ERROR_OVERFLOW | DRGN_ERROR_RECURSION
  | DRGN_ERROR_LOOKUP.

#[global] Instance drgn_error_code_eq_dec : EqDecision drgn_error_code.
Proof. solve_decision. Defined.

Record drgn_error := drgn_error_create {
  error_code : drgn_error_code;
  message : string
}.

Definition drgn_enomem : drgn_error :=
  drgn_error_create DRGN_ERROR_NO_MEMORY "cannot allocate memory".
Definition drgn_stop : drgn_error :=
  drgn_error_create DRGN_ERROR_STOP "stop".
Definition drgn_not_found : drgn_error :=
  drgn_error_create DRGN_ERROR_LOOKUP "not found".
Definition drgn_error_libdw : drgn_error :=
  drgn_error_create DRGN_ERROR_OTHER "libdw error".

(** The result of a fallible function.  [OutOfFuel] belongs to the model
    only: it is what the bounded recursion of [resolve_fuel] answers when its
    bound is used up, which [drgn_type_from_dwarf_internal] never does
    (theorem [drgn_type_from_dwarf_internal_total]). *)
Inductive res (A : Type) :=
  | Ok (a : A)
  | Err (e : drgn_error)
  | OutOfFuel.
Arguments Ok {A} a.
Arguments Err {A} e.
Arguments OutOfFuel {A}.

Definition res_bind {A B} (r : res A) (k : A → res B) : res B :=
  match r with
  | Ok a => k a
  | Err e => Err e
  | OutOfFuel => OutOfFuel
  end.

(** The image of debugging information the cache was built on: the DIEs
    that attribute references lead to, and the name index. *)
Record debug_info := {
  (* dwarf_formref_die() on a reference to this address *)
  die_at : die_address → option Dwarf_Die;
  (* the DIEs the name index yields for a name and a tag, in order, and
     whether libdw then fails instead of the iteration coming to its end *)
  index_hits : string → dwarf_tag_t → list index_hit;
  index_fails : string → dwarf_tag_t → bool
}.

Definition dwarf_formref_die (img : debug_info) (attr : Dwarf_Attribute)
  : option Dwarf_Die :=
  match form attr with
  | DW_FORM_ref target => die_at img target
  | _ => None
  end.

(** ** drgn types

    [type.h] and [type.c] are not among the sources of this development.
    The descriptors below record, for each creation function the
    materializer calls, the arguments it passes. *)

Inductive drgn_type_kind :=
  | DRGN_TYPE_VOID | DRGN_TYPE_INT | DRGN_TYPE_BOOL | DRGN_TYPE_FLOAT
  | DRGN_TYPE_COMPLEX | DRGN_TYPE_STRUCT | DRGN_TYPE_UNION | DRGN_TYPE_CLASS
  | DRGN_TYPE_ENUM | DRGN_TYPE_TYPEDEF | DRGN_TYPE_POINTER | DRGN_TYPE_ARRAY
  | DRGN_TYPE_FUNCTION.

#[global] Instance drgn_type_kind_eq_dec : EqDecision drgn_type_kind.
Proof. solve_decision. Defined.

(** A [struct drgn_type *]: the void type of a language, which the program
    holds statically, or the n-th type the program created. *)
Inductive type_handle :=
  | void_type (lang : drgn_language)
  | created_type (n : nat).

Definition DRGN_QUALIFIER_CONST : Z := 1.
Definition DRGN_QUALIFIER_VOLATILE : Z := 2.
Definition DRGN_QUALIFIER_RESTRICT : Z := 4.
Definition DRGN_QUALIFIER_ATOMIC : Z := 8.

Record drgn_qualified_type := mk_qualified_type {
  type : type_handle;
  qualifiers : Z
}.

(** [struct drgn_lazy_type]: an evaluated type, or the thunk of
    [struct drgn_type_from_dwarf_thunk]. *)
Inductive drgn_lazy_type :=
  | lazy_evaluated (qualified_type : drgn_qualified_type)
  | lazy_thunk (die : Dwarf_Die) (can_be_incomplete_array : bool).

Record drgn_type_member := mk_member {
  member_type : drgn_lazy_type;
  member_name : option string;
  member_bit_offset : Z;
  member_bit_field_size : Z
}.

(** An enumerator holds a union of [svalue] and [uvalue]: 64 bits, kept
    here as the unsigned reading. *)
Record drgn_type_enumerator := mk_enumerator {
  enumerator_name : string;
  enumerator_uvalue : Z
}.

Definition enumerator_svalue (e : drgn_type_enumerator) : Z :=
  signed64 (enumerator_uvalue e).

Record drgn_type_parameter := mk_parameter {
  parameter_type : drgn_lazy_type;
  parameter_name : option string
}.

Inductive drgn_type :=
  | T_int (name : string) (size : Z) (is_signed : bool)
      (lang : option drgn_language)
  | T_bool (name : string) (size : Z) (lang : option drgn_language)
  | T_float (name : string) (size : Z) (lang : option drgn_language)
  | T_complex (name : string) (size : Z) (real_type : type_handle)
      (lang : option drgn_language)
  | T_compound (kind : drgn_type_kind) (tag : option string) (size : Z)
      (members : list drgn_type_member) (lang : option drgn_language)
  | T_incomplete_compound (kind : drgn_type_kind) (tag : option string)
      (lang : option drgn_language)
  | T_enum (tag : option string) (compatible_type : type_handle)
      (enumerators : list drgn_type_enumerator) (lang : option drgn_language)
  | T_incomplete_enum (tag : option string) (lang : option drgn_language)
  | T_typedef (name : string) (aliased_type : drgn_qualified_type)
      (lang : option drgn_language)
  | T_pointer (referenced_type : drgn_qualified_type) (size : Z)
      (lang : option drgn_language)
  | T_array (element_type : drgn_qualified_type) (length : Z)
      (lang : option drgn_language)
  | T_incomplete_array (element_type : drgn_qualified_type)
      (lang : option drgn_language)
  | T_function (return_type : drgn_qualified_type)
      (parameters : list drgn_type_parameter) (is_variadic : bool)
      (lang : option drgn_language).

Definition drgn_language_or_default (lang : option drgn_language)
  : drgn_language :=
  match lang with Some l => l | None => drgn_language_c end.

(** ** The cache and the program it belongs to *)

Record dwarf_type_map_value := mk_value {
  value_type : type_handle;
  value_qualifiers : Z;
  value_is_incomplete_array : bool
}.

Record drgn_program := mk_program {
  (* the types created so far, oldest first *)
  created_types : list drgn_type;
  has_platform : bool;
  is_64_bit : bool
}.

Record drgn_dwarf_info_cache := mk_cache {
  map : gmap die_address dwarf_type_map_value;
  cant_be_incomplete_array_map : gmap die_address dwarf_type_map_value;
  depth : nat;
  prog : drgn_program;
  (* for each coming insertion into one of the maps, whether its
     allocation fails; no entry means it succeeds *)
  insert_enomem : list bool
}.

(** [drgn_dwarf_info_cache_create]. *)
Definition drgn_dwarf_info_cache_create (p : drgn_program)
  : drgn_dwarf_info_cache :=
  {| map := ∅; cant_be_incomplete_array_map := ∅; depth := 0%nat;
     prog := p; insert_enomem := [] |}.

Definition set_depth (d : nat) (c : drgn_dwarf_info_cache) :=
  {| map := map c;
     cant_be_incomplete_array_map := cant_be_incomplete_array_map c;
     depth := d; prog := prog c; insert_enomem := insert_enomem c |}.

Definition set_prog (p : drgn_program) (c : drgn_dwarf_info_cache) :=
  {| map := map c;
     cant_be_incomplete_array_map := cant_be_incomplete_array_map c;
     depth := depth c; prog := p; insert_enomem := insert_enomem c |}.

(** State transformers over the cache. *)
Definition M (A : Type) : Type :=
  drgn_dwarf_info_cache → res A * drgn_dwarf_info_cache.

Definition ret {A} (a : A) : M A := fun c => (Ok a, c).

Definition lift {A} (r : res A) : M A := fun c => (r, c).

Definition fail {A} (e : drgn_error) : M A := lift (Err e).

Definition bind {A B} (m : M A) (k : A → M B) : M B :=
  fun c =>
    match m c with
    | (Ok a, c') => k a c'
    | (Err e, c') => (Err e, c')
    | (OutOfFuel, c') => (OutOfFuel, c')
    end.

Notation "'do' x <- m ; k" := (bind m (fun x => k))
  (at level 10, x pattern, m at level 100, k at level 200, format "'[v' 'do'  x  <-  m ; '/' k ']'").

Notation "'try' x <- r ; k" := (res_bind r (fun x => k))
  (at level 10, x pattern, r at level 100, k at level 200, format "'[v' 'try'  x  <-  r ; '/' k ']'").

(** ** The type factory

    Modelled from the spec: the type factory of [type.c], which is not among
    the sources.  Each creation function allocates a new descriptor in the
    program and returns its handle; the void type of a language is held by
    the program. *)
Definition drgn_type_create (t : drgn_type) : M type_handle :=
  fun c =>
    let p := prog c in
    (Ok (created_type (List.length (created_types p))),
     set_prog {| created_types := created_types p ++ [t];
                 has_platform := has_platform p;
                 is_64_bit := is_64_bit p |} c).

Definition drgn_void_type (lang : option drgn_language) : type_handle :=
  void_type (drgn_language_or_default lang).

(** Modelled from the spec: reading a descriptor back ([type.h] is not
    among the sources). *)
Definition drgn_type_lookup (p : drgn_program) (h : type_handle)
  : option drgn_type :=
  match h with
  | void_type _ => None
  | created_type n => created_types p !! n
  end.

Definition drgn_type_kind_of (p : drgn_program) (h : type_handle)
  : drgn_type_kind :=
  match drgn_type_lookup p h with
  | Some (T_int _ _ _ _) => DRGN_TYPE_INT
  | Some (T_bool _ _ _) => DRGN_TYPE_BOOL
  | Some (T_float _ _ _) => DRGN_TYPE_FLOAT
  | Some (T_complex _ _ _ _) => DRGN_TYPE_COMPLEX
  | Some (T_compound k _ _ _ _) => k
  | Some (T_incomplete_compound k _ _) => k
  | Some (T_enum _ _ _ _) => DRGN_TYPE_ENUM
  | Some (T_incomplete_enum _ _) => DRGN_TYPE_ENUM
  | Some (T_typedef _ _ _) => DRGN_TYPE_TYPEDEF
  | Some (T_pointer _ _ _) => DRGN_TYPE_POINTER
  | Some (T_array _ _ _) => DRGN_TYPE_ARRAY
  | Some (T_incomplete_array _ _) => DRGN_TYPE_ARRAY
  | Some (T_function _ _ _ _) => DRGN_TYPE_FUNCTION
  | None => DRGN_TYPE_VOID
  end.

(** Modelled from the spec: [drgn_type_has_size] and [drgn_type_size] of
    [type.h]: a type has a size when it was created with one. *)
Definition drgn_type_size (p : drgn_program) (h : type_handle) : option Z :=
  match drgn_type_lookup p h with
  | Some (T_int _ size _ _) => Some size
  | Some (T_bool _ size _) => Some size
  | Some (T_float _ size _) => Some size
  | Some (T_complex _ size _ _) => Some size
  | Some (T_compound _ _ size _ _) => Some size
  | Some (T_pointer _ size _) => Some size
  | _ => None
  end.

(** Modelled from the spec: [drgn_program_word_size] of [program.c]. *)
Definition drgn_program_word_size (p : drgn_program) : res Z :=
  if has_platform p then Ok (if is_64_bit p then 8 else 4)
  else Err (drgn_error_create DRGN_ERROR_INVALID_ARGUMENT
              "program word size is not known").

(** Modelled from the spec: [drgn_language_from_die] of [language.c]. *)
Definition drgn_language_from_die (die : Dwarf_Die)
  : res (option drgn_language) :=
  match die_cu_language die with
  | Some lang => Ok lang
  | None => Err drgn_error_libdw
  end.

Definition gets {A} (f : drgn_dwarf_info_cache → A) : M A :=
  fun c => (Ok (f c), c).

Definition other_error {A} (msg : string) : res A :=
  Err (drgn_error_create DRGN_ERROR_OTHER msg).

(** ** The name index

    Modelled from the spec: the iterator of [dwarf_index.c], which is not
    among the sources.  It yields the hits for one name and one tag in
    order, then [drgn_stop], or the error of libdw. *)
Record drgn_dwarf_index_iterator := mk_iterator {
  it_hits : list index_hit;
  it_end : drgn_error
}.

Definition drgn_dwarf_index_iterator_init (img : debug_info) (name : string)
    (tag : dwarf_tag_t) : drgn_dwarf_index_iterator :=
  {| it_hits := index_hits img name tag;
     it_end := if index_fails img name tag then drgn_error_libdw
               else drgn_stop |}.

Definition drgn_dwarf_index_iterator_next (it : drgn_dwarf_index_iterator)
  : (index_hit + drgn_error) * drgn_dwarf_index_iterator :=
  match it_hits it with
  | hit :: rest => (inl hit, {| it_hits := rest; it_end := it_end it |})
  | [] => (inr (it_end it), it)
  end.

(** ** Builders (of [type.c]; they collect what the creation functions get) *)

Record drgn_compound_type_builder := mk_compound_builder {
  builder_kind : drgn_type_kind;
  builder_members : list drgn_type_member
}.

Definition drgn_compound_type_builder_add_member
    (builder : drgn_compound_type_builder) (member_type : drgn_lazy_type)
    (name : option string) (bit_offset bit_field_size : Z)
  : drgn_compound_type_builder :=
  {| builder_kind := builder_kind builder;
     builder_members :=
       builder_members builder ++
       [mk_member member_type name bit_offset bit_field_size] |}.

(** [parse_enumerator] and [subrange_length] read one DIE and touch no
    state. *)

Definition DW_ATE_boolean : Z := 2.
Definition DW_ATE_complex_float : Z := 3.
Definition DW_ATE_float : Z := 4.
Definition DW_ATE_signed : Z := 5.
Definition DW_ATE_signed_char : Z := 6.
Definition DW_ATE_unsigned : Z := 7.
Definition DW_ATE_unsigned_char : Z := 8.

Definition DW_END_default : Z := 0.
Definition DW_END_big : Z := 1.
Definition DW_END_little : Z := 2.

Definition dwarf_die_is_little_endian (die : Dwarf_Die) (check_attr : bool)
  : res bool :=
  try endianity <-
    match (if check_attr then dwarf_attr_integrate die DW_AT_endianity
           else None) with
    | Some endianity_attr =>
        match dwarf_formudata endianity_attr with
        | Some endianity => Ok endianity
        | None => other_error "invalid DW_AT_endianity"
        end
    | None => Ok DW_END_default
    end;
  if endianity =? DW_END_default then Ok (die_elf_lsb die)
  else if endianity =? DW_END_little then Ok true
  else if endianity =? DW_END_big then Ok false
  else other_error "unknown DW_AT_endianity".

(** [dwarf_flag]: [None] stands for a non-zero return. *)
Definition dwarf_flag (die : Dwarf_Die) (name : dwarf_at_t) : option bool :=
  match dwarf_attr_integrate die name with
  | None => Some false
  | Some attr => dwarf_formflag attr
  end.

Definition parse_enumerator (die : Dwarf_Die)
    (builder : list drgn_type_enumerator) (is_signed : bool)
  : res (list drgn_type_enumerator * bool) :=
  match dwarf_diename die with
  | None => other_error "DW_TAG_enumerator has missing or invalid DW_AT_name"
  | Some name =>
      match dwarf_attr_integrate die DW_AT_const_value with
      | None => other_error "DW_TAG_enumerator is missing DW_AT_const_value"
      | Some attr =>
          if is_DW_FORM_sdata attr || is_DW_FORM_implicit_const attr then
            match dwarf_formsdata attr with
            | None =>
                other_error "DW_TAG_enumerator has invalid DW_AT_const_value"
            | Some svalue =>
                (* drgn_enum_type_builder_add_signed *)
                Ok (builder ++ [mk_enumerator name (wrap64 svalue)],
                    if svalue <? 0 then true else is_signed)
            end
          else
            match dwarf_formudata attr with
            | None =>
                other_error "DW_TAG_enumerator has invalid DW_AT_const_value"
            | Some uvalue =>
                (* drgn_enum_type_builder_add_unsigned *)
                Ok (builder ++ [mk_enumerator name uvalue], is_signed)
            end
      end
  end.

Record array_dimension := mk_dimension {
  length : Z;
  is_complete : bool
}.

(** The entry that [array_dimension_vector_append_entry] returns is not
    initialised; [old] is what it holds. *)
Definition subrange_length (die : Dwarf_Die) (old : array_dimension)
  : res array_dimension :=
  match
    match dwarf_attr_integrate die DW_AT_upper_bound with
    | Some attr => Some attr
    | None => dwarf_attr_integrate die DW_AT_count
    end
  with
  | None => Ok {| length := length old; is_complete := false |}
  | Some attr =>
      match dwarf_formudata attr with
      | None =>
          other_error
            ("DW_TAG_subrange_type has invalid " +:+
             (if bool_decide (code attr = DW_AT_upper_bound)
              then "DW_AT_upper_bound" else "DW_AT_count"))
      | Some word =>
          if bool_decide (code attr = DW_AT_upper_bound) &&
             is_DW_FORM_sdata attr && (word =? wrap64 (-1)) then
            Ok {| length := 0; is_complete := true |}
          else if bool_decide (code attr = DW_AT_upper_bound) then
            if UINT64_MAX <=? word then
              Err (drgn_error_create DRGN_ERROR_OVERFLOW
                     "DW_AT_upper_bound is too large")
            else Ok {| length := wrap64 (word + 1); is_complete := true |}
          else
            if UINT64_MAX <? word then
              Err (drgn_error_create DRGN_ERROR_OVERFLOW
                     "DW_AT_count is too large")
            else Ok {| length := word; is_complete := true |}
      end
  end.

(** The entry a fresh vector slot is taken to hold. *)
Definition uninitialized_dimension : array_dimension :=
  {| length := 0; is_complete := false |}.

(** ** The kind dispatchers

    [drgn_type_from_dwarf_internal] and the functions it dispatches to call
    each other.  They are written here over [rec], the function they call
    back; [resolve_fuel] below ties the knot.

    An out-pointer [bool *is_incomplete_array_ret] is an [option bool]:
    [None] for [NULL], [Some b] for a pointer to a variable holding [b];
    the function returns what the variable holds afterwards. *)

Definition resolver : Type :=
  Dwarf_Die → bool → option bool → M (drgn_qualified_type * option bool).

Section Dispatchers.

Variable img : debug_info.
Variable rec : resolver.

(** [dwarf_type]: [None] for 1 (no DW_AT_type), [Some None] for -1,
    [Some (Some die)] for 0. *)
Definition dwarf_type (die : Dwarf_Die) : option (option Dwarf_Die) :=
  match dwarf_attr_integrate die DW_AT_type with
  | None => None
  | Some attr => Some (dwarf_formref_die img attr)
  end.

Definition drgn_type_from_dwarf (die : Dwarf_Die) : M drgn_qualified_type :=
  do (qualified_type, _) <- rec die true None;
  ret qualified_type.

Definition drgn_type_from_dwarf_thunk_evaluate_fn (die : Dwarf_Die)
    (can_be_incomplete_array : bool) : M drgn_qualified_type :=
  do (qualified_type, _) <- rec die can_be_incomplete_array None;
  ret qualified_type.

(** Modelled from the spec: [drgn_lazy_type_evaluate] of [type.c] (4.5): a
    thunk is evaluated once and replaced by its result. *)
Definition drgn_lazy_type_evaluate (lazy_type : drgn_lazy_type)
  : M (drgn_lazy_type * drgn_qualified_type) :=
  match lazy_type with
  | lazy_evaluated qualified_type => ret (lazy_type, qualified_type)
  | lazy_thunk die can_be_incomplete_array =>
      do qualified_type <-
        drgn_type_from_dwarf_thunk_evaluate_fn die can_be_incomplete_array;
      ret (lazy_evaluated qualified_type, qualified_type)
  end.

Definition drgn_lazy_type_from_dwarf (parent_die : Dwarf_Die)
    (can_be_incomplete_array : bool) (tag_name : string)
  : res drgn_lazy_type :=
  match dwarf_attr_integrate parent_die DW_AT_type with
  | None => other_error (tag_name +:+ " is missing DW_AT_type")
  | Some attr =>
      match dwarf_formref_die img attr with
      | None => other_error (tag_name +:+ " has invalid DW_AT_type")
      | Some type_die => Ok (lazy_thunk type_die can_be_incomplete_array)
      end
  end.

Definition drgn_type_from_dwarf_child (parent_die : Dwarf_Die)
    (parent_lang : option drgn_language) (tag_name : string)
    (can_be_void can_be_incomplete_array : bool)
    (is_incomplete_array_ret : option bool)
  : M (drgn_qualified_type * option bool) :=
  match dwarf_attr_integrate parent_die DW_AT_type with
  | None =>
      if can_be_void then
        do parent_lang <-
          match parent_lang with
          | Some l => ret (Some l)
          | None => lift (drgn_language_from_die parent_die)
          end;
        ret ({| type := drgn_void_type parent_lang; qualifiers := 0 |},
             is_incomplete_array_ret)
      else lift (other_error (tag_name +:+ " is missing DW_AT_type"))
  | Some attr =>
      match dwarf_formref_die img attr with
      | None => lift (other_error (tag_name +:+ " has invalid DW_AT_type"))
      | Some type_die =>
          rec type_die can_be_incomplete_array is_incomplete_array_ret
      end
  end.

Definition drgn_base_type_from_dwarf (die : Dwarf_Die)
    (lang : option drgn_language) : M type_handle :=
  match dwarf_diename die with
  | None =>
      lift (other_error "DW_TAG_base_type has missing or invalid DW_AT_name")
  | Some name =>
      match
        match dwarf_attr_integrate die DW_AT_encoding with
        | Some attr => dwarf_formudata attr
        | None => None
        end
      with
      | None =>
          lift (other_error
                  "DW_TAG_base_type has missing or invalid DW_AT_encoding")
      | Some encoding =>
          let size := dwarf_bytesize die in
          if size =? -1 then
            lift (other_error
                    "DW_TAG_base_type has missing or invalid DW_AT_byte_size")
          else if encoding =? DW_ATE_boolean then
            drgn_type_create (T_bool name (wrap64 size) lang)
          else if encoding =? DW_ATE_float then
            drgn_type_create (T_float name (wrap64 size) lang)
          else if (encoding =? DW_ATE_signed) ||
                  (encoding =? DW_ATE_signed_char) then
            drgn_type_create (T_int name (wrap64 size) true lang)
          else if (encoding =? DW_ATE_unsigned) ||
                  (encoding =? DW_ATE_unsigned_char) then
            drgn_type_create (T_int name (wrap64 size) false lang)
          else if encoding =? DW_ATE_complex_float then
            match dwarf_type die with
            | Some (Some child) =>
                do real_type <- drgn_type_from_dwarf child;
                do p <- gets prog;
                let kind := drgn_type_kind_of p (type real_type) in
                if negb (bool_decide (kind = DRGN_TYPE_FLOAT)) &&
                   negb (bool_decide (kind = DRGN_TYPE_INT)) then
                  lift (other_error
                          "DW_AT_type of DW_ATE_complex_float is not a floating-point or integer type")
                else
                  drgn_type_create
                    (T_complex name (wrap64 size) (type real_type) lang)
            | _ =>
                lift (other_error
                        "DW_TAG_base_type has missing or invalid DW_AT_type")
            end
          else
            lift (other_error "DW_TAG_base_type has unknown DWARF encoding")
      end
  end.

(** Answers [Err drgn_stop] if it cannot find a complete type. *)
Definition drgn_dwarf_info_cache_find_complete (tag : dwarf_tag_t)
    (name : string) : M type_handle :=
  let it := drgn_dwarf_index_iterator_init img name tag in
  match drgn_dwarf_index_iterator_next it with
  | (inr err, _) => fail err
  | (inl (die, _), it) =>
      match drgn_dwarf_index_iterator_next it with
      | (inl _, _) => fail drgn_stop
      | (inr err, _) =>
          if negb (bool_decide (error_code err = DRGN_ERROR_STOP)) then
            fail err
          else
            do qualified_type <- drgn_type_from_dwarf die;
            ret (type qualified_type)
      end
  end.

Definition parse_member_offset (die : Dwarf_Die)
    (member_type : drgn_lazy_type) (bit_field_size : Z)
    (little_endian : bool) : M (drgn_lazy_type * Z) :=
  match dwarf_attr_integrate die DW_AT_data_bit_offset with
  | Some attr =>
      match dwarf_formudata attr with
      | None =>
          lift (other_error "DW_TAG_member has invalid DW_AT_data_bit_offset")
      | Some bit_offset => ret (member_type, bit_offset)
      end
  | None =>
      do ret0 <- lift
        match dwarf_attr_integrate die DW_AT_data_member_location with
        | Some attr =>
            match dwarf_formudata attr with
            | None =>
                other_error
                  "DW_TAG_member has invalid DW_AT_data_member_location"
            | Some byte_offset => Ok (wrap64 (8 * byte_offset))
            end
        | None => Ok 0
        end;
      match dwarf_attr_integrate die DW_AT_bit_offset with
      | None => ret (member_type, ret0)
      | Some attr =>
          match dwarf_formudata attr with
          | None =>
              lift (other_error "DW_TAG_member has invalid DW_AT_bit_offset")
          | Some bit_offset =>
              if little_endian then
                do (member_type, byte_size) <-
                  match dwarf_attr_integrate die DW_AT_byte_size with
                  | Some attr =>
                      match dwarf_formudata attr with
                      | None =>
                          lift (other_error
                                  "DW_TAG_member has invalid DW_AT_byte_size")
                      | Some word => ret (member_type, word)
                      end
                  | None =>
                      do (member_type, containing_type) <-
                        drgn_lazy_type_evaluate member_type;
                      do p <- gets prog;
                      match drgn_type_size p (type containing_type) with
                      | None =>
                          lift (other_error
                                  "DW_TAG_member bit field type does not have size")
                      | Some size => ret (member_type, size)
                      end
                  end;
                ret (member_type,
                     wrap64 (ret0 +
                             wrap64 (wrap64 (wrap64 (8 * byte_size)
                                             - bit_offset)
                                     - bit_field_size)))
              else ret (member_type, wrap64 (ret0 + bit_offset))
          end
      end
  end.

Definition parse_member (die : Dwarf_Die)
    (little_endian can_be_incomplete_array : bool)
    (builder : drgn_compound_type_builder) : M drgn_compound_type_builder :=
  do name <- lift
    match dwarf_attr_integrate die DW_AT_name with
    | Some attr =>
        match dwarf_formstring attr with
        | Some name => Ok (Some name)
        | None => other_error "DW_TAG_member has invalid DW_AT_name"
        end
    | None => Ok None
    end;
  do bit_field_size <- lift
    match dwarf_attr_integrate die DW_AT_bit_size with
    | Some attr =>
        match dwarf_formudata attr with
        | Some bit_size => Ok bit_size
        | None => other_error "DW_TAG_member has invalid DW_AT_bit_size"
        end
    | None => Ok 0
    end;
  do member_type <- lift
    (drgn_lazy_type_from_dwarf die can_be_incomplete_array "DW_TAG_member");
  do (member_type, bit_offset) <-
    parse_member_offset die member_type bit_field_size little_endian;
  ret (drgn_compound_type_builder_add_member builder member_type name
         bit_offset bit_field_size).

(** The walk over the children of a compound DIE: [member] is the last
    DW_TAG_member child seen so far ([member.addr] is non-null exactly when
    there is one); it is parsed when the next one shows up. *)
Fixpoint compound_children_loop (little_endian : bool)
    (children : list Dwarf_Die) (member : option Dwarf_Die)
    (builder : drgn_compound_type_builder)
  : M (option Dwarf_Die * drgn_compound_type_builder) :=
  match children with
  | [] => ret (member, builder)
  | child :: children =>
      if bool_decide (dwarf_tag child = DW_TAG_member) then
        do builder <-
          match member with
          | Some member => parse_member member little_endian false builder
          | None => ret builder
          end;
        compound_children_loop little_endian children (Some child) builder
      else compound_children_loop little_endian children member builder
  end.

Definition compound_dw_tag (kind : drgn_type_kind)
  : option (string * dwarf_tag_t) :=
  match kind with
  | DRGN_TYPE_STRUCT => Some ("DW_TAG_structure_type", DW_TAG_structure_type)
  | DRGN_TYPE_UNION => Some ("DW_TAG_union_type", DW_TAG_union_type)
  | DRGN_TYPE_CLASS => Some ("DW_TAG_class_type", DW_TAG_class_type)
  | _ => None
  end.

(** [if (!err || err->code != DRGN_ERROR_STOP) return err;] after a call of
    [drgn_dwarf_info_cache_find_complete]: [k] is what follows. *)
Definition unless_stop {A} (m : M A) (k : M A) : M A :=
  fun c =>
    match m c with
    | (Err err, c') =>
        if bool_decide (error_code err = DRGN_ERROR_STOP) then k c'
        else (Err err, c')
    | other => other
    end.

(** [drgn_compound_type_from_dwarf] from [int size = dwarf_bytesize(die)]
    on: what it does for a DIE that is not a declaration. *)
Definition drgn_compound_type_from_dwarf_complete (die : Dwarf_Die)
    (lang : option drgn_language) (kind : drgn_type_kind)
    (dw_tag_str : string) (tag : option string) : M type_handle :=
  let size := dwarf_bytesize die in
  if size =? -1 then
    lift (other_error
            (dw_tag_str +:+ " has missing or invalid DW_AT_byte_size"))
  else
    let builder := mk_compound_builder kind [] in
    (* the return value is ignored: without check_attr the call cannot
       fail *)
    let little_endian :=
      match dwarf_die_is_little_endian die false with
      | Ok little_endian => little_endian
      | _ => false
      end in
    do (member, builder) <-
      compound_children_loop little_endian (die_children die) None builder;
    if die_children_error die then
      lift (other_error "libdw could not parse DIE children")
    else
      do builder <-
        match member with
        | Some member =>
            parse_member member little_endian
              (negb (bool_decide (kind = DRGN_TYPE_UNION)) &&
               (0 <? Z.of_nat (List.length (builder_members builder))))
              builder
        | None => ret builder
        end;
      drgn_type_create
        (T_compound kind tag (wrap64 size) (builder_members builder) lang).

Definition drgn_compound_type_from_dwarf (die : Dwarf_Die)
    (lang : option drgn_language) (kind : drgn_type_kind) : M type_handle :=
  match compound_dw_tag kind with
  | None =>
      (* UNREACHABLE(): the callers pass STRUCT, UNION or CLASS *)
      lift (other_error "UNREACHABLE")
  | Some (dw_tag_str, dw_tag) =>
      do tag <- lift
        match dwarf_attr_integrate die DW_AT_name with
        | Some attr =>
            match dwarf_formstring attr with
            | Some tag => Ok (Some tag)
            | None => other_error (dw_tag_str +:+ " has invalid DW_AT_name")
            end
        | None => Ok None
        end;
      match dwarf_flag die DW_AT_declaration with
      | None =>
          lift (other_error (dw_tag_str +:+ " has invalid DW_AT_declaration"))
      | Some declaration =>
          let rest : M type_handle :=
            if declaration then
              drgn_type_create (T_incomplete_compound kind tag lang)
            else
              drgn_compound_type_from_dwarf_complete die lang kind
                dw_tag_str tag
          in
          match declaration, tag with
          | true, Some tag =>
              unless_stop
                (drgn_dwarf_info_cache_find_complete dw_tag tag) rest
          | _, _ => rest
          end
      end
  end.

Definition enum_compatible_type_fallback (die : Dwarf_Die) (is_signed : bool)
    (lang : option drgn_language) : M type_handle :=
  let size := dwarf_bytesize die in
  if size =? -1 then
    lift (other_error
            "DW_TAG_enumeration_type has missing or invalid DW_AT_byte_size")
  else drgn_type_create (T_int "<unknown>" (wrap64 size) is_signed lang).

Fixpoint enum_children_loop (children : list Dwarf_Die)
    (builder : list drgn_type_enumerator) (is_signed : bool)
  : res (list drgn_type_enumerator * bool) :=
  match children with
  | [] => Ok (builder, is_signed)
  | child :: children =>
      if bool_decide (dwarf_tag child = DW_TAG_enumerator) then
        try (builder, is_signed) <- parse_enumerator child builder is_signed;
        enum_children_loop children builder is_signed
      else enum_children_loop children builder is_signed
  end.

Definition drgn_enum_type_from_dwarf (die : Dwarf_Die)
    (lang : option drgn_language) : M type_handle :=
  do tag <- lift
    match dwarf_attr_integrate die DW_AT_name with
    | Some attr =>
        match dwarf_formstring attr with
        | Some tag => Ok (Some tag)
        | None => other_error "DW_TAG_enumeration_type has invalid DW_AT_name"
        end
    | None => Ok None
    end;
  match dwarf_flag die DW_AT_declaration with
  | None =>
      lift (other_error
              "DW_TAG_enumeration_type has invalid DW_AT_declaration")
  | Some declaration =>
      let rest : M type_handle :=
        if declaration then drgn_type_create (T_incomplete_enum tag lang)
        else
          do (builder, is_signed) <-
            lift (enum_children_loop (die_children die) [] false);
          if die_children_error die then
            lift (other_error "libdw could not parse DIE children")
          else
            do compatible_type <-
              match dwarf_type die with
              | Some None =>
                  lift (other_error
                          "DW_TAG_enumeration_type has invalid DW_AT_type")
              | None => enum_compatible_type_fallback die is_signed lang
              | Some (Some child) =>
                  do qualified_compatible_type <- drgn_type_from_dwarf child;
                  do p <- gets prog;
                  let compatible_type := type qualified_compatible_type in
                  if negb (bool_decide (drgn_type_kind_of p compatible_type
                                        = DRGN_TYPE_INT)) then
                    lift (other_error
                            "DW_AT_type of DW_TAG_enumeration_type is not an integer type")
                  else ret compatible_type
              end;
            drgn_type_create (T_enum tag compatible_type builder lang)
      in
      match declaration, tag with
      | true, Some tag =>
          unless_stop
            (drgn_dwarf_info_cache_find_complete DW_TAG_enumeration_type tag)
            rest
      | _, _ => rest
      end
  end.

(** [is_incomplete_array_ret] holds [is_incomplete_array] when the function
    is entered; the function returns what it holds afterwards. *)
Definition drgn_typedef_type_from_dwarf (die : Dwarf_Die)
    (lang : option drgn_language) (can_be_incomplete_array : bool)
    (is_incomplete_array : bool) : M (type_handle * bool) :=
  match dwarf_diename die with
  | None =>
      lift (other_error "DW_TAG_typedef has missing or invalid DW_AT_name")
  | Some name =>
      do (aliased_type, is_incomplete_array_ret) <-
        drgn_type_from_dwarf_child die (Some (drgn_language_or_default lang))
          "DW_TAG_typedef" true can_be_incomplete_array
          (Some is_incomplete_array);
      do t <- drgn_type_create (T_typedef name aliased_type lang);
      ret (t, default is_incomplete_array is_incomplete_array_ret)
  end.

Definition drgn_pointer_type_from_dwarf (die : Dwarf_Die)
    (lang : option drgn_language) : M type_handle :=
  do (referenced_type, _) <-
    drgn_type_from_dwarf_child die (Some (drgn_language_or_default lang))
      "DW_TAG_pointer_type" true true None;
  do size <-
    match dwarf_attr_integrate die DW_AT_byte_size with
    | Some attr =>
        match dwarf_formudata attr with
        | Some word => ret word
        | None =>
            lift (other_error
                    "DW_TAG_pointer_type has invalid DW_AT_byte_size")
        end
    | None =>
        do p <- gets prog;
        lift (drgn_program_word_size p)
    end;
  drgn_type_create (T_pointer referenced_type size lang).

Fixpoint array_children_loop (children : list Dwarf_Die)
    (dimensions : list array_dimension) : res (list array_dimension) :=
  match children with
  | [] => Ok dimensions
  | child :: children =>
      if bool_decide (dwarf_tag child = DW_TAG_subrange_type) then
        try dimension <- subrange_length child uninitialized_dimension;
        array_children_loop children (dimensions ++ [dimension])
      else array_children_loop children dimensions
  end.

(** The do-while loop of [drgn_array_type_from_dwarf]: [dimension] was
    popped off the vector and [dimensions] are the ones left in it, the
    last one first. *)
Fixpoint array_type_loop (lang : option drgn_language)
    (can_be_incomplete_array : bool) (dimension : array_dimension)
    (dimensions : list array_dimension) (element_type : drgn_qualified_type)
  : M type_handle :=
  do t <-
    (if is_complete dimension then
       drgn_type_create (T_array element_type (length dimension) lang)
     else if negb (bool_decide (dimensions = [])) ||
             negb can_be_incomplete_array then
       drgn_type_create (T_array element_type 0 lang)
     else drgn_type_create (T_incomplete_array element_type lang));
  match dimensions with
  | [] => ret t
  | dimension :: dimensions =>
      array_type_loop lang can_be_incomplete_array dimension dimensions
        {| type := t; qualifiers := 0 |}
  end.

Definition drgn_array_type_from_dwarf (die : Dwarf_Die)
    (lang : option drgn_language) (can_be_incomplete_array : bool)
  : M (type_handle * bool) :=
  do dimensions <- lift (array_children_loop (die_children die) []);
  if die_children_error die then
    lift (other_error "libdw could not parse DIE children")
  else
    let dimensions :=
      match dimensions with
      | [] => [{| length := length uninitialized_dimension;
                  is_complete := false |}]
      | _ => dimensions
      end in
    do (element_type, _) <-
      drgn_type_from_dwarf_child die (Some (drgn_language_or_default lang))
        "DW_TAG_array_type" false false None;
    let is_incomplete_array :=
      negb (is_complete (hd uninitialized_dimension dimensions)) in
    do t <-
      match rev dimensions with
      | dimension :: rest =>
          array_type_loop lang can_be_incomplete_array dimension rest
            element_type
      | [] =>
          (* the vector holds at least one dimension *)
          lift (other_error "UNREACHABLE")
      end;
    ret (t, is_incomplete_array).

Definition parse_formal_parameter (die : Dwarf_Die)
    (builder : list drgn_type_parameter) : res (list drgn_type_parameter) :=
  try name <-
    match dwarf_attr_integrate die DW_AT_name with
    | Some attr =>
        match dwarf_formstring attr with
        | Some name => Ok (Some name)
        | None => other_error "DW_TAG_formal_parameter has invalid DW_AT_name"
        end
    | None => Ok None
    end;
  try parameter_type <-
    drgn_lazy_type_from_dwarf die true "DW_TAG_formal_parameter";
  Ok (builder ++ [mk_parameter parameter_type name]).

Fixpoint function_children_loop (tag_name : string)
    (children : list Dwarf_Die) (builder : list drgn_type_parameter)
    (is_variadic : bool) : res (list drgn_type_parameter * bool) :=
  match children with
  | [] => Ok (builder, is_variadic)
  | child :: children =>
      match dwarf_tag child with
      | DW_TAG_formal_parameter =>
          if is_variadic then
            other_error
              (tag_name +:+
               " has DW_TAG_formal_parameter child after DW_TAG_unspecified_parameters child")
          else
            try builder <- parse_formal_parameter child builder;
            function_children_loop tag_name children builder is_variadic
      | DW_TAG_unspecified_parameters =>
          if is_variadic then
            other_error
              (tag_name +:+
               " has multiple DW_TAG_unspecified_parameters children")
          else function_children_loop tag_name children builder true
      | _ => function_children_loop tag_name children builder is_variadic
      end
  end.

Definition drgn_function_type_from_dwarf (die : Dwarf_Die)
    (lang : option drgn_language) : M type_handle :=
  let tag_name :=
    if bool_decide (dwarf_tag die = DW_TAG_subroutine_type)
    then "DW_TAG_subroutine_type" else "DW_TAG_subprogram" in
  do (builder, is_variadic) <-
    lift (function_children_loop tag_name (die_children die) [] false);
  if die_children_error die then
    lift (other_error "libdw could not parse DIE children")
  else
    do (return_type, _) <-
      drgn_type_from_dwarf_child die (Some (drgn_language_or_default lang))
        tag_name true true None;
    drgn_type_create (T_function return_type builder is_variadic lang).

End Dispatchers.

(** ** The memoization core *)

Definition set_maps (m r : gmap die_address dwarf_type_map_value)
    (oracle : list bool) (c : drgn_dwarf_info_cache) :=
  {| map := m; cant_be_incomplete_array_map := r; depth := depth c;
     prog := prog c; insert_enomem := oracle |}.

(** Modelled from the spec: the insertion of [hash_table.h], which is not
    among the sources: the map then holds the entry under its key.  It
    answers whether the insertion succeeded ([false] for the -1 of an
    allocation failure).  [restricted] selects
    [cant_be_incomplete_array_map].  Where the key is there already, this
    model keeps the new entry; [dispatch_leaves_own_entries] has a
    condition under which the call that inserts has put nothing under the
    key before. *)
Definition dwarf_type_map_insert_searched (restricted : bool)
    (key : die_address) (value : dwarf_type_map_value)
    (c : drgn_dwarf_info_cache) : bool * drgn_dwarf_info_cache :=
  let fails := hd false (insert_enomem c) in
  let oracle := tl (insert_enomem c) in
  if fails then
    (false, set_maps (map c) (cant_be_incomplete_array_map c) oracle c)
  else if restricted then
    (true,
     set_maps (map c) (<[key := value]> (cant_be_incomplete_array_map c))
       oracle c)
  else
    (true,
     set_maps (<[key := value]> (map c)) (cant_be_incomplete_array_map c)
       oracle c).

(** The two searches at the head of [drgn_type_from_dwarf_internal]. *)
Definition dwarf_type_map_search (c : drgn_dwarf_info_cache)
    (key : die_address) (can_be_incomplete_array : bool)
  : option dwarf_type_map_value :=
  match map c !! key with
  | Some value =>
      if negb can_be_incomplete_array && value_is_incomplete_array value
      then cant_be_incomplete_array_map c !! key
      else Some value
  | None => None
  end.

Section Core.

Variable img : debug_info.
Variable rec : resolver.

Definition qualifier_type_from_dwarf (die : Dwarf_Die)
    (lang : option drgn_language) (tag_name : string) (qualifier : Z)
  : M (drgn_qualified_type * bool) :=
  do (qualified_type, _) <-
    drgn_type_from_dwarf_child img rec die
      (Some (drgn_language_or_default lang)) tag_name true true None;
  ret ({| type := type qualified_type;
          qualifiers := Z.lor (qualifiers qualified_type) qualifier |},
       false).

Definition unqualified {A} (m : M type_handle) (k : type_handle → A)
  : M A :=
  do t <- m; ret (k t).

(** The [switch (dwarf_tag(die))]: it answers [*ret] and
    [entry.value.is_incomplete_array]. *)
Definition dispatch (die : Dwarf_Die) (lang : option drgn_language)
    (can_be_incomplete_array : bool) : M (drgn_qualified_type * bool) :=
  let plain (t : type_handle) := ({| type := t; qualifiers := 0 |}, false) in
  match dwarf_tag die with
  | DW_TAG_const_type =>
      qualifier_type_from_dwarf die lang "DW_TAG_const_type"
        DRGN_QUALIFIER_CONST
  | DW_TAG_restrict_type =>
      qualifier_type_from_dwarf die lang "DW_TAG_restrict_type"
        DRGN_QUALIFIER_RESTRICT
  | DW_TAG_volatile_type =>
      qualifier_type_from_dwarf die lang "DW_TAG_volatile_type"
        DRGN_QUALIFIER_VOLATILE
  | DW_TAG_atomic_type =>
      qualifier_type_from_dwarf die lang "DW_TAG_atomic_type"
        DRGN_QUALIFIER_ATOMIC
  | DW_TAG_base_type =>
      unqualified (drgn_base_type_from_dwarf img rec die lang) plain
  | DW_TAG_structure_type =>
      unqualified
        (drgn_compound_type_from_dwarf img rec die lang DRGN_TYPE_STRUCT)
        plain
  | DW_TAG_union_type =>
      unqualified
        (drgn_compound_type_from_dwarf img rec die lang DRGN_TYPE_UNION)
        plain
  | DW_TAG_class_type =>
      unqualified
        (drgn_compound_type_from_dwarf img rec die lang DRGN_TYPE_CLASS)
        plain
  | DW_TAG_enumeration_type =>
      unqualified (drgn_enum_type_from_dwarf img rec die lang) plain
  | DW_TAG_typedef =>
      do (t, is_incomplete_array) <-
        drgn_typedef_type_from_dwarf img rec die lang can_be_incomplete_array
          false;
      ret ({| type := t; qualifiers := 0 |}, is_incomplete_array)
  | DW_TAG_pointer_type =>
      unqualified (drgn_pointer_type_from_dwarf img rec die lang) plain
  | DW_TAG_array_type =>
      do (t, is_incomplete_array) <-
        drgn_array_type_from_dwarf img rec die lang can_be_incomplete_array;
      ret ({| type := t; qualifiers := 0 |}, is_incomplete_array)
  | DW_TAG_subroutine_type | DW_TAG_subprogram =>
      unqualified (drgn_function_type_from_dwarf img rec die lang) plain
  | _ => lift (other_error "unknown DWARF type tag")
  end.

(** One call of [drgn_type_from_dwarf_internal], its nested calls being
    those of [rec]. *)
Definition drgn_type_from_dwarf_internal_body : resolver :=
  fun die can_be_incomplete_array is_incomplete_array_ret dicache =>
    if (1000 <=? depth dicache)%nat then
      (Err (drgn_error_create DRGN_ERROR_RECURSION
              "maximum DWARF type parsing depth exceeded"), dicache)
    else
      let key := die_addr die in
      match dwarf_type_map_search dicache key can_be_incomplete_array with
      | Some value =>
          (Ok ({| type := value_type value;
                  qualifiers := value_qualifiers value |},
               is_incomplete_array_ret), dicache)
      | None =>
          match drgn_language_from_die die with
          | Err err => (Err err, dicache)
          | OutOfFuel => (OutOfFuel, dicache)
          | Ok lang =>
              let dicache := set_depth (S (depth dicache)) dicache in
              let (r, dicache) :=
                dispatch die lang can_be_incomplete_array dicache in
              let dicache := set_depth (Nat.pred (depth dicache)) dicache in
              match r with
              | Err err => (Err err, dicache)
              | OutOfFuel => (OutOfFuel, dicache)
              | Ok (ret, is_incomplete_array) =>
                  let value :=
                    {| value_type := type ret;
                       value_qualifiers := qualifiers ret;
                       value_is_incomplete_array := is_incomplete_array |} in
                  let restricted :=
                    negb can_be_incomplete_array && is_incomplete_array in
                  let (inserted, dicache) :=
                    dwarf_type_map_insert_searched restricted key value
                      dicache in
                  if inserted then
                    (Ok (ret,
                         match is_incomplete_array_ret with
                         | Some _ => Some is_incomplete_array
                         | None => None
                         end), dicache)
                  else (Err drgn_enomem, dicache)
              end
          end
      end.

End Core.

(** The recursion of [drgn_type_from_dwarf_internal], at most [fuel] calls
    deep. *)
Fixpoint resolve_fuel (img : debug_info) (fuel : nat) : resolver :=
  match fuel with
  | O => fun _ _ _ dicache => (OutOfFuel, dicache)
  | S fuel => drgn_type_from_dwarf_internal_body img (resolve_fuel img fuel)
  end.

(** [drgn_type_from_dwarf_internal]: nested calls go one level deeper each
    and stop at depth 1000, so the call and [1000 - depth] levels below it
    are all a call can use. *)
Definition drgn_type_from_dwarf_internal (img : debug_info) : resolver :=
  fun die can_be_incomplete_array is_incomplete_array_ret dicache =>
    resolve_fuel img (S (1000 - depth dicache)) die can_be_incomplete_array
      is_incomplete_array_ret dicache.

(** ** The object finder: enumerators *)

Inductive drgn_object :=
  | object_signed (qualified_type : drgn_qualified_type) (svalue : Z)
  | object_unsigned (qualified_type : drgn_qualified_type) (uvalue : Z).

(** What a call does: return, or run into [UNREACHABLE()]. *)
Inductive outcome (A : Type) :=
  | Returns (r : res A)
  | Unreachable.
Arguments Returns {A} r.
Arguments Unreachable {A}.

(** Modelled from the spec: the accessors of [type.h], which is not among
    the sources. *)
Definition drgn_type_enumerators (p : drgn_program) (h : type_handle)
  : list drgn_type_enumerator :=
  match drgn_type_lookup p h with
  | Some (T_enum _ _ enumerators _) => enumerators
  | _ => []
  end.

Definition drgn_enum_type_is_signed (p : drgn_program) (h : type_handle)
  : bool :=
  match drgn_type_lookup p h with
  | Some (T_enum _ compatible_type _ _) =>
      match drgn_type_lookup p compatible_type with
      | Some (T_int _ _ is_signed _) => is_signed
      | _ => false
      end
  | _ => false
  end.

(** The [for] loop of [drgn_object_from_dwarf_enumerator]; [None] when it
    runs to its end. *)
Fixpoint enumerators_scan (is_signed : bool)
    (qualified_type : drgn_qualified_type)
    (enumerators : list drgn_type_enumerator) (name : string)
  : option drgn_object :=
  match enumerators with
  | [] => None
  | enumerator :: enumerators =>
      if negb (bool_decide (enumerator_name enumerator = name)) then
        enumerators_scan is_signed qualified_type enumerators name
      else if is_signed then
        (* drgn_object_set_signed *)
        Some (object_signed qualified_type (enumerator_svalue enumerator))
      else
        (* drgn_object_set_unsigned *)
        Some (object_unsigned qualified_type (enumerator_uvalue enumerator))
  end.

Definition drgn_object_from_dwarf_enumerator (img : debug_info)
    (die : Dwarf_Die) (name : string) (dicache : drgn_dwarf_info_cache)
  : outcome drgn_object * drgn_dwarf_info_cache :=
  match drgn_type_from_dwarf (drgn_type_from_dwarf_internal img) die
          dicache with
  | (Err err, dicache) => (Returns (Err err), dicache)
  | (OutOfFuel, dicache) => (Returns OutOfFuel, dicache)
  | (Ok qualified_type, dicache) =>
      let p := prog dicache in
      match enumerators_scan (drgn_enum_type_is_signed p (type qualified_type))
              qualified_type
              (drgn_type_enumerators p (type qualified_type)) name with
      | Some object => (Returns (Ok object), dicache)
      | None => (Unreachable, dicache)
      end
  end.

(** ** The type finder *)

(** The [switch] of [drgn_dwarf_type_find]; [None] is its [UNREACHABLE()]. *)
Definition type_find_tag (kind : drgn_type_kind) : option dwarf_tag_t :=
  match kind with
  | DRGN_TYPE_INT | DRGN_TYPE_BOOL | DRGN_TYPE_FLOAT => Some DW_TAG_base_type
  | DRGN_TYPE_STRUCT => Some DW_TAG_structure_type
  | DRGN_TYPE_UNION => Some DW_TAG_union_type
  | DRGN_TYPE_CLASS => Some DW_TAG_class_type
  | DRGN_TYPE_ENUM => Some DW_TAG_enumeration_type
  | DRGN_TYPE_TYPEDEF => Some DW_TAG_typedef
  | _ => None
  end.

Section TypeFinder.

Variable img : debug_info.

(** [die_matches_filename] is not among the sources: it tells whether a DIE
    is of a file that the file name, if there is one, stands for. *)
Variable die_matches_filename : Dwarf_Die → option string → bool.

(** The [while] loop of [drgn_dwarf_type_find] and what follows it.  The
    loop takes one hit of the iterator per turn; [fuel] bounds its turns. *)
Fixpoint type_find_loop (fuel : nat) (kind : drgn_type_kind)
    (filename : option string) (it : drgn_dwarf_index_iterator)
  : M drgn_qualified_type :=
  match fuel with
  | O => lift OutOfFuel
  | S fuel =>
      match drgn_dwarf_index_iterator_next it with
      | (inl (die, _), it) =>
          if die_matches_filename die filename then
            do ret0 <- drgn_type_from_dwarf
                         (drgn_type_from_dwarf_internal img) die;
            do p <- gets prog;
            (* For DW_TAG_base_type, we need to check that the type we
               found was the right kind. *)
            if bool_decide (drgn_type_kind_of p (type ret0) = kind) then
              ret ret0
            else type_find_loop fuel kind filename it
          else type_find_loop fuel kind filename it
      | (inr err, _) =>
          if negb (bool_decide (error_code err = DRGN_ERROR_STOP)) then
            fail err
          else fail drgn_not_found
      end
  end.

Definition drgn_dwarf_type_find (kind : drgn_type_kind) (name : string)
    (filename : option string) (dicache : drgn_dwarf_info_cache)
  : outcome drgn_qualified_type * drgn_dwarf_info_cache :=
  match type_find_tag kind with
  | None => (Unreachable, dicache)
  | Some tag =>
      let it := drgn_dwarf_index_iterator_init img name tag in
      let (r, dicache) :=
        type_find_loop (S (List.length (it_hits it))) kind filename it
          dicache in
      (Returns r, dicache)
  end.

End TypeFinder.

(** * Notions used by the properties *)

(** A decoder that touches no state never runs out of fuel, and none of
    its errors is DRGN_ERROR_RECURSION. *)
Definition benign {A} (r : res A) : Prop :=
  r ≠ OutOfFuel ∧ ∀ e, r = Err e → error_code e ≠ DRGN_ERROR_RECURSION.

(** ** The type references a resolution follows

    [dep img die E]: resolving [die] can call
    [drgn_type_from_dwarf_internal] on [E] before it returns: [E] is the
    target of its DW_AT_type, or, for a declaration, the one complete
    definition the index has under its name, or the type of a bit-field
    member whose size is read through its type (little-endian only).
    Member and parameter types kept as thunks are not followed. *)

Definition member_type_is_read (member : Dwarf_Die) : bool :=
  match dwarf_attr_integrate member DW_AT_data_bit_offset,
        dwarf_attr_integrate member DW_AT_bit_offset,
        dwarf_attr_integrate member DW_AT_byte_size with
  | None, Some _, None => true
  | _, _, _ => false
  end.

Inductive dep (img : debug_info) (die : Dwarf_Die) : Dwarf_Die → Prop :=
  | dep_type E :
      dwarf_type img die = Some (Some E) → dep img die E
  | dep_complete name E bias :
      dwarf_flag die DW_AT_declaration = Some true →
      dwarf_diename die = Some name →
      index_hits img name (dwarf_tag die) = [(E, bias)] →
      dep img die E
  | dep_member member E :
      die_elf_lsb die = true →
      In member (die_children die) →
      dwarf_tag member = DW_TAG_member →
      member_type_is_read member = true →
      dwarf_type img member = Some (Some E) →
      dep img die E.

(** [triple pre R fuel_ok err_ok m Q] says that [m], run from a cache
    satisfying [pre], leaves a cache related to it by [R], answers
    [OutOfFuel] only if [fuel_ok], fails only with errors satisfying
    [err_ok], and returns values satisfying [Q]. *)
Definition triple (pre : drgn_dwarf_info_cache → Prop)
    (R : drgn_dwarf_info_cache → drgn_dwarf_info_cache → Prop)
    (fuel_ok : Prop) (err_ok : drgn_error → Prop)
    {A} (m : M A) (Q : A → Prop) : Prop :=
  ∀ c r c', pre c → m c = (r, c') →
    R c c' ∧ (r = OutOfFuel → fuel_ok) ∧ (∀ e, r = Err e → err_ok e) ∧
    (∀ a, r = Ok a → Q a).

Definition sound (pre : drgn_dwarf_info_cache → Prop)
    (R : drgn_dwarf_info_cache → drgn_dwarf_info_cache → Prop)
    (fuel_ok : Prop) (err_ok : drgn_error → Prop)
    {A} (m : M A) : Prop :=
  triple pre R fuel_ok err_ok m (fun _ => True).

(** What [P], a set of DIEs, has to hold of for the member DIE [member]
    of a compound parsed with [little_endian]: the type of the member, if
    [parse_member_offset] reads it. *)
Definition member_ok (img : debug_info) (P : Dwarf_Die → Prop)
    (little_endian : bool) (member : Dwarf_Die) : Prop :=
  ∀ E, little_endian = true →
       member_type_is_read member = true →
       dwarf_type img member = Some (Some E) → P E.

(** [untouched K c c']: from [c] to [c'] the depth is the same, and so are
    the entries of both maps under every key that is not the address of a
    DIE of [K]. *)
Definition untouched (K : Dwarf_Die → Prop) (c c' : drgn_dwarf_info_cache)
  : Prop :=
  depth c' = depth c ∧
  ∀ a, (∀ X, K X → die_addr X ≠ a) →
       map c' !! a = map c !! a ∧
       cant_be_incomplete_array_map c' !! a
       = cant_be_incomplete_array_map c !! a.

Definition same_depth (c c' : drgn_dwarf_info_cache) : Prop :=
  depth c' = depth c.

(** [die] is on no cycle of the references of [dep]: no DIE that its
    resolution can reach has its address. *)
Definition not_on_a_cycle (img : debug_info) (die : Dwarf_Die) : Prop :=
  ∀ X, tc (dep img) die X → die_addr X ≠ die_addr die.


(** The qualifier bit of a qualifier tag. *)
Definition qualifier_of_tag (tag : dwarf_tag_t) : option Z :=
  match tag with
  | DW_TAG_const_type => Some DRGN_QUALIFIER_CONST
  | DW_TAG_restrict_type => Some DRGN_QUALIFIER_RESTRICT
  | DW_TAG_volatile_type => Some DRGN_QUALIFIER_VOLATILE
  | DW_TAG_atomic_type => Some DRGN_QUALIFIER_ATOMIC
  | _ => None
  end.

(** The attribute holds -1 in DW_FORM_sdata. *)
Definition is_sdata_minus_one (attr : Dwarf_Attribute) : bool :=
  match form attr with
  | DW_FORM_sdata s => signed64 s =? -1
  | _ => false
  end.

(** The DW_TAG_member children of a DIE, in order. *)
Definition member_children (die : Dwarf_Die) : list Dwarf_Die :=
  List.filter (fun child => bool_decide (dwarf_tag child = DW_TAG_member))
    (die_children die).

(** The members of a compound as the specification has them decoded (4.6.3):
    the last one with
    [can_be_incomplete_array = (kind != UNION && members_so_far > 0)],
    every other one with [false].  [members_so_far] counts the members
    decoded before. *)
Fixpoint parse_members_as_specified (img : debug_info) (rec : resolver)
    (little_endian : bool) (kind : drgn_type_kind) (members_so_far : nat)
    (members : list Dwarf_Die) (builder : drgn_compound_type_builder)
  : M drgn_compound_type_builder :=
  match members with
  | [] => ret builder
  | [member] =>
      parse_member img rec member little_endian
        (negb (bool_decide (kind = DRGN_TYPE_UNION)) &&
         (0 <? members_so_far)%nat)
        builder
  | member :: members =>
      do builder <- parse_member img rec member little_endian false builder;
      parse_members_as_specified img rec little_endian kind
        (S members_so_far) members builder
  end.

(** The outermost dimension of an array type, a typedef of one, ...: its
    length, [None] for an incomplete array.  [fuel] bounds the chain of
    typedefs followed. *)
Fixpoint outermost_array_length (p : drgn_program) (fuel : nat)
    (h : type_handle) : option (option Z) :=
  match fuel with
  | O => None
  | S fuel =>
      match drgn_type_lookup p h with
      | Some (T_array _ len _) => Some (Some len)
      | Some (T_incomplete_array _ _) => Some None
      | Some (T_typedef _ aliased_type _) =>
          outermost_array_length p fuel (type aliased_type)
      | _ => None
      end
  end.

(** DW_AT_data_member_location of a member as an unsigned value, 0 when
    the attribute is absent; [None] when its form is not a constant. *)
Definition member_byte_offset (die : Dwarf_Die) : option Z :=
  match dwarf_attr_integrate die DW_AT_data_member_location with
  | Some attr => dwarf_formudata attr
  | None => Some 0
  end.

(** ** Sample debugging information

    [int], [int []] (an array whose subrange has neither bound nor count),
    [const] of that array, a typedef of it, a pointer to [int] whose
    DW_AT_byte_size is a string, an enumeration, and chains of typedefs. *)

Definition sample_die (addr : die_address) (tag : dwarf_tag_t)
    (attrs : list Dwarf_Attribute) (children : list Dwarf_Die) : Dwarf_Die :=
  {| die_addr := addr; die_tag := tag; die_attrs := attrs;
     die_children := children; die_children_error := false;
     die_cu_language := Some (Some drgn_language_c); die_elf_lsb := true |}.

Definition int_die : Dwarf_Die :=
  sample_die 1%N DW_TAG_base_type
    [mk_attr DW_AT_name (DW_FORM_string "int");
     mk_attr DW_AT_encoding (DW_FORM_udata DW_ATE_signed);
     mk_attr DW_AT_byte_size (DW_FORM_udata 4)] [].

Definition incomplete_array_die : Dwarf_Die :=
  sample_die 2%N DW_TAG_array_type [mk_attr DW_AT_type (DW_FORM_ref 1%N)]
    [sample_die 3%N DW_TAG_subrange_type [] []].

Definition const_array_die : Dwarf_Die :=
  sample_die 4%N DW_TAG_const_type [mk_attr DW_AT_type (DW_FORM_ref 2%N)] [].

Definition typedef_array_die : Dwarf_Die :=
  sample_die 5%N DW_TAG_typedef
    [mk_attr DW_AT_name (DW_FORM_string "array_t");
     mk_attr DW_AT_type (DW_FORM_ref 2%N)] [].

Definition bad_pointer_die : Dwarf_Die :=
  sample_die 6%N DW_TAG_pointer_type
    [mk_attr DW_AT_type (DW_FORM_ref 1%N);
     mk_attr DW_AT_byte_size (DW_FORM_string "8")] [].

Definition color_die : Dwarf_Die :=
  sample_die 7%N DW_TAG_enumeration_type
    [mk_attr DW_AT_name (DW_FORM_string "color");
     mk_attr DW_AT_byte_size (DW_FORM_udata 4)]
    [sample_die 8%N DW_TAG_enumerator
       [mk_attr DW_AT_name (DW_FORM_string "RED");
        mk_attr DW_AT_const_value (DW_FORM_sdata (-1))] [];
     sample_die 9%N DW_TAG_enumerator
       [mk_attr DW_AT_name (DW_FORM_string "GREEN");
        mk_attr DW_AT_const_value (DW_FORM_udata 1)] []].

Definition sample_dies : list Dwarf_Die :=
  [int_die; incomplete_array_die; const_array_die; typedef_array_die;
   bad_pointer_die; color_die].

Definition sample_image : debug_info :=
  {| die_at := fun a =>
       List.find (fun die => bool_decide (die_addr die = a)) sample_dies;
     index_hits := fun _ _ => [];
     index_fails := fun _ _ => false |}.

Definition sample_program : drgn_program :=
  {| created_types := []; has_platform := true; is_64_bit := true |}.

Definition empty_cache : drgn_dwarf_info_cache :=
  drgn_dwarf_info_cache_create sample_program.



(** A bit-field member of 3 bits, 29 bits from the most significant bit of
    its 4-byte storage unit, at byte 0 of its structure. *)
Definition bit_field_die : Dwarf_Die :=
  sample_die 10%N DW_TAG_member
    [mk_attr DW_AT_name (DW_FORM_string "flags");
     mk_attr DW_AT_type (DW_FORM_ref 1%N);
     mk_attr DW_AT_byte_size (DW_FORM_udata 4);
     mk_attr DW_AT_bit_size (DW_FORM_udata 3);
     mk_attr DW_AT_bit_offset (DW_FORM_udata 29);
     mk_attr DW_AT_data_member_location (DW_FORM_udata 0)] [].

(** Subranges with DW_AT_upper_bound. *)
Definition subrange_die (upper_bound : dwarf_form_t) : Dwarf_Die :=
  sample_die 11%N DW_TAG_subrange_type
    [mk_attr DW_AT_upper_bound upper_bound] [].

(** A declaration of [struct foo], and an index with two definitions of
    it and with one. *)
Definition foo_declaration_die : Dwarf_Die :=
  sample_die 12%N DW_TAG_structure_type
    [mk_attr DW_AT_name (DW_FORM_string "foo");
     mk_attr DW_AT_declaration (DW_FORM_flag true)] [].

Definition foo_definition_die (addr : die_address) (size : Z) : Dwarf_Die :=
  sample_die addr DW_TAG_structure_type
    [mk_attr DW_AT_name (DW_FORM_string "foo");
     mk_attr DW_AT_byte_size (DW_FORM_udata size)] [].

Definition foo_image (definitions : list Dwarf_Die) : debug_info :=
  {| die_at := fun _ => None;
     index_hits := fun name tag =>
       if bool_decide (name = "foo") &&
          bool_decide (tag = DW_TAG_structure_type)
       then List.map (fun die => (die, 0)) definitions else [];
     index_fails := fun _ _ => false |}.

(** [struct s { int n; int data[]; }] and
    [union u { int n; int data[]; }]. *)
Definition flexible_members : list Dwarf_Die :=
  [sample_die 14%N DW_TAG_member
     [mk_attr DW_AT_name (DW_FORM_string "n");
      mk_attr DW_AT_type (DW_FORM_ref 1%N);
      mk_attr DW_AT_data_member_location (DW_FORM_udata 0)] [];
   sample_die 15%N DW_TAG_member
     [mk_attr DW_AT_name (DW_FORM_string "data");
      mk_attr DW_AT_type (DW_FORM_ref 2%N);
      mk_attr DW_AT_data_member_location (DW_FORM_udata 4)] []].

Definition flexible_struct_die : Dwarf_Die :=
  sample_die 13%N DW_TAG_structure_type
    [mk_attr DW_AT_name (DW_FORM_string "s");
     mk_attr DW_AT_byte_size (DW_FORM_udata 4)] flexible_members.

Definition flexible_union_die : Dwarf_Die :=
  sample_die 16%N DW_TAG_union_type
    [mk_attr DW_AT_name (DW_FORM_string "u");
     mk_attr DW_AT_byte_size (DW_FORM_udata 4)] flexible_members.

(** ** Notions used by the further properties *)

(** [later img c c']: [c'] is [c] after any number of calls of
    [drgn_type_from_dwarf_internal], on any DIEs, with any arguments. *)
Inductive later (img : debug_info)
  : drgn_dwarf_info_cache → drgn_dwarf_info_cache → Prop :=
  | later_now c : later img c c
  | later_call c c1 die cbia iia :
      later img c c1 →
      later img c (snd (drgn_type_from_dwarf_internal img die cbia iia c1)).

(** From [c] to [c'] the program has only got new types: the ones it had
    are where they were. *)
Definition store_grows (c c' : drgn_dwarf_info_cache) : Prop :=
  ∃ new, created_types (prog c') = created_types (prog c) ++ new.

(** From [c] to [c'] every entry of the primary map that is not one of an
    incomplete array is still there. *)
Definition keeps_complete (c c' : drgn_dwarf_info_cache) : Prop :=
  ∀ a v, map c !! a = Some v → value_is_incomplete_array v = false →
         map c' !! a = Some v.

(** [creates c c' t ty]: from [c] to [c'] the program has only got new
    types, the last of which is [ty], and [t] is its handle. *)
Definition creates (c c' : drgn_dwarf_info_cache) (t : type_handle)
    (ty : drgn_type) : Prop :=
  ∃ new,
    created_types (prog c') = created_types (prog c) ++ new ++ [ty] ∧
    t = created_type (List.length (created_types (prog c) ++ new)).

(** The dimensions of an array DIE, the outermost first: what its
    DW_TAG_subrange_type children give, or one incomplete dimension if it
    has none. *)
Definition array_dimensions (die : Dwarf_Die) : res (list array_dimension) :=
  try dimensions <- array_children_loop (die_children die) [];
  Ok match dimensions with
     | [] => [{| length := length uninitialized_dimension;
                 is_complete := false |}]
     | _ => dimensions
     end.

(** The length an array type gets for a dimension: [None] for an incomplete
    array type. *)
Definition dimension_length (outermost can_be_incomplete_array : bool)
    (dimension : array_dimension) : option Z :=
  if is_complete dimension then Some (length dimension)
  else if outermost && can_be_incomplete_array then None
  else Some 0.

(** The lengths that the array types of the dimensions get, the outermost
    first. *)
Definition decoded_lengths (can_be_incomplete_array : bool)
    (dimensions : list array_dimension) : list (option Z) :=
  match dimensions with
  | [] => []
  | dimension :: dimensions =>
      dimension_length true can_be_incomplete_array dimension ::
      List.map (dimension_length false can_be_incomplete_array) dimensions
  end.

(** Reading an array type back: the lengths of its [n] outermost
    dimensions, the outermost first, and the element type under them. *)
Fixpoint array_unfold (p : drgn_program) (n : nat)
    (qualified_type : drgn_qualified_type)
  : list (option Z) * drgn_qualified_type :=
  match n with
  | O => ([], qualified_type)
  | S n =>
      match drgn_type_lookup p (type qualified_type) with
      | Some (T_array element_type len _) =>
          let (lengths, element) := array_unfold p n element_type in
          (Some len :: lengths, element)
      | Some (T_incomplete_array element_type _) =>
          let (lengths, element) := array_unfold p n element_type in
          (None :: lengths, element)
      | _ => ([], qualified_type)
      end
  end.

(** [drgn_type_kind] of a descriptor. *)
Definition type_kind (ty : drgn_type) : drgn_type_kind :=
  match ty with
  | T_int _ _ _ _ => DRGN_TYPE_INT
  | T_bool _ _ _ => DRGN_TYPE_BOOL
  | T_float _ _ _ => DRGN_TYPE_FLOAT
  | T_complex _ _ _ _ => DRGN_TYPE_COMPLEX
  | T_compound kind _ _ _ _ => kind
  | T_incomplete_compound kind _ _ => kind
  | T_enum _ _ _ _ => DRGN_TYPE_ENUM
  | T_incomplete_enum _ _ => DRGN_TYPE_ENUM
  | T_typedef _ _ _ => DRGN_TYPE_TYPEDEF
  | T_pointer _ _ _ => DRGN_TYPE_POINTER
  | T_array _ _ _ => DRGN_TYPE_ARRAY
  | T_incomplete_array _ _ => DRGN_TYPE_ARRAY
  | T_function _ _ _ _ => DRGN_TYPE_FUNCTION
  end.

(** The kind of type a DIE stands for, by its tag and, for a base type, by
    its DW_AT_encoding; [None] for the tags that add a qualifier to another
    type and for the tags that are not types. *)
Definition kind_of_die (die : Dwarf_Die) : option drgn_type_kind :=
  match dwarf_tag die with
  | DW_TAG_base_type =>
      match dwarf_attr_integrate die DW_AT_encoding with
      | Some attr =>
          match dwarf_formudata attr with
          | Some encoding =>
              if encoding =? DW_ATE_boolean then Some DRGN_TYPE_BOOL
              else if encoding =? DW_ATE_float then Some DRGN_TYPE_FLOAT
              else if (encoding =? DW_ATE_signed)
                      || (encoding =? DW_ATE_signed_char)
                      || (encoding =? DW_ATE_unsigned)
                      || (encoding =? DW_ATE_unsigned_char)
              then Some DRGN_TYPE_INT
              else if encoding =? DW_ATE_complex_float
              then Some DRGN_TYPE_COMPLEX
              else None
          | None => None
          end
      | None => None
      end
  | DW_TAG_structure_type => Some DRGN_TYPE_STRUCT
  | DW_TAG_union_type => Some DRGN_TYPE_UNION
  | DW_TAG_class_type => Some DRGN_TYPE_CLASS
  | DW_TAG_enumeration_type => Some DRGN_TYPE_ENUM
  | DW_TAG_typedef => Some DRGN_TYPE_TYPEDEF
  | DW_TAG_pointer_type => Some DRGN_TYPE_POINTER
  | DW_TAG_array_type => Some DRGN_TYPE_ARRAY
  | DW_TAG_subroutine_type | DW_TAG_subprogram => Some DRGN_TYPE_FUNCTION
  | _ => None
  end.

(** What a DW_TAG_enumerator DIE says: its name and the 64 bits of its
    DW_AT_const_value. *)
Definition enumerator_of (child : Dwarf_Die) : option drgn_type_enumerator :=
  match dwarf_diename child,
        dwarf_attr_integrate child DW_AT_const_value with
  | Some name, Some attr => mk_enumerator name <$> dwarf_formudata attr
  | _, _ => None
  end.

(** The DW_AT_const_value of the enumerator has a signed form and is
    negative. *)
Definition enumerator_is_negative (child : Dwarf_Die) : bool :=
  match dwarf_attr_integrate child DW_AT_const_value with
  | Some attr =>
      (is_DW_FORM_sdata attr || is_DW_FORM_implicit_const attr) &&
      match dwarf_formsdata attr with
      | Some svalue => svalue <? 0
      | None => false
      end
  | None => false
  end.

(** The DW_TAG_enumerator children of a DIE, in order. *)
Definition enumerator_children (die : Dwarf_Die) : list Dwarf_Die :=
  List.filter (fun child => bool_decide (dwarf_tag child = DW_TAG_enumerator))
    (die_children die).

(** The value of an enumerator as [drgn_object_from_dwarf_enumerator]
    returns it. *)
Definition enumerator_object (is_signed : bool)
    (qualified_type : drgn_qualified_type)
    (enumerator : drgn_type_enumerator) : drgn_object :=
  if is_signed then
    object_signed qualified_type (enumerator_svalue enumerator)
  else object_unsigned qualified_type (enumerator_uvalue enumerator).

(** The DW_TAG_formal_parameter children of a DIE, in order. *)
Definition formal_parameter_children (die : Dwarf_Die) : list Dwarf_Die :=
  List.filter
    (fun child => bool_decide (dwarf_tag child = DW_TAG_formal_parameter))
    (die_children die).

(** What a DW_TAG_formal_parameter or DW_TAG_member DIE says of its name:
    [None] if DW_AT_name is there and is not a string. *)
Definition optional_name (die : Dwarf_Die) : option (option string) :=
  match dwarf_attr_integrate die DW_AT_name with
  | Some attr => Some <$> dwarf_formstring attr
  | None => Some None
  end.

(** [children] has at most one DW_TAG_unspecified_parameters DIE, and no
    DW_TAG_formal_parameter DIE after it. *)
Fixpoint variadic_marker_is_last (children : list Dwarf_Die) : bool :=
  match children with
  | [] => true
  | child :: children =>
      if bool_decide (dwarf_tag child = DW_TAG_unspecified_parameters) then
        forallb
          (fun child =>
             negb (bool_decide (dwarf_tag child = DW_TAG_formal_parameter))
             && negb (bool_decide
                        (dwarf_tag child = DW_TAG_unspecified_parameters)))
          children
      else variadic_marker_is_last children
  end.

(** What a function type holds for the DW_TAG_formal_parameter DIE
    [child]: its name, and its type as the thunk
    [drgn_lazy_type_from_dwarf] made, not evaluated. *)
Definition parameter_of (img : debug_info) (child : Dwarf_Die)
    (parameter : drgn_type_parameter) : Prop :=
  optional_name child = Some (parameter_name parameter) ∧
  ∃ type_die,
    dwarf_type img child = Some (Some type_die) ∧
    parameter_type parameter = lazy_thunk type_die true.

(** What a compound holds for the DW_TAG_member DIE [child]: its name, and
    its type as the thunk [drgn_lazy_type_from_dwarf] made, not
    evaluated. *)
Definition lazy_member_of (img : debug_info) (child : Dwarf_Die)
    (member : drgn_type_member) : Prop :=
  optional_name child = Some (member_name member) ∧
  ∃ type_die can_be_incomplete_array,
    dwarf_type img child = Some (Some type_die) ∧
    member_type member = lazy_thunk type_die can_be_incomplete_array.

(** No error of [r] is the sentinel DRGN_ERROR_STOP. *)
Definition surfaced {A} (r : res A) : Prop :=
  ∀ e, r = Err e → error_code e ≠ DRGN_ERROR_STOP.

(** No call of [m] fails with DRGN_ERROR_STOP. *)
Definition no_stop {A} (m : M A) : Prop :=
  ∀ c e c', m c = (Err e, c') → error_code e ≠ DRGN_ERROR_STOP.

(** ** More sample debugging information *)

(** An enumeration with the DW_TAG_enumerator children
    [A = -1] (DW_FORM_sdata), [B = 2^64 - 1] (DW_FORM_udata). *)
Definition wide_enum_die : Dwarf_Die :=
  sample_die 30%N DW_TAG_enumeration_type
    [mk_attr DW_AT_name (DW_FORM_string "wide");
     mk_attr DW_AT_byte_size (DW_FORM_udata 8)]
    [sample_die 31%N DW_TAG_enumerator
       [mk_attr DW_AT_name (DW_FORM_string "A");
        mk_attr DW_AT_const_value (DW_FORM_sdata (-1))] [];
     sample_die 32%N DW_TAG_enumerator
       [mk_attr DW_AT_name (DW_FORM_string "B");
        mk_attr DW_AT_const_value (DW_FORM_udata UINT64_MAX)] []].

(** [int m[2][3]], the first dimension given by DW_AT_count and the second
    one by DW_AT_upper_bound. *)
Definition matrix_die : Dwarf_Die :=
  sample_die 40%N DW_TAG_array_type [mk_attr DW_AT_type (DW_FORM_ref 1%N)]
    [sample_die 41%N DW_TAG_subrange_type
       [mk_attr DW_AT_count (DW_FORM_udata 2)] [];
     sample_die 42%N DW_TAG_subrange_type
       [mk_attr DW_AT_upper_bound (DW_FORM_udata 2)] []].

(** [int (int n, ...)]. *)
Definition variadic_die : Dwarf_Die :=
  sample_die 43%N DW_TAG_subroutine_type
    [mk_attr DW_AT_type (DW_FORM_ref 1%N)]
    [sample_die 44%N DW_TAG_formal_parameter
       [mk_attr DW_AT_name (DW_FORM_string "n");
        mk_attr DW_AT_type (DW_FORM_ref 1%N)] [];
     sample_die 45%N DW_TAG_unspecified_parameters [] []].

(** [const volatile int] written both ways round: 50 is const of 51, which
    is volatile of [int]; 52 is volatile of 53, which is const of [int]. *)
Definition qualifier_dies : list Dwarf_Die :=
  [int_die;
   sample_die 50%N DW_TAG_const_type [mk_attr DW_AT_type (DW_FORM_ref 51%N)] [];
   sample_die 51%N DW_TAG_volatile_type
     [mk_attr DW_AT_type (DW_FORM_ref 1%N)] [];
   sample_die 52%N DW_TAG_volatile_type
     [mk_attr DW_AT_type (DW_FORM_ref 53%N)] [];
   sample_die 53%N DW_TAG_const_type [mk_attr DW_AT_type (DW_FORM_ref 1%N)] []].

Definition qualifier_image : debug_info :=
  {| die_at := fun a =>
       List.find (fun die => bool_decide (die_addr die = a)) qualifier_dies;
     index_hits := fun _ _ => [];
     index_fails := fun _ _ => false |}.

Definition qualifier_die (a : die_address) : Dwarf_Die :=
  default int_die (die_at qualifier_image a).

(** An index with the base types [int] and, under the same name, a
    boolean. *)
Definition int_bool_die : Dwarf_Die :=
  sample_die 60%N DW_TAG_base_type
    [mk_attr DW_AT_name (DW_FORM_string "int");
     mk_attr DW_AT_encoding (DW_FORM_udata DW_ATE_boolean);
     mk_attr DW_AT_byte_size (DW_FORM_udata 1)] [].

Definition base_image : debug_info :=
  {| die_at := fun _ => None;
     index_hits := fun name tag =>
       if bool_decide (name = "int") && bool_decide (tag = DW_TAG_base_type)
       then [(int_bool_die, 0); (int_die, 0)] else [];
     index_fails := fun _ _ => false |}.

(** A [die_matches_filename] for the examples: every DIE is of the file
    [a.c]. *)
Definition in_a_c (die : Dwarf_Die) (filename : option string) : bool :=
  match filename with
  | Some filename => bool_decide (filename = "a.c")
  | None => true
  end.

(** * Properties *)

(** ** What the decoders that touch no state can answer *)

Lemma benign_Ok {A} (a : A) : benign (Ok a).
Proof. split; [discriminate|intros e [=]]. Qed.

Lemma benign_other_error {A} msg : benign (other_error msg : res A).
Proof. split; [discriminate|intros e [= <-]; discriminate]. Qed.

Lemma benign_res_bind {A B} (r : res A) (k : A → res B) :
  benign r → (∀ a, benign (k a)) → benign (res_bind r k).
Proof.
  intros [Hf He] Hk. destruct r as [a|e|]; cbn [res_bind];
    [apply Hk| |done].
  split; [discriminate|]. intros e' [= <-]. now apply He.
Qed.

Ltac benign_tac :=
  repeat first
    [ progress (cbv beta iota zeta)
    | apply benign_Ok
    | apply benign_other_error
    | apply benign_res_bind; [|intros ?]
    | match goal with
      | |- benign (Err (drgn_error_create _ _)) =>
          split; [discriminate|intros ? [= <-]; discriminate]
      | |- benign (match ?e with _ => _ end) =>
          let E := fresh "E" in destruct e eqn:E
      end ].

Lemma drgn_language_from_die_benign die :
  benign (drgn_language_from_die die).
Proof.
  unfold drgn_language_from_die. benign_tac.
Qed.

Lemma drgn_program_word_size_benign p : benign (drgn_program_word_size p).
Proof. unfold drgn_program_word_size. benign_tac. Qed.

Lemma drgn_lazy_type_from_dwarf_benign img die cbia tag_name :
  benign (drgn_lazy_type_from_dwarf img die cbia tag_name).
Proof. unfold drgn_lazy_type_from_dwarf. benign_tac. Qed.

Lemma parse_enumerator_benign die builder is_signed :
  benign (parse_enumerator die builder is_signed).
Proof. unfold parse_enumerator. benign_tac. Qed.

Lemma subrange_length_benign die old : benign (subrange_length die old).
Proof. unfold subrange_length. benign_tac. Qed.

Lemma parse_formal_parameter_benign img die builder :
  benign (parse_formal_parameter img die builder).
Proof.
  unfold parse_formal_parameter. benign_tac.
  apply drgn_lazy_type_from_dwarf_benign.
Qed.

Lemma enum_children_loop_benign children builder is_signed :
  benign (enum_children_loop children builder is_signed).
Proof.
  revert builder is_signed.
  induction children as [|child children IH]; intros builder is_signed;
    cbn [enum_children_loop]; [apply benign_Ok|].
  destruct (bool_decide _); [|apply IH].
  apply benign_res_bind; [apply parse_enumerator_benign|].
  intros [b s]. apply IH.
Qed.

Lemma array_children_loop_benign children dimensions :
  benign (array_children_loop children dimensions).
Proof.
  revert dimensions.
  induction children as [|child children IH]; intros dimensions;
    cbn [array_children_loop]; [apply benign_Ok|].
  destruct (bool_decide _); [|apply IH].
  apply benign_res_bind; [apply subrange_length_benign|].
  intros d. apply IH.
Qed.

Lemma function_children_loop_benign img tag_name children builder
    is_variadic :
  benign (function_children_loop img tag_name children builder is_variadic).
Proof.
  revert builder is_variadic.
  induction children as [|child children IH]; intros builder is_variadic;
    cbn [function_children_loop]; [apply benign_Ok|].
  destruct (dwarf_tag child); try apply IH.
  - destruct is_variadic; [apply benign_other_error|].
    apply benign_res_bind; [apply parse_formal_parameter_benign|].
    intros b. apply IH.
  - destruct is_variadic; [apply benign_other_error|apply IH].
Qed.

Ltac benign_solve :=
  first
    [ apply drgn_language_from_die_benign
    | apply drgn_program_word_size_benign
    | apply drgn_lazy_type_from_dwarf_benign
    | apply enum_children_loop_benign
    | apply array_children_loop_benign
    | apply function_children_loop_benign
    | solve [benign_tac] ].

(** ** A Hoare rule for every function of the materializer

    The rules of [triple] and [sound], for any [pre], [R], [fuel_ok] and
    [err_ok] that fit.  They are instantiated below with the properties of
    the cache that calls preserve, with the absence of [OutOfFuel], and with
    the origin of DRGN_ERROR_RECURSION. *)

Section Hoare.

Variable img : debug_info.
Variable pre : drgn_dwarf_info_cache → Prop.
Variable R : drgn_dwarf_info_cache → drgn_dwarf_info_cache → Prop.
Variable fuel_ok : Prop.
Variable err_ok : drgn_error → Prop.

Hypothesis err_ok_code :
  ∀ e, error_code e ≠ DRGN_ERROR_RECURSION → err_ok e.
Hypothesis R_refl : ∀ c, R c c.
Hypothesis R_trans : ∀ a b c, R a b → R b c → R a c.
Hypothesis R_create : ∀ c t, R c (snd (drgn_type_create t c)).
Hypothesis pre_R : ∀ c c', pre c → R c c' → pre c'.

Local Abbreviation triple := (triple pre R fuel_ok err_ok).
Local Abbreviation sound := (sound pre R fuel_ok err_ok).

Lemma triple_weaken {A} (m : M A) (Q Q' : A → Prop) :
  triple m Q → (∀ a, Q a → Q' a) → triple m Q'.
Proof.
  intros Hm HQ c r c' Hpre E.
  destruct (Hm _ _ _ Hpre E) as (? & ? & ? & ?). repeat split; auto.
Qed.

Lemma triple_lift {A} (r : res A) (Q : A → Prop) :
  benign r → (∀ a, r = Ok a → Q a) → triple (lift r) Q.
Proof.
  intros [Hf He] HQ c r' c' _ [= <- <-]. repeat split; auto. done.
Qed.

Lemma triple_bind {A B} (m : M A) (k : A → M B) (Q : A → Prop)
    (Q' : B → Prop) :
  triple m Q → (∀ a, Q a → triple (k a) Q') → triple (bind m k) Q'.
Proof.
  intros Hm Hk c r c' Hpre. unfold bind.
  destruct (m c) as [[a|e|] c1] eqn:E;
    destruct (Hm _ _ _ Hpre E) as (HR & Hf & He & HQ).
  - intros Hka.
    destruct (Hk a (HQ _ eq_refl) c1 r c' (pre_R _ _ Hpre HR) Hka)
      as (? & ? & ? & ?).
    repeat split; eauto.
  - intros [= <- <-].
    repeat split; [done|discriminate|intros ? [= <-]; auto|discriminate].
  - intros [= <- <-]. repeat split; [done|auto|discriminate|discriminate].
Qed.

Lemma sound_ret {A} (a : A) : sound (ret a).
Proof.
  intros c r c' _ [= <- <-].
  repeat split; [apply R_refl|discriminate|discriminate].
Qed.

Lemma sound_lift {A} (r : res A) : benign r → sound (lift r).
Proof. intros. now apply triple_lift. Qed.

Lemma sound_fail {A} (e : drgn_error) :
  error_code e ≠ DRGN_ERROR_RECURSION → sound (fail e : M A).
Proof.
  intros He. apply sound_lift. split; [discriminate|]. now intros e' [= <-].
Qed.

Lemma sound_gets {A} (f : drgn_dwarf_info_cache → A) : sound (gets f).
Proof.
  intros c r c' _ [= <- <-].
  repeat split; [apply R_refl|discriminate|discriminate].
Qed.

Lemma sound_create t : sound (drgn_type_create t).
Proof.
  intros c r c' _ [= <- <-].
  repeat split; [apply R_create|discriminate|discriminate].
Qed.

Lemma sound_bind {A B} (m : M A) (k : A → M B) :
  sound m → (∀ a, sound (k a)) → sound (bind m k).
Proof.
  intros Hm Hk.
  apply (triple_bind m k (fun _ => True)); [exact Hm|intros a _; apply Hk].
Qed.

Lemma sound_unless_stop {A} (m k : M A) :
  sound m → sound k → sound (unless_stop m k).
Proof.
  intros Hm Hk c r c' Hpre. unfold unless_stop.
  destruct (m c) as [[a|e|] c1] eqn:E;
    destruct (Hm _ _ _ Hpre E) as (HR & Hf & He & _).
  - intros [= <- <-]. repeat split; [done|discriminate|discriminate].
  - destruct (bool_decide _).
    + intros Hkc.
      destruct (Hk c1 r c' (pre_R _ _ Hpre HR) Hkc) as (? & ? & ? & ?).
      repeat split; eauto.
    + intros [= <- <-].
      repeat split; [done|discriminate|intros ? [= <-]; auto].
  - intros [= <- <-]. repeat split; [done|auto|discriminate].
Qed.

(** The DIEs [rec] may be called on, and what is known of [rec] there. *)
Variable P : Dwarf_Die → Prop.
Variable rec : resolver.
Hypothesis rec_sound : ∀ die cbia iia, P die → sound (rec die cbia iia).

Local Abbreviation member_ok := (member_ok img P).

Ltac sound_tac :=
  repeat first
    [ progress (cbv beta iota zeta)
    | match goal with
      | |- triple ?m (fun _ => True) => change (sound m)
      | |- sound (ret _) => apply sound_ret
      | |- sound (fail _) => apply sound_fail; discriminate
      | |- sound (gets _) => apply sound_gets
      | |- sound (drgn_type_create _) => apply sound_create
      | |- sound (lift _) => apply sound_lift; benign_solve
      | |- sound (bind _ _) => apply sound_bind; [|intros ?]
      | |- sound (unless_stop _ _) => apply sound_unless_stop
      | |- sound (match ?e with _ => _ end) =>
          let E := fresh "E" in destruct e eqn:E
      end ].

Lemma sound_drgn_type_from_dwarf die :
  P die → sound (drgn_type_from_dwarf rec die).
Proof. intros. unfold drgn_type_from_dwarf. sound_tac. now apply rec_sound. Qed.

Lemma sound_drgn_lazy_type_evaluate lazy_type :
  (∀ die cbia, lazy_type = lazy_thunk die cbia → P die) →
  sound (drgn_lazy_type_evaluate rec lazy_type).
Proof.
  intros HP. unfold drgn_lazy_type_evaluate,
    drgn_type_from_dwarf_thunk_evaluate_fn.
  destruct lazy_type; sound_tac. apply rec_sound. eauto.
Qed.

Lemma sound_drgn_type_from_dwarf_child die parent_lang tag_name can_be_void
    cbia iia :
  (∀ E, dwarf_type img die = Some (Some E) → P E) →
  sound (drgn_type_from_dwarf_child img rec die parent_lang tag_name
           can_be_void cbia iia).
Proof.
  intros HP. unfold drgn_type_from_dwarf_child, dwarf_type in *.
  destruct (dwarf_attr_integrate die DW_AT_type) as [attr|].
  - destruct (dwarf_formref_die img attr) as [E|]; sound_tac.
    apply rec_sound. auto.
  - sound_tac.
Qed.

Lemma sound_drgn_base_type_from_dwarf die lang :
  (∀ E, dwarf_type img die = Some (Some E) → P E) →
  sound (drgn_base_type_from_dwarf img rec die lang).
Proof.
  intros HP. unfold drgn_base_type_from_dwarf. sound_tac.
  apply sound_drgn_type_from_dwarf. auto.
Qed.

Lemma sound_drgn_dwarf_info_cache_find_complete tag name :
  (∀ E bias, index_hits img name tag = [(E, bias)] → P E) →
  sound (drgn_dwarf_info_cache_find_complete img rec tag name).
Proof.
  intros HP. unfold drgn_dwarf_info_cache_find_complete.
  destruct (index_fails img name tag) eqn:Efails,
    (index_hits img name tag) as [|[E bias] [|hit rest]] eqn:Ehits;
    cbv beta iota zeta
      delta [drgn_dwarf_index_iterator_next drgn_dwarf_index_iterator_init
             it_hits it_end];
    rewrite ?Efails, ?Ehits; cbv beta iota; sound_tac.
  all: apply sound_drgn_type_from_dwarf; eauto.
Qed.

Lemma sound_parse_member_offset die member_type bit_field_size
    little_endian :
  (∀ E cbia, member_type = lazy_thunk E cbia →
             little_endian = true →
             member_type_is_read die = true → P E) →
  sound (parse_member_offset rec die member_type bit_field_size
           little_endian).
Proof.
  intros HP. unfold parse_member_offset. sound_tac.
  apply sound_drgn_lazy_type_evaluate. intros E' cbia ->.
  apply (HP _ cbia eq_refl); [reflexivity|]. unfold member_type_is_read.
  repeat match goal with H : dwarf_attr_integrate _ _ = _ |- _ =>
    rewrite H; clear H end.
  reflexivity.
Qed.

Lemma sound_parse_member die little_endian cbia builder :
  member_ok little_endian die →
  sound (parse_member img rec die little_endian cbia builder).
Proof.
  intros HP. unfold parse_member.
  apply sound_bind; [sound_tac|intros name].
  apply sound_bind; [sound_tac|intros bit_field_size].
  apply (triple_bind _ _
           (fun t => ∀ E c, t = lazy_thunk E c →
                            dwarf_type img die = Some (Some E))).
  - apply triple_lift; [benign_solve|].
    intros t Ht E c ->. revert Ht.
    unfold drgn_lazy_type_from_dwarf, dwarf_type.
    destruct (dwarf_attr_integrate die DW_AT_type) as [attr|];
      [|discriminate].
    destruct (dwarf_formref_die img attr); [|discriminate].
    now intros [= ->].
  - intros member_type Hm. sound_tac.
    apply sound_parse_member_offset. intros E c -> Hle Hread.
    apply HP; eauto.
Qed.

Lemma triple_compound_children_loop little_endian children member builder :
  (∀ m, In m children → dwarf_tag m = DW_TAG_member →
        member_ok little_endian m) →
  (∀ m, member = Some m → member_ok little_endian m) →
  triple (compound_children_loop img rec little_endian children member
            builder)
         (fun r => ∀ m, fst r = Some m → member_ok little_endian m).
Proof.
  revert member builder.
  induction children as [|child children IH]; intros member builder Hc Hm;
    cbn [compound_children_loop].
  - intros c r c' _ [= <- <-].
    repeat split; [apply R_refl|discriminate|discriminate|].
    intros a [= <-]. exact Hm.
  - destruct (bool_decide (dwarf_tag child = DW_TAG_member)) eqn:Etag.
    + apply bool_decide_eq_true in Etag.
      apply (triple_bind _ _ (fun _ => True)).
      * destruct member as [m|]; [|apply sound_ret].
        apply sound_parse_member. now apply Hm.
      * intros b _. apply IH.
        -- intros m Hin. apply Hc. now right.
        -- intros m [= <-]. apply Hc; [now left|done].
    + apply IH; [|done]. intros m Hin. apply Hc. now right.
Qed.

Lemma sound_drgn_compound_type_from_dwarf_complete die lang kind
    dw_tag_str tag :
  (∀ m, In m (die_children die) → dwarf_tag m = DW_TAG_member →
        member_ok (die_elf_lsb die) m) →
  sound (drgn_compound_type_from_dwarf_complete img rec die lang kind
           dw_tag_str tag).
Proof.
  intros Hmem. unfold drgn_compound_type_from_dwarf_complete.
  change (match dwarf_die_is_little_endian die false with
          | Ok little_endian => little_endian
          | _ => false
          end) with (die_elf_lsb die).
  cbv zeta.
  destruct (dwarf_bytesize die =? -1); [sound_tac|].
  eapply triple_bind.
  - apply triple_compound_children_loop; [exact Hmem|discriminate].
  - intros [member builder] Hm. cbn [fst] in Hm.
    destruct (die_children_error die); [sound_tac|].
    apply sound_bind; [|intros ?; sound_tac].
    destruct member as [m|]; [|sound_tac].
    apply sound_parse_member. now apply Hm.
Qed.

Lemma sound_drgn_compound_type_from_dwarf die lang kind :
  (∀ name dw_tag_str dw_tag E bias,
     compound_dw_tag kind = Some (dw_tag_str, dw_tag) →
     dwarf_flag die DW_AT_declaration = Some true →
     dwarf_diename die = Some name →
     index_hits img name dw_tag = [(E, bias)] → P E) →
  (∀ m, In m (die_children die) → dwarf_tag m = DW_TAG_member →
        member_ok (die_elf_lsb die) m) →
  sound (drgn_compound_type_from_dwarf img rec die lang kind).
Proof.
  intros Hidx Hmem. unfold drgn_compound_type_from_dwarf.
  destruct (compound_dw_tag kind) as [[dw_tag_str dw_tag]|] eqn:Ekind;
    [|sound_tac].
  apply (triple_bind _ _
           (fun tag => ∀ t, tag = Some t → dwarf_diename die = Some t)).
  { apply triple_lift; [benign_solve|]. intros a Ha t ->. revert Ha.
    unfold dwarf_diename.
    destruct (dwarf_attr_integrate die DW_AT_name) as [attr|];
      [|discriminate].
    destruct (dwarf_formstring attr); [|discriminate]. now intros [= ->]. }
  intros tag Htag.
  destruct (dwarf_flag die DW_AT_declaration) as [declaration|] eqn:Edecl;
    [|sound_tac].
  cbv zeta.
  destruct declaration.
  - destruct tag as [tag|]; [|sound_tac].
    apply sound_unless_stop; [|sound_tac].
    apply sound_drgn_dwarf_info_cache_find_complete.
    intros E bias Hhits. eapply Hidx; eauto.
  - destruct tag;
      now apply sound_drgn_compound_type_from_dwarf_complete.
Qed.

Lemma sound_drgn_enum_type_from_dwarf die lang :
  (∀ E, dwarf_type img die = Some (Some E) → P E) →
  (∀ name E bias,
     dwarf_flag die DW_AT_declaration = Some true →
     dwarf_diename die = Some name →
     index_hits img name DW_TAG_enumeration_type = [(E, bias)] → P E) →
  sound (drgn_enum_type_from_dwarf img rec die lang).
Proof.
  intros Htype Hidx. unfold drgn_enum_type_from_dwarf.
  apply (triple_bind _ _
           (fun tag => ∀ t, tag = Some t → dwarf_diename die = Some t)).
  { apply triple_lift; [benign_solve|]. intros a Ha t ->. revert Ha.
    unfold dwarf_diename.
    destruct (dwarf_attr_integrate die DW_AT_name) as [attr|];
      [|discriminate].
    destruct (dwarf_formstring attr); [|discriminate]. now intros [= ->]. }
  intros tag Htag.
  destruct (dwarf_flag die DW_AT_declaration) as [declaration|] eqn:Edecl;
    [|sound_tac].
  cbv zeta.
  assert (Hrest : ∀ m : M type_handle, sound m → sound
    (match declaration, tag with
     | true, Some tag =>
         unless_stop
           (drgn_dwarf_info_cache_find_complete img rec
              DW_TAG_enumeration_type tag) m
     | _, _ => m
     end)).
  { intros m Hm. destruct declaration, tag as [t|]; try done.
    apply sound_unless_stop; [|done].
    apply sound_drgn_dwarf_info_cache_find_complete. eauto. }
  apply Hrest. unfold enum_compatible_type_fallback.
  sound_tac. apply sound_drgn_type_from_dwarf. auto.
Qed.

Lemma sound_drgn_typedef_type_from_dwarf die lang cbia iia :
  (∀ E, dwarf_type img die = Some (Some E) → P E) →
  sound (drgn_typedef_type_from_dwarf img rec die lang cbia iia).
Proof.
  intros HP. unfold drgn_typedef_type_from_dwarf. sound_tac.
  now apply sound_drgn_type_from_dwarf_child.
Qed.

Lemma sound_drgn_pointer_type_from_dwarf die lang :
  (∀ E, dwarf_type img die = Some (Some E) → P E) →
  sound (drgn_pointer_type_from_dwarf img rec die lang).
Proof.
  intros HP. unfold drgn_pointer_type_from_dwarf. sound_tac.
  now apply sound_drgn_type_from_dwarf_child.
Qed.

Lemma sound_array_type_loop lang cbia dimension dimensions element_type :
  sound (array_type_loop lang cbia dimension dimensions element_type).
Proof.
  revert dimension element_type.
  induction dimensions as [|d dimensions IH]; intros dimension element_type;
    cbn [array_type_loop]; sound_tac.
  apply IH.
Qed.

Lemma sound_drgn_array_type_from_dwarf die lang cbia :
  (∀ E, dwarf_type img die = Some (Some E) → P E) →
  sound (drgn_array_type_from_dwarf img rec die lang cbia).
Proof.
  intros HP. unfold drgn_array_type_from_dwarf. sound_tac;
    first [now apply sound_drgn_type_from_dwarf_child
          |apply sound_array_type_loop].
Qed.

Lemma sound_drgn_function_type_from_dwarf die lang :
  (∀ E, dwarf_type img die = Some (Some E) → P E) →
  sound (drgn_function_type_from_dwarf img rec die lang).
Proof.
  intros HP. unfold drgn_function_type_from_dwarf. sound_tac.
  now apply sound_drgn_type_from_dwarf_child.
Qed.

Lemma sound_qualifier_type_from_dwarf die lang tag_name qualifier :
  (∀ E, dwarf_type img die = Some (Some E) → P E) →
  sound (qualifier_type_from_dwarf img rec die lang tag_name qualifier).
Proof.
  intros HP. unfold qualifier_type_from_dwarf. sound_tac.
  now apply sound_drgn_type_from_dwarf_child.
Qed.

Lemma sound_unqualified {A} (m : M type_handle) (k : type_handle → A) :
  sound m → sound (unqualified m k).
Proof. intros Hm. unfold unqualified. sound_tac. exact Hm. Qed.

Lemma sound_dispatch die lang cbia :
  (∀ E, dep img die E → P E) →
  sound (dispatch img rec die lang cbia).
Proof.
  intros HP.
  assert (Htype : ∀ E, dwarf_type img die = Some (Some E) → P E).
  { intros E HE. apply HP. now apply dep_type. }
  assert (Hmem : ∀ m, In m (die_children die) →
                      dwarf_tag m = DW_TAG_member →
                      member_ok (die_elf_lsb die) m).
  { intros m Hin Htag E Hle Hread HE. apply HP.
    now apply (dep_member _ _ m). }
  unfold dispatch. cbv zeta.
  destruct (dwarf_tag die) eqn:Etag;
    first
      [ now apply sound_qualifier_type_from_dwarf
      | apply sound_unqualified;
        first
          [ now apply sound_drgn_base_type_from_dwarf
          | now apply sound_drgn_pointer_type_from_dwarf
          | now apply sound_drgn_function_type_from_dwarf
          | apply sound_drgn_enum_type_from_dwarf; [done|];
            intros name E bias Hdecl Hname Hhits; apply HP;
            apply (dep_complete _ _ name E bias); [done|done|];
            now rewrite Etag
          | apply sound_drgn_compound_type_from_dwarf; [|done];
            intros name dw_tag_str dw_tag E bias [= <- <-] Hdecl Hname Hhits;
            apply HP; apply (dep_complete _ _ name E bias); [done|done|];
            now rewrite Etag ]
      | sound_tac;
        first [ now apply sound_drgn_typedef_type_from_dwarf
              | now apply sound_drgn_array_type_from_dwarf ]
      | sound_tac ].
Qed.

End Hoare.

Lemma untouched_refl K c : untouched K c c.
Proof. split; [done|]. intros; split; done. Qed.

Lemma untouched_trans K a b c :
  untouched K a b → untouched K b c → untouched K a c.
Proof.
  intros [Hd1 H1] [Hd2 H2]. split; [congruence|].
  intros k Hk. destruct (H1 k Hk), (H2 k Hk). split; congruence.
Qed.

Lemma untouched_prog K c p : untouched K c (set_prog p c).
Proof. split; [done|]. intros; split; done. Qed.

Lemma untouched_create K c t : untouched K c (snd (drgn_type_create t c)).
Proof. apply untouched_prog. Qed.

Lemma insert_searched_depth restricted key value c :
  depth (snd (dwarf_type_map_insert_searched restricted key value c))
  = depth c.
Proof.
  unfold dwarf_type_map_insert_searched.
  destruct (hd false (insert_enomem c)), restricted; reflexivity.
Qed.

Lemma insert_searched_other restricted key value c a :
  a ≠ key →
  let c' := snd (dwarf_type_map_insert_searched restricted key value c) in
  map c' !! a = map c !! a ∧
  cant_be_incomplete_array_map c' !! a
  = cant_be_incomplete_array_map c !! a.
Proof.
  intros Hne. unfold dwarf_type_map_insert_searched.
  destruct (hd false (insert_enomem c)), restricted; cbn;
    rewrite ?lookup_insert_ne; auto.
Qed.

Section Frame.

Variable img : debug_info.
Variable K : Dwarf_Die → Prop.
Hypothesis K_closed : ∀ X E, K X → dep img X E → K E.

Lemma resolve_fuel_untouched fuel die cbia iia :
  K die →
  sound (fun _ => True) (untouched K) True (fun _ => True)
    (resolve_fuel img fuel die cbia iia).
Proof.
  revert die cbia iia.
  induction fuel as [|fuel IH]; intros die cbia iia HK c r c' _;
    cbn [resolve_fuel].
  { intros [= <- <-]. split; [apply untouched_refl|done]. }
  unfold drgn_type_from_dwarf_internal_body. cbv beta zeta.
  destruct (1000 <=? depth c)%nat.
  { intros [= <- <-]. split; [apply untouched_refl|done]. }
  destruct (dwarf_type_map_search c (die_addr die) cbia).
  { intros [= <- <-]. split; [apply untouched_refl|done]. }
  destruct (drgn_language_from_die die) as [lang|e|].
  2,3: intros [= <- <-]; (split; [apply untouched_refl|done]).
  destruct (dispatch img (resolve_fuel img fuel) die lang cbia
              (set_depth (S (depth c)) c)) as [r1 c1] eqn:Edisp.
  assert (Hu : untouched K (set_depth (S (depth c)) c) c1).
  { eapply (sound_dispatch img (fun _ => True) (untouched K) True
              (fun _ => True));
      eauto using untouched_refl, untouched_trans, untouched_create. }
  destruct Hu as [Hd Hm]. cbn [depth set_depth] in Hd.
  assert (Hu' : untouched K c (set_depth (Nat.pred (depth c1)) c1)).
  { split; [cbn; now rewrite Hd|]. intros a Ha. apply (Hm a Ha). }
  destruct r1 as [[ret0 is_incomplete_array]|e|].
  2,3: intros [= <- <-]; (split; [exact Hu'|done]).
  destruct (dwarf_type_map_insert_searched _ _ _ _) as [inserted c2] eqn:Eins.
  assert (Hu2 : untouched K c c2).
  { apply (untouched_trans _ _ _ _ Hu'). split.
    - pose proof (insert_searched_depth
        (negb cbia && is_incomplete_array) (die_addr die)
        {| value_type := type ret0; value_qualifiers := qualifiers ret0;
           value_is_incomplete_array := is_incomplete_array |}
        (set_depth (Nat.pred (depth c1)) c1)) as H.
      now rewrite Eins in H.
    - intros a Ha.
      pose proof (insert_searched_other
        (negb cbia && is_incomplete_array) (die_addr die)
        {| value_type := type ret0; value_qualifiers := qualifiers ret0;
           value_is_incomplete_array := is_incomplete_array |}
        (set_depth (Nat.pred (depth c1)) c1) a) as H.
      rewrite Eins in H. apply H. intros ->. now apply (Ha die). }
  destruct inserted; intros [= <- <-]; (split; [exact Hu2|done]).
Qed.

End Frame.

Lemma resolve_fuel_depth img fuel die cbia iia c r c' :
  resolve_fuel img fuel die cbia iia c = (r, c') → depth c' = depth c.
Proof.
  intros H.
  destruct (resolve_fuel_untouched img (fun _ => True) (fun _ _ _ _ => I)
              fuel die cbia iia I c r c' I H) as [[Hd _] _].
  exact Hd.
Qed.

Lemma dispatch_untouched img K fuel die lang cbia c r c' :
  (∀ X E, K X → dep img X E → K E) →
  (∀ E, dep img die E → K E) →
  dispatch img (resolve_fuel img fuel) die lang cbia c = (r, c') →
  untouched K c c'.
Proof.
  intros Hclosed HK H.
  eapply (sound_dispatch img (fun _ => True) (untouched K) True
            (fun _ => True));
    eauto using untouched_refl, untouched_trans, untouched_create.
  intros. now apply resolve_fuel_untouched.
Qed.

Lemma dispatch_depth img fuel die lang cbia c r c' :
  dispatch img (resolve_fuel img fuel) die lang cbia c = (r, c') →
  depth c' = depth c.
Proof.
  intros H.
  now destruct (dispatch_untouched img (fun _ => True) fuel die lang cbia
                  c r c' (fun _ _ _ _ => I) (fun _ _ => I) H).
Qed.


Lemma resolve_fuel_S img fuel :
  resolve_fuel img (S fuel)
  = drgn_type_from_dwarf_internal_body img (resolve_fuel img fuel).
Proof. reflexivity. Qed.

Lemma pair_eq_inv {A B} (a a' : A) (b b' : B) :
  (a, b) = (a', b') → a' = a ∧ b' = b.
Proof. now intros [= -> ->]. Qed.

(** ** The bound on the recursion is never what stops a call *)

Lemma resolve_fuel_enough img fuel :
  ∀ d die cbia iia, (1000 ≤ fuel + d)%nat →
    sound (fun c => depth c = d) same_depth False (fun _ => True)
      (resolve_fuel img (S fuel) die cbia iia).
Proof.
  induction fuel as [|fuel IH]; intros d die cbia iia Hd c r c' Hpre;
    rewrite resolve_fuel_S; unfold drgn_type_from_dwarf_internal_body;
    cbv beta zeta.
  - destruct (1000 <=? depth c)%nat eqn:Eguard;
      [|apply Nat.leb_gt in Eguard; lia].
    intros Hr; apply pair_eq_inv in Hr as [-> ->]. split; [done|split; [discriminate|done]].
  - destruct (1000 <=? depth c)%nat eqn:Eguard.
    { intros Hr; apply pair_eq_inv in Hr as [-> ->]. split; [done|split; [discriminate|done]]. }
    apply Nat.leb_gt in Eguard.
    destruct (dwarf_type_map_search c (die_addr die) cbia).
    { intros Hr; apply pair_eq_inv in Hr as [-> ->]. split; [done|split; [discriminate|done]]. }
    destruct (drgn_language_from_die die) as [lang|e|] eqn:Elang.
    2: intros Hr; apply pair_eq_inv in Hr as [-> ->]; (split; [done|split; [discriminate|done]]).
    2: now apply drgn_language_from_die_benign in Elang.
    destruct (dispatch img (resolve_fuel img (S fuel)) die lang cbia
                (set_depth (S (depth c)) c)) as [r1 c1] eqn:Edisp.
    assert (Hs : same_depth (set_depth (S (depth c)) c) c1
                 ∧ (r1 = OutOfFuel → False)).
    { destruct (sound_dispatch img (fun c => depth c = S d) same_depth False
                  (fun _ => True) ltac:(done)
                  ltac:(done) ltac:(unfold same_depth; congruence)
                  ltac:(done) ltac:(unfold same_depth; congruence)
                  (fun _ => True) (resolve_fuel img (S fuel))
                  ltac:(intros; apply IH; lia)
                  die lang cbia (fun _ _ => I)
                  (set_depth (S (depth c)) c) r1 c1
                  ltac:(cbn; congruence) Edisp) as (? & ? & _ & _).
      done. }
    destruct Hs as [Hsd Hf]. unfold same_depth in Hsd.
    cbn [depth set_depth] in Hsd.
    destruct r1 as [[ret0 is_incomplete_array]|e|]; [| |done].
    2: { intros Hr; apply pair_eq_inv in Hr as [-> ->].
         split; [unfold same_depth; cbn [depth set_depth]; lia|].
         split; [discriminate|done]. }
    destruct (dwarf_type_map_insert_searched _ _ _ _) as [inserted c2] eqn:Eins.
    pose proof (insert_searched_depth
      (negb cbia && is_incomplete_array) (die_addr die)
      {| value_type := type ret0; value_qualifiers := qualifiers ret0;
         value_is_incomplete_array := is_incomplete_array |}
      (set_depth (Nat.pred (depth c1)) c1)) as H.
    rewrite Eins in H. cbn [snd depth set_depth] in H.
    destruct inserted; intros Hr; apply pair_eq_inv in Hr as [-> ->];
      (split; [unfold same_depth; lia|split; [discriminate|done]]).
Qed.

(** A call of [drgn_type_from_dwarf_internal] is one run of its body, the
    nested calls having the levels that are left. *)
Lemma drgn_type_from_dwarf_internal_unfold img die cbia iia c :
  drgn_type_from_dwarf_internal img die cbia iia c
  = drgn_type_from_dwarf_internal_body img
      (resolve_fuel img (1000 - depth c)) die cbia iia c.
Proof. reflexivity. Qed.

(** The nested calls are calls of [drgn_type_from_dwarf_internal]. *)
Lemma resolve_fuel_nested img die cbia iia c d :
  (d < 1000)%nat → depth c = S d →
  resolve_fuel img (1000 - d) die cbia iia c
  = drgn_type_from_dwarf_internal img die cbia iia c.
Proof.
  intros Hd Hc. unfold drgn_type_from_dwarf_internal. rewrite Hc.
  now replace (1000 - d)%nat with (S (1000 - S d)) by lia.
Qed.

Theorem drgn_type_from_dwarf_internal_total img die cbia iia c :
  fst (drgn_type_from_dwarf_internal img die cbia iia c) ≠ OutOfFuel.
Proof.
  unfold drgn_type_from_dwarf_internal.
  destruct (resolve_fuel img (S (1000 - depth c)) die cbia iia c)
    as [r c'] eqn:E.
  destruct (resolve_fuel_enough img (1000 - depth c) (depth c) die cbia iia
              ltac:(lia) c r c' eq_refl E) as (_ & Hf & _ & _).
  exact Hf.
Qed.

Lemma drgn_type_from_dwarf_internal_depth img die cbia iia c r c' :
  drgn_type_from_dwarf_internal img die cbia iia c = (r, c') →
  depth c' = depth c.
Proof. apply resolve_fuel_depth. Qed.

(** * The specification, property by property *)

Lemma dwarf_type_map_search_true c key :
  dwarf_type_map_search c key true = map c !! key.
Proof. unfold dwarf_type_map_search. now destruct (map c !! key). Qed.

(** C1.  Two successive calls of [drgn_type_from_dwarf_internal] on the
    same DIE with [can_be_incomplete_array = true] return the same type
    descriptor and the same qualifiers: after the first call the primary
    map holds them under the address of the DIE, and the second call
    answers from that entry without changing the cache (and without
    writing to its out-parameter). *)
Theorem memo_equivalence img die iia c qualified_type iia' c1 :
  drgn_type_from_dwarf_internal img die true iia c
  = (Ok (qualified_type, iia'), c1) →
  (∃ value,
     map c1 !! die_addr die = Some value ∧
     value_type value = type qualified_type ∧
     value_qualifiers value = qualifiers qualified_type) ∧
  ∀ iia2,
    drgn_type_from_dwarf_internal img die true iia2 c1
    = (Ok (qualified_type, iia2), c1).
Proof.
  intros H.
  assert (Hdepth : depth c1 = depth c)
    by apply (drgn_type_from_dwarf_internal_depth _ _ _ _ _ _ _ H).
  rewrite drgn_type_from_dwarf_internal_unfold in H.
  unfold drgn_type_from_dwarf_internal_body in H. cbv beta zeta in H.
  destruct (1000 <=? depth c)%nat eqn:Eguard; [discriminate|].
  assert (Hentry : ∃ value,
     map c1 !! die_addr die = Some value ∧
     value_type value = type qualified_type ∧
     value_qualifiers value = qualifiers qualified_type).
  { rewrite dwarf_type_map_search_true in H.
    destruct (map c !! die_addr die) as [value|] eqn:Ehit.
    - apply pair_eq_inv in H as [[= -> ->] ->]. now exists value.
    - destruct (drgn_language_from_die die) as [lang| |]; try discriminate.
      destruct (dispatch _ _ _ _ _ _) as [[[ret0 is_incomplete_array]| |] cd];
        try discriminate.
      unfold dwarf_type_map_insert_searched in H. cbn [negb andb] in H.
      destruct (hd false _); [discriminate|].
      apply pair_eq_inv in H as [[= -> ->] ->]. cbn [map set_maps].
      rewrite lookup_insert_eq. now eexists. }
  split; [exact Hentry|].
  intros iia2. destruct Hentry as (value & Hvalue & Htype & Hqual).
  rewrite drgn_type_from_dwarf_internal_unfold.
  unfold drgn_type_from_dwarf_internal_body. cbv beta zeta.
  rewrite Hdepth, Eguard, dwarf_type_map_search_true, Hvalue.
  destruct qualified_type as [t q]. cbn in Htype, Hqual. now subst.
Qed.

Lemma memo_equivalence_witness :
  drgn_type_from_dwarf_internal sample_image incomplete_array_die true None
    empty_cache
  = (Ok ({| type := created_type 1; qualifiers := 0 |}, None),
     snd (drgn_type_from_dwarf_internal sample_image incomplete_array_die
            true None empty_cache)) ∧
  drgn_type_from_dwarf_internal sample_image incomplete_array_die true
    (Some false)
    (snd (drgn_type_from_dwarf_internal sample_image incomplete_array_die
            true None empty_cache))
  = (Ok ({| type := created_type 1; qualifiers := 0 |}, Some false),
     snd (drgn_type_from_dwarf_internal sample_image incomplete_array_die
            true None empty_cache)).
Proof.
  assert (H : drgn_type_from_dwarf_internal sample_image
                incomplete_array_die true None empty_cache
              = (Ok ({| type := created_type 1; qualifiers := 0 |}, None),
                 snd (drgn_type_from_dwarf_internal sample_image
                        incomplete_array_die true None empty_cache)))
    by (vm_compute; reflexivity).
  split; [exact H|].
  exact (proj2 (memo_equivalence _ _ _ _ _ _ _ H) (Some false)).
Defined.

(** C2.  The specification has every call with
    [can_be_incomplete_array = false] that follows a call reporting
    [is_incomplete_array = true] report it as well.  The code does not: on
    [int []], the first such call materializes the array of length 0 and
    reports [true]; the next one is answered from
    [cant_be_incomplete_array_map] and returns without writing to
    [*is_incomplete_array_ret], which keeps the [false] its caller put
    there. *)
Theorem restricted_hit_leaves_out_parameter :
  let call cbia :=
    drgn_type_from_dwarf_internal sample_image incomplete_array_die cbia
      (Some false) in
  let r1 := call true empty_cache in
  let r2 := call false (snd r1) in
  let r3 := call false (snd r2) in
  fst r1 = Ok ({| type := created_type 1; qualifiers := 0 |}, Some true) ∧
  fst r2 = Ok ({| type := created_type 2; qualifiers := 0 |}, Some true) ∧
  outermost_array_length (prog (snd r2)) 8 (created_type 2) = Some (Some 0) ∧
  fst r3 = Ok ({| type := created_type 2; qualifiers := 0 |}, Some false) ∧
  outermost_array_length (prog (snd r3)) 8 (created_type 2) = Some (Some 0).
Proof. vm_compute. repeat split. Qed.

(** The same defect through the one caller in the source that passes an
    out-pointer, [drgn_typedef_type_from_dwarf]: a typedef of [int []]
    resolved once the array is in the primary map is recorded as not being
    an incomplete array, and a later call that cannot take an incomplete
    array gets one. *)
Lemma typedef_of_memoized_array_is_misreported :
  let resolve die cbia :=
    drgn_type_from_dwarf_internal sample_image die cbia (Some false) in
  let r1 := resolve incomplete_array_die true empty_cache in
  let r2 := resolve typedef_array_die true (snd r1) in
  let r3 := resolve typedef_array_die false (snd r2) in
  fst r1 = Ok ({| type := created_type 1; qualifiers := 0 |}, Some true) ∧
  fst r2 = Ok ({| type := created_type 2; qualifiers := 0 |}, Some false) ∧
  fst r3 = Ok ({| type := created_type 2; qualifiers := 0 |}, Some false) ∧
  outermost_array_length (prog (snd r3)) 8 (created_type 2) = Some None.
Proof. vm_compute. repeat split. Qed.


(** Debugging information whose eagerly followed references go down a
    rank that DIEs of one address share has no DIE on a cycle. *)
Lemma ranked_not_on_a_cycle img (rank : Dwarf_Die → nat) :
  (∀ X Y, dep img X Y → (rank Y < rank X)%nat) →
  (∀ X Y, die_addr X = die_addr Y → rank X = rank Y) →
  ∀ die, not_on_a_cycle img die.
Proof.
  intros Hdep Haddr die X H.
  assert (Hlt : (rank X < rank die)%nat).
  { induction H as [x y H|x y z H _ IH]; [now apply Hdep|].
    apply Hdep in H. lia. }
  intros Heq. apply Haddr in Heq. lia.
Qed.

Lemma dep_int_die E : ¬ dep sample_image int_die E.
Proof.
  intros H.
  inversion H as [E' H1|name E' bias Hdecl Hname Hhits|m E' Hle Hin];
    [discriminate H1|discriminate Hdecl|destruct Hin].
Qed.


Lemma tc_dep_int_die X : ¬ tc (dep sample_image) int_die X.
Proof.
  intros H. inversion H as [? ? H1|? y ? H1 H2]; subst;
    now apply dep_int_die in H1.
Qed.





Lemma same_depth_prog c p : same_depth c (set_prog p c).
Proof. reflexivity. Qed.






(** ** Members of a compound *)

Lemma bind_assoc {A B C} (m : M A) (f : A → M B) (g : B → M C) c :
  bind (bind m f) g c = bind m (fun a => bind (f a) g) c.
Proof. unfold bind. now destruct (m c) as [[a|e|] c1]. Qed.

Lemma bind_ext {A B} (m m' : M A) (k : A → M B) c :
  m c = m' c → bind m k c = bind m' k c.
Proof. unfold bind. now intros ->. Qed.

Lemma bind_ext_r {A B} (m : M A) (k k' : A → M B) c :
  (∀ a c1, m c = (Ok a, c1) → k a c1 = k' a c1) →
  bind m k c = bind m k' c.
Proof.
  intros H. unfold bind. destruct (m c) as [[a|e|] c1]; [|done|done].
  now apply H.
Qed.

Lemma parse_member_length img rec die little_endian cbia builder c b c' :
  parse_member img rec die little_endian cbia builder c = (Ok b, c') →
  List.length (builder_members b)
  = S (List.length (builder_members builder)).
Proof.
  unfold parse_member, bind, lift, ret. intros H.
  repeat case_match; simplify_eq;
    cbn [drgn_compound_type_builder_add_member builder_members];
    rewrite length_app; cbn [List.length]; lia.
Qed.

Lemma compound_children_loop_as_specified img rec little_endian kind
    children member builder c :
  bind (compound_children_loop img rec little_endian children member builder)
    (fun '(member, builder) =>
       match member with
       | Some member =>
           parse_member img rec member little_endian
             (negb (bool_decide (kind = DRGN_TYPE_UNION)) &&
              (0 <? Z.of_nat (List.length (builder_members builder))))
             builder
       | None => ret builder
       end) c
  = parse_members_as_specified img rec little_endian kind
      (List.length (builder_members builder))
      (option_list member ++
       List.filter (fun child => bool_decide (dwarf_tag child = DW_TAG_member))
         children)
      builder c.
Proof.
  revert member builder c.
  induction children as [|child children IH]; intros member builder c.
  - cbn [compound_children_loop List.filter]. rewrite app_nil_r.
    destruct member as [m|];
      [change (option_list (Some m)) with [m]
      |change (option_list (@None Dwarf_Die)) with (@nil Dwarf_Die)];
      cbn [parse_members_as_specified]; [|done].
    unfold bind at 1. cbn [ret].
    do 2 f_equal. f_equal.
    destruct (List.length (builder_members builder)); reflexivity.
  - cbn [compound_children_loop List.filter].
    destruct (bool_decide (dwarf_tag child = DW_TAG_member)).
    + rewrite bind_assoc.
      destruct member as [m|].
      * change (option_list (Some m)) with [m]. cbn [app].
        assert (Hspec : parse_members_as_specified img rec little_endian
                  kind (List.length (builder_members builder))
                  (m :: child :: List.filter
                     (fun child => bool_decide
                        (dwarf_tag child = DW_TAG_member)) children)
                  builder c
                = bind (parse_member img rec m little_endian false builder)
                    (fun b => parse_members_as_specified img rec
                       little_endian kind
                       (S (List.length (builder_members builder)))
                       (child :: List.filter
                          (fun child => bool_decide
                             (dwarf_tag child = DW_TAG_member)) children)
                       b) c) by reflexivity.
        rewrite Hspec. apply bind_ext_r. intros b c1 Hb.
        rewrite IH. change (option_list (Some child)) with [child].
        cbn [app].
        now rewrite (parse_member_length _ _ _ _ _ _ _ _ _ Hb).
      * unfold bind at 1. cbn [ret]. now rewrite IH.
    + apply IH.
Qed.



(** The flags at work: in [struct s] the thunk of [data], the last member,
    may give an incomplete array; in [union u] it may not. *)
Lemma flexible_array_member_flags :
  let members die :=
    match fst (drgn_type_from_dwarf_internal sample_image die true None
                 empty_cache) with
    | Ok (qualified_type, _) =>
        match drgn_type_lookup
                (prog (snd (drgn_type_from_dwarf_internal sample_image die
                              true None empty_cache)))
                (type qualified_type) with
        | Some (T_compound _ _ _ members _) =>
            List.map member_type members
        | _ => []
        end
    | _ => []
    end in
  members flexible_struct_die
  = [lazy_thunk int_die false; lazy_thunk incomplete_array_die true] ∧
  members flexible_union_die
  = [lazy_thunk int_die false; lazy_thunk incomplete_array_die false].
Proof. vm_compute. split; reflexivity. Qed.

(** ** Qualifiers *)

Lemma land_lor_same x q : Z.land (Z.lor x q) q = q.
Proof.
  apply Z.bits_inj'. intros n _. rewrite Z.land_spec, Z.lor_spec.
  now destruct (Z.testbit x n), (Z.testbit q n).
Qed.

(** C6, as the specification states it, fails: [const] of [int []] is
    reported not to be an incomplete array, [int []] itself is. *)
Lemma qualifier_drops_is_incomplete_array :
  fst (drgn_type_from_dwarf_internal sample_image incomplete_array_die true
         (Some false) empty_cache)
  = Ok ({| type := created_type 1; qualifiers := 0 |}, Some true) ∧
  fst (drgn_type_from_dwarf_internal sample_image const_array_die true
         (Some false) empty_cache)
  = Ok ({| type := created_type 1;
           qualifiers := DRGN_QUALIFIER_CONST |}, Some false).
Proof. vm_compute. split; reflexivity. Qed.

(** C6, amended.  Materializing a qualifier DIE resolves the target of its
    DW_AT_type ([void] if there is none) one level deeper with
    [can_be_incomplete_array = true], returns the type descriptor of the
    target with the qualifier bit ORed into the qualifiers of the target,
    and reports [is_incomplete_array = false] to its caller and in the entry
    it memoizes, whatever the target is. *)
Theorem qualifier_is_ored_and_reports_false img die cbia iia c qualifier
    qualified_type iia' c' :
  qualifier_of_tag (dwarf_tag die) = Some qualifier →
  map c !! die_addr die = None →
  drgn_type_from_dwarf_internal img die cbia iia c
  = (Ok (qualified_type, iia'), c') →
  iia' = (fun _ => false) <$> iia ∧
  Z.land (qualifiers qualified_type) qualifier = qualifier ∧
  map c' !! die_addr die
  = Some {| value_type := type qualified_type;
            value_qualifiers := qualifiers qualified_type;
            value_is_incomplete_array := false |} ∧
  match dwarf_type img die with
  | Some (Some target) =>
      ∃ inner iia_inner c1,
        drgn_type_from_dwarf_internal img target true None
          (set_depth (S (depth c)) c)
        = (Ok (inner, iia_inner), c1) ∧
        qualified_type
        = {| type := type inner;
             qualifiers := Z.lor (qualifiers inner) qualifier |}
  | Some None => False
  | None =>
      ∃ lang,
        drgn_language_from_die die = Ok lang ∧
        qualified_type
        = {| type := void_type (drgn_language_or_default lang);
             qualifiers := qualifier |}
  end.
Proof.
  intros Hq Hmap H.
  rewrite drgn_type_from_dwarf_internal_unfold in H.
  unfold drgn_type_from_dwarf_internal_body in H. cbv beta zeta in H.
  destruct (1000 <=? depth c)%nat eqn:Eguard; [discriminate|].
  apply Nat.leb_gt in Eguard.
  unfold dwarf_type_map_search in H. rewrite Hmap in H.
  destruct (drgn_language_from_die die) as [lang| |] eqn:Elang;
    try discriminate.
  assert (Hd : dispatch img (resolve_fuel img (1000 - depth c)) die lang cbia
               = qualifier_type_from_dwarf img
                   (resolve_fuel img (1000 - depth c)) die lang
                   match dwarf_tag die with
                   | DW_TAG_const_type => "DW_TAG_const_type"
                   | DW_TAG_restrict_type => "DW_TAG_restrict_type"
                   | DW_TAG_volatile_type => "DW_TAG_volatile_type"
                   | _ => "DW_TAG_atomic_type"
                   end qualifier).
  { unfold dispatch. destruct (dwarf_tag die); try discriminate;
      now injection Hq as <-. }
  rewrite Hd in H. clear Hd.
  unfold qualifier_type_from_dwarf, drgn_type_from_dwarf_child, bind, ret,
    lift, dwarf_type in *.
  destruct (dwarf_attr_integrate die DW_AT_type) as [attr|].
  - destruct (dwarf_formref_die img attr) as [target|]; [|discriminate].
    rewrite (resolve_fuel_nested img target true None
               (set_depth (S (depth c)) c) (depth c) Eguard eq_refl) in H.
    destruct (drgn_type_from_dwarf_internal img target true None _)
      as [[[inner iia_inner]| |] c1] eqn:Einner; try discriminate.
    unfold dwarf_type_map_insert_searched in H.
    rewrite andb_false_r in H.
    destruct (hd false _); [discriminate|].
    apply pair_eq_inv in H as [[= -> ->] ->]. cbn [qualifiers type map set_maps].
    rewrite lookup_insert_eq.
    split; [destruct iia; reflexivity|].
    split; [apply land_lor_same|]. split; [reflexivity|].
    now exists inner, iia_inner, c1.
  - cbn in H. unfold dwarf_type_map_insert_searched in H.
    rewrite andb_false_r in H.
    destruct (hd false _); [discriminate|].
    apply pair_eq_inv in H as [[= -> ->] ->]. cbn [qualifiers type map set_maps].
    rewrite lookup_insert_eq.
    split; [destruct iia; reflexivity|].
    split; [apply land_lor_same|]. split; [reflexivity|].
    now exists lang.
Qed.

Lemma qualifier_is_ored_and_reports_false_witness :
  let r :=
    drgn_type_from_dwarf_internal sample_image const_array_die true
      (Some true) empty_cache in
  qualifier_of_tag (dwarf_tag const_array_die) = Some DRGN_QUALIFIER_CONST ∧
  map empty_cache !! die_addr const_array_die = None ∧
  fst r = Ok ({| type := created_type 1;
                 qualifiers := DRGN_QUALIFIER_CONST |}, Some false) ∧
  map (snd r) !! die_addr const_array_die
  = Some {| value_type := created_type 1;
            value_qualifiers := DRGN_QUALIFIER_CONST;
            value_is_incomplete_array := false |}.
Proof.
  assert (H : drgn_type_from_dwarf_internal sample_image const_array_die
                true (Some true) empty_cache
              = (Ok ({| type := created_type 1;
                        qualifiers := DRGN_QUALIFIER_CONST |}, Some false),
                 snd (drgn_type_from_dwarf_internal sample_image
                        const_array_die true (Some true) empty_cache)))
    by (vm_compute; reflexivity).
  split; [reflexivity|]. split; [reflexivity|].
  split; [vm_compute; reflexivity|].
  exact (proj1 (proj2 (proj2
    (qualifier_is_ored_and_reports_false sample_image const_array_die true
       (Some true) empty_cache DRGN_QUALIFIER_CONST _ _ _ eq_refl eq_refl
       H)))).
Defined.

(** ** Dimensions *)

Lemma wrap64_range z : 0 ≤ wrap64 z < 2 ^ 64.
Proof. unfold wrap64. apply Z.mod_pos_bound. lia. Qed.

Lemma wrap64_small z : 0 ≤ z < 2 ^ 64 → wrap64 z = z.
Proof. unfold wrap64. apply Z.mod_small. Qed.

Lemma dwarf_formudata_range attr word :
  dwarf_formudata attr = Some word → 0 ≤ word < 2 ^ 64.
Proof.
  unfold dwarf_formudata.
  destruct (form attr); intros [= <-]; apply wrap64_range.
Qed.

Lemma dwarf_attr_integrate_code die name attr :
  dwarf_attr_integrate die name = Some attr → code attr = name.
Proof.
  unfold dwarf_attr_integrate. intros H. apply find_some in H as [_ H].
  now apply bool_decide_eq_true in H.
Qed.

Lemma is_sdata_minus_one_word attr word :
  dwarf_formudata attr = Some word →
  is_sdata_minus_one attr = is_DW_FORM_sdata attr && (word =? wrap64 (-1)).
Proof.
  unfold dwarf_formudata, is_sdata_minus_one, is_DW_FORM_sdata.
  destruct (form attr) as [u|s|s|str|target|b|data|]; intros [= <-];
    try reflexivity.
  cbn [andb]. unfold signed64. pose proof (wrap64_range s) as Hs.
  change (wrap64 (-1)) with (2 ^ 64 - 1).
  destruct (wrap64 s <? 2 ^ 63) eqn:E.
  - apply Z.ltb_lt in E.
    transitivity false; [apply Z.eqb_neq|symmetry; apply Z.eqb_neq]; lia.
  - destruct (wrap64 s =? 2 ^ 64 - 1) eqn:E'.
    + apply Z.eqb_eq in E'. apply Z.eqb_eq. lia.
    + apply Z.eqb_neq in E'. apply Z.eqb_neq. lia.
Qed.

(** C7.  A subrange with DW_AT_upper_bound [n] ([word], read as an unsigned
    64-bit value) gives a complete dimension: of length 0 if the attribute
    is -1 in DW_FORM_sdata; otherwise of length [n + 1], unless [n] is
    UINT64_MAX or more, in which case, and in no other, decoding fails with
    DRGN_ERROR_OVERFLOW. *)
Theorem subrange_upper_bound_length die attr word old :
  dwarf_attr_integrate die DW_AT_upper_bound = Some attr →
  dwarf_formudata attr = Some word →
  subrange_length die old
  = (if is_sdata_minus_one attr then Ok {| length := 0; is_complete := true |}
     else if word <? UINT64_MAX then
       Ok {| length := word + 1; is_complete := true |}
     else Err (drgn_error_create DRGN_ERROR_OVERFLOW
                 "DW_AT_upper_bound is too large")) ∧
  ((∃ e, subrange_length die old = Err e ∧
         error_code e = DRGN_ERROR_OVERFLOW)
   ↔ is_sdata_minus_one attr = false ∧ UINT64_MAX ≤ word).
Proof.
  intros Hattr Hword.
  pose proof (dwarf_formudata_range _ _ Hword) as Hrange.
  pose proof (dwarf_attr_integrate_code _ _ _ Hattr) as Hcode.
  assert (Heq : subrange_length die old
    = (if is_sdata_minus_one attr
       then Ok {| length := 0; is_complete := true |}
       else if word <? UINT64_MAX then
         Ok {| length := word + 1; is_complete := true |}
       else Err (drgn_error_create DRGN_ERROR_OVERFLOW
                   "DW_AT_upper_bound is too large"))).
  { unfold subrange_length. rewrite Hattr, Hword, Hcode.
    rewrite (is_sdata_minus_one_word _ _ Hword).
    rewrite bool_decide_eq_true_2 by reflexivity. cbn [andb].
    destruct (is_DW_FORM_sdata attr && (word =? wrap64 (-1))); [done|].
    unfold UINT64_MAX in *.
    destruct (2 ^ 64 - 1 <=? word) eqn:E.
    - apply Z.leb_le in E.
      now replace (word <? 2 ^ 64 - 1) with false
        by (symmetry; apply Z.ltb_ge; lia).
    - apply Z.leb_gt in E.
      replace (word <? 2 ^ 64 - 1) with true
        by (symmetry; apply Z.ltb_lt; lia).
      rewrite wrap64_small by lia. reflexivity. }
  split; [exact Heq|]. rewrite Heq.
  destruct (is_sdata_minus_one attr).
  - split; [intros (e & [=] & _)|intros [[=] _]].
  - destruct (word <? UINT64_MAX) eqn:E.
    + apply Z.ltb_lt in E. split; [intros (e & [=] & _)|intros [_ ?]; lia].
    + apply Z.ltb_ge in E. split; [done|]. intros _. now eexists.
Qed.

Lemma subrange_upper_bound_length_witness :
  subrange_length (subrange_die (DW_FORM_sdata (-1))) uninitialized_dimension
  = Ok {| length := 0; is_complete := true |} ∧
  subrange_length (subrange_die (DW_FORM_udata (UINT64_MAX - 1)))
    uninitialized_dimension
  = Ok {| length := UINT64_MAX; is_complete := true |} ∧
  subrange_length (subrange_die (DW_FORM_udata UINT64_MAX))
    uninitialized_dimension
  = Err (drgn_error_create DRGN_ERROR_OVERFLOW
           "DW_AT_upper_bound is too large").
Proof.
  split; [|split].
  - exact (proj1 (subrange_upper_bound_length
                    (subrange_die (DW_FORM_sdata (-1)))
                    (mk_attr DW_AT_upper_bound (DW_FORM_sdata (-1)))
                    UINT64_MAX uninitialized_dimension eq_refl eq_refl)).
  - exact (proj1 (subrange_upper_bound_length
                    (subrange_die (DW_FORM_udata (UINT64_MAX - 1)))
                    (mk_attr DW_AT_upper_bound
                       (DW_FORM_udata (UINT64_MAX - 1)))
                    (UINT64_MAX - 1) uninitialized_dimension eq_refl
                    eq_refl)).
  - exact (proj1 (subrange_upper_bound_length
                    (subrange_die (DW_FORM_udata UINT64_MAX))
                    (mk_attr DW_AT_upper_bound (DW_FORM_udata UINT64_MAX))
                    UINT64_MAX uninitialized_dimension eq_refl eq_refl)).
Defined.

(** ** Bit offsets of members *)

Lemma wrap64_add_l a b : wrap64 (wrap64 a + b) = wrap64 (a + b).
Proof. unfold wrap64. apply Zplus_mod_idemp_l. Qed.

Lemma wrap64_add_r a b : wrap64 (a + wrap64 b) = wrap64 (a + b).
Proof. unfold wrap64. apply Zplus_mod_idemp_r. Qed.

Lemma wrap64_sub_l a b : wrap64 (wrap64 a - b) = wrap64 (a - b).
Proof. unfold wrap64. apply Zminus_mod_idemp_l. Qed.

Lemma little_endian_offset ret0 byte_offset byte_size bit_offset
    bit_field_size :
  ret0 = wrap64 (8 * byte_offset) ∨ (ret0 = 0 ∧ byte_offset = 0) →
  wrap64 (ret0 +
          wrap64 (wrap64 (wrap64 (8 * byte_size) - bit_offset)
                  - bit_field_size))
  = wrap64 (8 * byte_offset + 8 * byte_size - bit_offset - bit_field_size).
Proof.
  intros H.
  rewrite (wrap64_sub_l (wrap64 (8 * byte_size) - bit_offset)).
  replace (wrap64 (8 * byte_size) - bit_offset - bit_field_size)
    with (wrap64 (8 * byte_size) - (bit_offset + bit_field_size)) by lia.
  rewrite wrap64_sub_l, wrap64_add_r.
  destruct H as [->|[-> ->]]; [rewrite wrap64_add_l|]; f_equal; lia.
Qed.

Lemma big_endian_offset ret0 byte_offset bit_offset :
  ret0 = wrap64 (8 * byte_offset) ∨ (ret0 = 0 ∧ byte_offset = 0) →
  wrap64 (ret0 + bit_offset) = wrap64 (8 * byte_offset + bit_offset).
Proof.
  intros [->|[-> ->]]; [now rewrite wrap64_add_l|reflexivity].
Qed.

(** C8.  For a member without DW_AT_data_bit_offset and with DW_AT_bit_offset
    [bit_offset], whose DW_AT_data_member_location is [byte_offset] (0 when
    absent), [parse_member_offset] returns, in 64-bit unsigned arithmetic,
    - on a big-endian target, [8 * byte_offset + bit_offset];
    - on a little-endian target,
      [8 * byte_offset + 8 * byte_size - bit_offset - bit_field_size],
      where [byte_size] is DW_AT_byte_size if the member has one, and
      otherwise the size of the type of the member, which is evaluated;
      the call fails if the evaluation does or if that type has no size.
    A value in [0, 2^64) is left as it is by the 64-bit arithmetic. *)
Theorem legacy_bit_offset rec die member_type bit_field_size attr bit_offset
    byte_offset c :
  dwarf_attr_integrate die DW_AT_data_bit_offset = None →
  dwarf_attr_integrate die DW_AT_bit_offset = Some attr →
  dwarf_formudata attr = Some bit_offset →
  member_byte_offset die = Some byte_offset →
  parse_member_offset rec die member_type bit_field_size false c
  = (Ok (member_type, wrap64 (8 * byte_offset + bit_offset)), c) ∧
  (∀ size_attr byte_size,
     dwarf_attr_integrate die DW_AT_byte_size = Some size_attr →
     dwarf_formudata size_attr = Some byte_size →
     parse_member_offset rec die member_type bit_field_size true c
     = (Ok (member_type,
            wrap64 (8 * byte_offset + 8 * byte_size - bit_offset
                    - bit_field_size)), c)) ∧
  (dwarf_attr_integrate die DW_AT_byte_size = None →
   parse_member_offset rec die member_type bit_field_size true c
   = match drgn_lazy_type_evaluate rec member_type c with
     | (Ok (member_type', containing_type), c1) =>
         match drgn_type_size (prog c1) (type containing_type) with
         | Some byte_size =>
             (Ok (member_type',
                  wrap64 (8 * byte_offset + 8 * byte_size - bit_offset
                          - bit_field_size)), c1)
         | None =>
             (other_error "DW_TAG_member bit field type does not have size",
              c1)
         end
     | (Err err, c1) => (Err err, c1)
     | (OutOfFuel, c1) => (OutOfFuel, c1)
     end) ∧
  (∀ z, 0 ≤ z < 2 ^ 64 → wrap64 z = z).
Proof.
  intros Hdbo Hbo Hbow Hloc.
  assert (Hret0 : ∃ ret0,
    match dwarf_attr_integrate die DW_AT_data_member_location with
    | Some attr =>
        match dwarf_formudata attr with
        | None =>
            other_error "DW_TAG_member has invalid DW_AT_data_member_location"
        | Some byte_offset => Ok (wrap64 (8 * byte_offset))
        end
    | None => Ok 0
    end = Ok ret0 ∧
    (ret0 = wrap64 (8 * byte_offset) ∨ (ret0 = 0 ∧ byte_offset = 0))).
  { unfold member_byte_offset in Hloc.
    destruct (dwarf_attr_integrate die DW_AT_data_member_location) as [a|].
    - rewrite Hloc. eexists. split; [reflexivity|now left].
    - injection Hloc as <-. eexists. split; [reflexivity|now right]. }
  destruct Hret0 as (ret0 & Hret0 & Hshape).
  unfold parse_member_offset. rewrite Hdbo, Hbo, Hbow, Hret0.
  unfold bind, lift, ret, gets.
  split; [|split; [|split]].
  - now rewrite (big_endian_offset _ _ _ Hshape).
  - intros size_attr byte_size -> ->.
    now rewrite (little_endian_offset _ _ _ _ _ Hshape).
  - intros ->.
    destruct (drgn_lazy_type_evaluate rec member_type c)
      as [[[member_type' containing_type]| |] c1]; try reflexivity.
    destruct (drgn_type_size (prog c1) (type containing_type));
      [|reflexivity].
    now rewrite (little_endian_offset _ _ _ _ _ Hshape).
  - apply wrap64_small.
Qed.

Lemma legacy_bit_offset_witness :
  parse_member_offset (drgn_type_from_dwarf_internal sample_image)
    bit_field_die (lazy_thunk int_die false) 3 true empty_cache
  = (Ok (lazy_thunk int_die false, 0), empty_cache) ∧
  parse_member_offset (drgn_type_from_dwarf_internal sample_image)
    bit_field_die (lazy_thunk int_die false) 3 false empty_cache
  = (Ok (lazy_thunk int_die false, 29), empty_cache).
Proof.
  destruct (legacy_bit_offset (drgn_type_from_dwarf_internal sample_image)
              bit_field_die (lazy_thunk int_die false) 3
              (mk_attr DW_AT_bit_offset (DW_FORM_udata 29)) 29 0 empty_cache
              eq_refl eq_refl eq_refl eq_refl) as (Hbig & Hlittle & _).
  split; [|exact Hbig].
  exact (Hlittle (mk_attr DW_AT_byte_size (DW_FORM_udata 4)) 4 eq_refl
           eq_refl).
Defined.

(** ** Declarations *)

Lemma dwarf_diename_attr die name :
  dwarf_diename die = Some name →
  ∃ attr, dwarf_attr_integrate die DW_AT_name = Some attr ∧
          dwarf_formstring attr = Some name.
Proof.
  unfold dwarf_diename.
  destruct (dwarf_attr_integrate die DW_AT_name) as [attr|]; [|discriminate].
  intros H. now exists attr.
Qed.

Lemma find_complete_ambiguous img rec tag name hit1 hit2 rest c :
  index_hits img name tag = hit1 :: hit2 :: rest →
  drgn_dwarf_info_cache_find_complete img rec tag name c = (Err drgn_stop, c).
Proof.
  intros Hhits. unfold drgn_dwarf_info_cache_find_complete,
    drgn_dwarf_index_iterator_next, drgn_dwarf_index_iterator_init.
  cbn [it_hits it_end]. rewrite Hhits. now destruct hit1.
Qed.

Lemma find_complete_single img rec tag name definition bias c :
  index_hits img name tag = [(definition, bias)] →
  index_fails img name tag = false →
  drgn_dwarf_info_cache_find_complete img rec tag name c
  = bind (drgn_type_from_dwarf rec definition)
      (fun qualified_type => ret (type qualified_type)) c.
Proof.
  intros Hhits Hfails. unfold drgn_dwarf_info_cache_find_complete,
    drgn_dwarf_index_iterator_next, drgn_dwarf_index_iterator_init.
  cbn [it_hits it_end]. now rewrite Hhits, Hfails.
Qed.

(** C9.  For a struct, union or class DIE, and for an enumeration DIE, that
    is a declaration and has a name: if the index has two or more
    definitions under that name and tag, the call resolves none of them and
    creates an incomplete type; if it has exactly one, the call resolves it
    with [can_be_incomplete_array = true] and returns the type it
    resolves to. *)
Theorem declaration_is_completed_when_unambiguous img rec die lang name c :
  dwarf_diename die = Some name →
  dwarf_flag die DW_AT_declaration = Some true →
  (∀ kind dw_tag_str dw_tag,
     compound_dw_tag kind = Some (dw_tag_str, dw_tag) →
     (∀ hit1 hit2 rest,
        index_hits img name dw_tag = hit1 :: hit2 :: rest →
        drgn_compound_type_from_dwarf img rec die lang kind c
        = drgn_type_create (T_incomplete_compound kind (Some name) lang) c) ∧
     (∀ definition bias qualified_type iia c1,
        index_hits img name dw_tag = [(definition, bias)] →
        index_fails img name dw_tag = false →
        rec definition true None c = (Ok (qualified_type, iia), c1) →
        drgn_compound_type_from_dwarf img rec die lang kind c
        = (Ok (type qualified_type), c1))) ∧
  (∀ hit1 hit2 rest,
     index_hits img name DW_TAG_enumeration_type = hit1 :: hit2 :: rest →
     drgn_enum_type_from_dwarf img rec die lang c
     = drgn_type_create (T_incomplete_enum (Some name) lang) c) ∧
  (∀ definition bias qualified_type iia c1,
     index_hits img name DW_TAG_enumeration_type = [(definition, bias)] →
     index_fails img name DW_TAG_enumeration_type = false →
     rec definition true None c = (Ok (qualified_type, iia), c1) →
     drgn_enum_type_from_dwarf img rec die lang c
     = (Ok (type qualified_type), c1)).
Proof.
  intros Hname Hdecl.
  destruct (dwarf_diename_attr _ _ Hname) as (attr & Hattr & Hstring).
  split; [|split].
  - intros kind dw_tag_str dw_tag Hkind. split.
    + intros hit1 hit2 rest Hhits.
      unfold drgn_compound_type_from_dwarf.
      rewrite Hkind, Hattr, Hstring, Hdecl.
      unfold bind at 1. unfold lift at 1. unfold unless_stop.
      cbv beta iota zeta.
      now rewrite (find_complete_ambiguous img rec dw_tag name hit1 hit2
                     rest c Hhits).
    + intros definition bias qualified_type iia c1 Hhits Hfails Hrec.
      unfold drgn_compound_type_from_dwarf.
      rewrite Hkind, Hattr, Hstring, Hdecl.
      unfold bind at 1. unfold lift at 1. unfold unless_stop.
      cbv beta iota zeta.
      rewrite (find_complete_single img rec dw_tag name definition bias c
                 Hhits Hfails).
      unfold drgn_type_from_dwarf, bind. now rewrite Hrec.
  - intros hit1 hit2 rest Hhits. unfold drgn_enum_type_from_dwarf.
    rewrite Hattr, Hstring, Hdecl.
    unfold bind at 1. unfold lift at 1. unfold unless_stop.
    cbv beta iota zeta.
    now rewrite (find_complete_ambiguous img rec DW_TAG_enumeration_type
                   name hit1 hit2 rest c Hhits).
  - intros definition bias qualified_type iia c1 Hhits Hfails Hrec.
    unfold drgn_enum_type_from_dwarf.
    rewrite Hattr, Hstring, Hdecl.
    unfold bind at 1. unfold lift at 1. unfold unless_stop.
    cbv beta iota zeta.
    rewrite (find_complete_single img rec DW_TAG_enumeration_type name
               definition bias c Hhits Hfails).
    unfold drgn_type_from_dwarf, bind. now rewrite Hrec.
Qed.

Lemma declaration_is_completed_when_unambiguous_witness :
  let ambiguous :=
    foo_image [foo_definition_die 20%N 4; foo_definition_die 21%N 8] in
  dwarf_diename foo_declaration_die = Some "foo" ∧
  dwarf_flag foo_declaration_die DW_AT_declaration = Some true ∧
  drgn_compound_type_from_dwarf ambiguous
    (drgn_type_from_dwarf_internal ambiguous) foo_declaration_die None
    DRGN_TYPE_STRUCT empty_cache
  = drgn_type_create (T_incomplete_compound DRGN_TYPE_STRUCT (Some "foo") None)
      empty_cache.
Proof.
  split; [reflexivity|]. split; [reflexivity|].
  exact (proj1 (proj1 (declaration_is_completed_when_unambiguous
                         (foo_image [foo_definition_die 20%N 4;
                                     foo_definition_die 21%N 8])
                         (drgn_type_from_dwarf_internal
                            (foo_image [foo_definition_die 20%N 4;
                                        foo_definition_die 21%N 8]))
                         foo_declaration_die None "foo" empty_cache
                         eq_refl eq_refl)
                  DRGN_TYPE_STRUCT "DW_TAG_structure_type"
                  DW_TAG_structure_type eq_refl)
           (foo_definition_die 20%N 4, 0) (foo_definition_die 21%N 8, 0) []
           eq_refl).
Defined.

(** Through [drgn_type_from_dwarf_internal]: the declaration of [struct foo]
    resolves to an incomplete struct when the index has two definitions, and
    to the definition when it has one. *)
Lemma declaration_of_struct_foo :
  let resolve definitions :=
    let r :=
      drgn_type_from_dwarf_internal (foo_image definitions)
        foo_declaration_die true None empty_cache in
    match fst r with
    | Ok (qualified_type, _) =>
        drgn_type_lookup (prog (snd r)) (type qualified_type)
    | _ => None
    end in
  resolve [foo_definition_die 20%N 4; foo_definition_die 21%N 8]
  = Some (T_incomplete_compound DRGN_TYPE_STRUCT (Some "foo")
            (Some drgn_language_c)) ∧
  resolve [foo_definition_die 20%N 4]
  = Some (T_compound DRGN_TYPE_STRUCT (Some "foo") 4 []
            (Some drgn_language_c)).
Proof. vm_compute. split; reflexivity. Qed.

(** ** Enumerators *)

Lemma enumerators_scan_None is_signed qualified_type enumerators name :
  enumerators_scan is_signed qualified_type enumerators name = None
  ↔ ∀ enumerator, In enumerator enumerators →
                  enumerator_name enumerator ≠ name.
Proof.
  induction enumerators as [|e enumerators IH]; cbn [enumerators_scan].
  - split; [intros _ e []|done].
  - destruct (bool_decide (enumerator_name e = name)) eqn:E; cbn [negb].
    + apply bool_decide_eq_true in E. split.
      * destruct is_signed; discriminate.
      * intros H. now destruct (H e (or_introl eq_refl)).
    + apply bool_decide_eq_false in E. rewrite IH. split.
      * intros H e' [<-|Hin]; auto.
      * intros H e' Hin. apply H. now right.
Qed.

(** C10.  [drgn_object_from_dwarf_enumerator] runs into [UNREACHABLE()]
    exactly when the DIE it is given resolves to a type and no enumerator
    of that type has the name asked for: it then returns neither an object
    nor an error. *)
Theorem enumerator_not_found_is_unreachable img die name c :
  fst (drgn_object_from_dwarf_enumerator img die name c) = Unreachable
  ↔ ∃ qualified_type c1,
      drgn_type_from_dwarf (drgn_type_from_dwarf_internal img) die c
      = (Ok qualified_type, c1) ∧
      ∀ enumerator,
        In enumerator
          (drgn_type_enumerators (prog c1) (type qualified_type)) →
        enumerator_name enumerator ≠ name.
Proof.
  unfold drgn_object_from_dwarf_enumerator.
  destruct (drgn_type_from_dwarf (drgn_type_from_dwarf_internal img) die c)
    as [[qualified_type|e|] c1].
  - destruct (enumerators_scan _ _ _ _) as [object|] eqn:Escan; cbn [fst].
    + split; [discriminate|]. intros (qt & c2 & [= <- <-] & Hnone).
      rewrite (proj2 (enumerators_scan_None _ _ _ _) Hnone) in Escan.
      discriminate.
    + split; [intros _|done]. exists qualified_type, c1.
      split; [done|]. exact (proj1 (enumerators_scan_None _ _ _ _) Escan).
  - split; [discriminate|]. now intros (qt & c2 & [=] & _).
  - split; [discriminate|]. now intros (qt & c2 & [=] & _).
Qed.

(** On [enum color { RED = -1, GREEN = 1 }]: RED is found, BLUE runs into
    [UNREACHABLE()]. *)
Lemma enumerators_of_color :
  fst (drgn_object_from_dwarf_enumerator sample_image color_die "RED"
         empty_cache)
  = Returns (Ok (object_signed {| type := created_type 1; qualifiers := 0 |}
                   (-1))) ∧
  fst (drgn_object_from_dwarf_enumerator sample_image color_die "BLUE"
         empty_cache)
  = Unreachable.
Proof. vm_compute. split; reflexivity. Qed.

(** * Further properties of the code *)

(** ** What every call keeps *)

Section Invariant.

Variable img : debug_info.
Variable R : drgn_dwarf_info_cache → drgn_dwarf_info_cache → Prop.
Hypothesis R_refl : ∀ c, R c c.
Hypothesis R_trans : ∀ a b c, R a b → R b c → R a c.
Hypothesis R_create : ∀ c t, R c (snd (drgn_type_create t c)).
Hypothesis R_depth : ∀ c d, R c (set_depth d c).
Hypothesis R_insert :
  ∀ c0 c cbia key value,
    dwarf_type_map_search c0 key cbia = None → R c0 c →
    R c0 (snd (dwarf_type_map_insert_searched
                 (negb cbia && value_is_incomplete_array value) key value c)).

Lemma resolve_fuel_invariant fuel :
  ∀ die cbia iia c r c',
    resolve_fuel img fuel die cbia iia c = (r, c') → R c c'.
Proof.
  induction fuel as [|fuel IH]; intros die cbia iia c r c';
    cbn [resolve_fuel].
  { intros [= <- <-]. apply R_refl. }
  unfold drgn_type_from_dwarf_internal_body. cbv beta zeta.
  destruct (1000 <=? depth c)%nat.
  { intros [= <- <-]. apply R_refl. }
  destruct (dwarf_type_map_search c (die_addr die) cbia) eqn:Esearch.
  { intros [= <- <-]. apply R_refl. }
  destruct (drgn_language_from_die die) as [lang|e|].
  2,3: intros [= <- <-]; apply R_refl.
  destruct (dispatch img (resolve_fuel img fuel) die lang cbia
              (set_depth (S (depth c)) c)) as [r1 c1] eqn:Edisp.
  assert (H1 : R c c1).
  { apply R_trans with (set_depth (S (depth c)) c); [apply R_depth|].
    eapply (sound_dispatch img (fun _ => True) R True (fun _ => True)
              (fun _ _ => I) R_refl R_trans R_create (fun _ _ _ _ => I)
              (fun _ => True) (resolve_fuel img fuel));
      [|exact (fun _ _ => I)|exact I|exact Edisp].
    intros die' cbia' iia' _ c2 r2 c2' _ H2.
    split; [exact (IH _ _ _ _ _ _ H2)|done]. }
  assert (H2 : R c (set_depth (Nat.pred (depth c1)) c1)).
  { apply R_trans with c1; [exact H1|apply R_depth]. }
  destruct r1 as [[ret0 is_incomplete_array]|e|].
  2,3: now intros [= <- <-].
  pose proof (R_insert c (set_depth (Nat.pred (depth c1)) c1) cbia
                (die_addr die)
                {| value_type := type ret0;
                   value_qualifiers := qualifiers ret0;
                   value_is_incomplete_array := is_incomplete_array |}
                Esearch H2) as H3.
  cbn [value_is_incomplete_array] in H3.
  destruct (dwarf_type_map_insert_searched _ _ _ _) as [[] c2];
    intros [= <- <-]; exact H3.
Qed.

Lemma later_invariant c c' : later img c c' → R c c'.
Proof.
  induction 1 as [|c c1 die cbia iia _ IH]; [apply R_refl|].
  apply R_trans with c1; [exact IH|].
  eapply resolve_fuel_invariant. apply surjective_pairing.
Qed.

End Invariant.

Lemma store_grows_refl c : store_grows c c.
Proof. exists []. now rewrite app_nil_r. Qed.

Lemma store_grows_trans a b c :
  store_grows a b → store_grows b c → store_grows a c.
Proof.
  intros [l1 H1] [l2 H2]. exists (l1 ++ l2). now rewrite H2, H1, app_assoc.
Qed.

Lemma store_grows_create c t : store_grows c (snd (drgn_type_create t c)).
Proof. now exists [t]. Qed.

Lemma store_grows_insert c0 c restricted key value :
  store_grows c0 c →
  store_grows c0 (snd (dwarf_type_map_insert_searched restricted key value c)).
Proof.
  unfold dwarf_type_map_insert_searched.
  now destruct (hd false (insert_enomem c)), restricted.
Qed.

Lemma resolve_fuel_store_grows img fuel die cbia iia c r c' :
  resolve_fuel img fuel die cbia iia c = (r, c') → store_grows c c'.
Proof.
  apply (resolve_fuel_invariant img store_grows store_grows_refl
           store_grows_trans store_grows_create).
  - intros c0 d. exists []. cbn. now rewrite app_nil_r.
  - intros c0 c1 cbia' key value _. apply store_grows_insert.
Qed.

Lemma keeps_complete_refl c : keeps_complete c c.
Proof. now intros a v. Qed.

Lemma keeps_complete_trans a b c :
  keeps_complete a b → keeps_complete b c → keeps_complete a c.
Proof. intros H1 H2 k v Hk Hv. apply H2; [|done]. now apply H1. Qed.

Lemma keeps_complete_insert c0 c cbia key value :
  dwarf_type_map_search c0 key cbia = None → keeps_complete c0 c →
  keeps_complete c0
    (snd (dwarf_type_map_insert_searched
            (negb cbia && value_is_incomplete_array value) key value c)).
Proof.
  intros Hsearch H a v Ha Hv.
  assert (a ≠ key).
  { intros ->. unfold dwarf_type_map_search in Hsearch.
    rewrite Ha, Hv, andb_false_r in Hsearch. discriminate. }
  unfold dwarf_type_map_insert_searched.
  destruct (hd false (insert_enomem c)),
    (negb cbia && value_is_incomplete_array value); cbn;
    rewrite ?lookup_insert_ne by done; now apply H.
Qed.

Lemma later_keeps_complete img c c' : later img c c' → keeps_complete c c'.
Proof.
  apply (later_invariant img keeps_complete keeps_complete_refl
           keeps_complete_trans).
  - now intros c0 t a v.
  - now intros c0 d a v.
  - apply keeps_complete_insert.
Qed.

Lemma later_depth img c c' : later img c c' → depth c' = depth c.
Proof.
  induction 1 as [|c c1 die cbia iia _ IH]; [done|].
  rewrite <- IH.
  eapply drgn_type_from_dwarf_internal_depth. apply surjective_pairing.
Qed.

(** ** The memoization maps across calls *)

Lemma dep_incomplete_array_die E :
  dep sample_image incomplete_array_die E → E = int_die.
Proof.
  intros H.
  inversion H as [E' H1|name E' bias Hdecl Hname Hhits|m E' Hle Hin Htag].
  - now injection H1 as <-.
  - discriminate Hdecl.
  - destruct Hin as [<-|[]]. discriminate Htag.
Qed.

Lemma tc_dep_incomplete_array_die X :
  tc (dep sample_image) incomplete_array_die X → X = int_die.
Proof.
  intros H. inversion H as [? ? H1|? y ? H1 H2]; subst;
    apply dep_incomplete_array_die in H1; subst; [done|].
  now apply tc_dep_int_die in H2.
Qed.

(** X1.  A call of [drgn_type_from_dwarf_internal], whatever it returns,
    leaves the depth as it found it, and leaves what both maps hold under
    every address that is neither that of its DIE nor that of a DIE its
    DIE refers to through the references a resolution follows. *)
Theorem call_leaves_unrelated_entries img die cbia iia c a :
  a ≠ die_addr die →
  (∀ X, tc (dep img) die X → die_addr X ≠ a) →
  let c' := snd (drgn_type_from_dwarf_internal img die cbia iia c) in
  depth c' = depth c ∧
  map c' !! a = map c !! a ∧
  cant_be_incomplete_array_map c' !! a
  = cant_be_incomplete_array_map c !! a.
Proof.
  intros Ha Hreach c'.
  destruct (drgn_type_from_dwarf_internal img die cbia iia c) as [r c1] eqn:E.
  subst c'. cbn [snd].
  destruct (resolve_fuel_untouched img
              (fun X => X = die ∨ tc (dep img) die X)
              ltac:(intros X E' [->|HX] HE;
                    right; [now apply tc_once|now apply tc_r with X])
              (S (1000 - depth c)) die cbia iia (or_introl eq_refl)
              c r c1 I E) as [[Hdepth Hmaps] _].
  split; [exact Hdepth|]. apply Hmaps.
  intros X [->|HX]; [congruence|now apply Hreach].
Qed.

Lemma call_leaves_unrelated_entries_witness :
  let c :=
    snd (drgn_type_from_dwarf_internal sample_image color_die true None
           empty_cache) in
  let c' :=
    snd (drgn_type_from_dwarf_internal sample_image incomplete_array_die
           true None c) in
  map c !! die_addr color_die
  = Some {| value_type := created_type 1; value_qualifiers := 0;
            value_is_incomplete_array := false |} ∧
  map c' !! die_addr incomplete_array_die
  = Some {| value_type := created_type 3; value_qualifiers := 0;
            value_is_incomplete_array := true |} ∧
  map c' !! die_addr color_die = map c !! die_addr color_die.
Proof.
  split; [vm_compute; reflexivity|]. split; [vm_compute; reflexivity|].
  refine (proj1 (proj2 (call_leaves_unrelated_entries sample_image
                          incomplete_array_die true None _
                          (die_addr color_die) _ _))).
  - discriminate.
  - intros X HX. apply tc_dep_incomplete_array_die in HX. now subst X.
Defined.

Lemma hit_returns_entry img die cbia iia c v :
  (depth c < 1000)%nat →
  map c !! die_addr die = Some v →
  value_is_incomplete_array v = false →
  drgn_type_from_dwarf_internal img die cbia iia c
  = (Ok ({| type := value_type v; qualifiers := value_qualifiers v |}, iia),
     c).
Proof.
  intros Hdepth Hv Hcomplete.
  rewrite drgn_type_from_dwarf_internal_unfold.
  unfold drgn_type_from_dwarf_internal_body. cbv beta zeta.
  apply Nat.leb_gt in Hdepth. rewrite Hdepth.
  unfold dwarf_type_map_search. now rewrite Hv, Hcomplete, andb_false_r.
Qed.

(** X2.  An entry of the primary map that is not one of an incomplete array
    is there for good: whatever calls follow, the map holds it, and every
    call on a DIE of its address, with either value of
    [can_be_incomplete_array], is answered from it and leaves the cache as
    it is. *)
Theorem complete_entry_is_permanent img c c' a v :
  map c !! a = Some v →
  value_is_incomplete_array v = false →
  later img c c' →
  map c' !! a = Some v ∧
  ∀ die cbia iia,
    die_addr die = a → (depth c' < 1000)%nat →
    drgn_type_from_dwarf_internal img die cbia iia c'
    = (Ok ({| type := value_type v; qualifiers := value_qualifiers v |},
           iia), c').
Proof.
  intros Hv Hcomplete Hlater.
  pose proof (later_keeps_complete img c c' Hlater a v Hv Hcomplete) as Hv'.
  split; [exact Hv'|].
  intros die cbia iia <- Hdepth. now apply hit_returns_entry.
Qed.

Lemma complete_entry_is_permanent_witness :
  let c :=
    snd (drgn_type_from_dwarf_internal sample_image int_die true None
           empty_cache) in
  let c' :=
    snd (drgn_type_from_dwarf_internal sample_image typedef_array_die false
           None
           (snd (drgn_type_from_dwarf_internal sample_image color_die true
                   None c))) in
  map c' !! die_addr int_die
  = Some {| value_type := created_type 0; value_qualifiers := 0;
            value_is_incomplete_array := false |}.
Proof.
  refine (proj1 (complete_entry_is_permanent sample_image
                   (snd (drgn_type_from_dwarf_internal sample_image int_die
                           true None empty_cache)) _
                   (die_addr int_die)
                   {| value_type := created_type 0; value_qualifiers := 0;
                      value_is_incomplete_array := false |} _ _ _)).
  - vm_compute. reflexivity.
  - reflexivity.
  - apply later_call, later_call, later_now.
Defined.

Lemma miss_inversion img die cbia iia c qt iia' c1 :
  map c !! die_addr die = None →
  drgn_type_from_dwarf_internal img die cbia iia c = (Ok (qt, iia'), c1) →
  (depth c < 1000)%nat ∧
  ∃ lang is_incomplete_array cd,
    drgn_language_from_die die = Ok lang ∧
    dispatch img (resolve_fuel img (1000 - depth c)) die lang cbia
      (set_depth (S (depth c)) c)
    = (Ok (qt, is_incomplete_array), cd) ∧
    iia' = (fun _ => is_incomplete_array) <$> iia ∧
    hd false (insert_enomem cd) = false ∧
    c1 = snd (dwarf_type_map_insert_searched
                (negb cbia && is_incomplete_array) (die_addr die)
                {| value_type := type qt;
                   value_qualifiers := qualifiers qt;
                   value_is_incomplete_array := is_incomplete_array |}
                (set_depth (Nat.pred (depth cd)) cd)).
Proof.
  intros Hmap H.
  rewrite drgn_type_from_dwarf_internal_unfold in H.
  unfold drgn_type_from_dwarf_internal_body in H. cbv beta zeta in H.
  destruct (1000 <=? depth c)%nat eqn:Eguard; [discriminate|].
  apply Nat.leb_gt in Eguard. split; [exact Eguard|].
  unfold dwarf_type_map_search in H. rewrite Hmap in H.
  destruct (drgn_language_from_die die) as [lang| |]; try discriminate.
  destruct (dispatch _ _ _ _ _ _) as [[[ret0 is_incomplete_array]| |] cd]
    eqn:Edisp; try discriminate.
  exists lang, is_incomplete_array, cd.
  unfold dwarf_type_map_insert_searched in *.
  cbn [insert_enomem set_depth] in *.
  destruct (hd false (insert_enomem cd)); [discriminate|].
  destruct (negb cbia && is_incomplete_array);
    apply pair_eq_inv in H as [[= -> ->] ->];
    (repeat split; try reflexivity; now destruct iia).
Qed.

(** X3.  Once a DIE that the primary map did not hold has been resolved
    and found not to be an incomplete array, every later call on it, with
    either value of [can_be_incomplete_array] and whatever calls came in
    between, returns the same type descriptor and the same qualifiers, and
    leaves the cache as it is. *)
Theorem resolved_type_is_kept img die cbia b c qualified_type c1 c2 :
  map c !! die_addr die = None →
  drgn_type_from_dwarf_internal img die cbia (Some b) c
  = (Ok (qualified_type, Some false), c1) →
  later img c1 c2 →
  ∀ cbia' iia',
    drgn_type_from_dwarf_internal img die cbia' iia' c2
    = (Ok (qualified_type, iia'), c2).
Proof.
  intros Hmap H Hlater cbia' iia'.
  pose proof (drgn_type_from_dwarf_internal_depth _ _ _ _ _ _ _ H) as Hd1.
  destruct (miss_inversion _ _ _ _ _ _ _ _ Hmap H)
    as (Hdepth & lang & is_incomplete_array & cd & _ & _ & Hiia & Hoom & ->).
  injection Hiia as <-.
  assert (Hentry :
    map (snd (dwarf_type_map_insert_searched (negb cbia && false)
                (die_addr die)
                {| value_type := type qualified_type;
                   value_qualifiers := qualifiers qualified_type;
                   value_is_incomplete_array := false |}
                (set_depth (Nat.pred (depth cd)) cd))) !! die_addr die
    = Some {| value_type := type qualified_type;
              value_qualifiers := qualifiers qualified_type;
              value_is_incomplete_array := false |}).
  { unfold dwarf_type_map_insert_searched. cbn [insert_enomem set_depth].
    rewrite Hoom, andb_false_r. cbn. apply lookup_insert_eq. }
  pose proof (later_keeps_complete img _ _ Hlater _ _ Hentry eq_refl) as Hv.
  pose proof (later_depth img _ _ Hlater) as Hd2.
  rewrite (hit_returns_entry img die cbia' iia' c2 _ ltac:(lia) Hv eq_refl).
  now destruct qualified_type.
Qed.

Lemma resolved_type_is_kept_witness :
  let c1 :=
    snd (drgn_type_from_dwarf_internal sample_image int_die true (Some true)
           empty_cache) in
  let c2 :=
    snd (drgn_type_from_dwarf_internal sample_image incomplete_array_die
           false None c1) in
  drgn_type_from_dwarf_internal sample_image int_die false (Some true) c2
  = (Ok ({| type := created_type 0; qualifiers := 0 |}, Some true), c2).
Proof.
  refine (resolved_type_is_kept sample_image int_die true true empty_cache
            {| type := created_type 0; qualifiers := 0 |}
            (snd (drgn_type_from_dwarf_internal sample_image int_die true
                    (Some true) empty_cache)) _ _ _ _
            false (Some true)).
  - reflexivity.
  - vm_compute. reflexivity.
  - apply later_call, later_now.
Defined.

(** ** The types a call creates *)

Lemma bind_Ok {A B} (m : M A) (k : A → M B) c b c' :
  bind m k c = (Ok b, c') →
  ∃ a c1, m c = (Ok a, c1) ∧ k a c1 = (Ok b, c').
Proof.
  unfold bind. destruct (m c) as [[a| |] c1]; try discriminate.
  intros H. now exists a, c1.
Qed.

Lemma lift_Ok {A} (r : res A) c a c' :
  lift r c = (Ok a, c') → r = Ok a ∧ c' = c.
Proof. now intros [= -> ->]. Qed.

Lemma ret_Ok {A} (a : A) c b c' : ret a c = (Ok b, c') → b = a ∧ c' = c.
Proof. now intros [= -> ->]. Qed.

Lemma creates_lookup c c' t ty :
  creates c c' t ty → drgn_type_lookup (prog c') t = Some ty.
Proof.
  intros (new & Hstore & ->). cbn [drgn_type_lookup].
  rewrite Hstore, app_assoc. apply list_lookup_middle. reflexivity.
Qed.


Lemma creates_intro c c1 ty t c' :
  store_grows c c1 → drgn_type_create ty c1 = (Ok t, c') →
  creates c c' t ty.
Proof.
  intros [new Hnew] [= <- <-]. exists new. cbn. rewrite Hnew.
  split; [now rewrite app_assoc|reflexivity].
Qed.

Lemma creates_prog c c1 c' t ty :
  creates c c1 t ty → prog c' = prog c1 → creates c c' t ty.
Proof. intros (new & H & ->) Hp. exists new. now rewrite Hp. Qed.

Lemma creates_grows c c' t ty : creates c c' t ty → store_grows c c'.
Proof. intros (new & H & _). now exists (new ++ [ty]). Qed.

Lemma creates_after c0 c c' t ty :
  store_grows c0 c → creates c c' t ty → creates c0 c' t ty.
Proof.
  intros [l Hl] (new & H & ->). exists (l ++ new).
  rewrite H, Hl. split; [now rewrite <- !app_assoc|].
  now rewrite <- app_assoc.
Qed.

Lemma lookup_grows p p' h ty :
  drgn_type_lookup p h = Some ty →
  (∃ new, created_types p' = created_types p ++ new) →
  drgn_type_lookup p' h = Some ty.
Proof.
  destruct h as [|n]; [discriminate|]. cbn [drgn_type_lookup].
  intros H [new ->]. now apply lookup_app_l_Some.
Qed.

Lemma array_unfold_length p n qt lengths element :
  array_unfold p n qt = (lengths, element) → (List.length lengths ≤ n)%nat.
Proof.
  revert qt lengths element.
  induction n as [|n IH]; intros qt lengths element; cbn [array_unfold].
  { intros [= <- <-]. cbn. lia. }
  destruct (drgn_type_lookup p (type qt)) as [[]|];
    try (intros [= <- <-]; cbn; lia).
  - destruct (array_unfold p n element_type) as [l e] eqn:E.
    intros [= <- <-]. apply IH in E. cbn. lia.
  - destruct (array_unfold p n element_type) as [l e] eqn:E.
    intros [= <- <-]. apply IH in E. cbn. lia.
Qed.

Lemma array_unfold_grows p p' n qt lengths element :
  array_unfold p n qt = (lengths, element) →
  List.length lengths = n →
  (∃ new, created_types p' = created_types p ++ new) →
  array_unfold p' n qt = (lengths, element).
Proof.
  intros H Hlen Hgrows. revert qt lengths element H Hlen.
  induction n as [|n IH]; intros qt lengths element; cbn [array_unfold];
    [done|].
  destruct (drgn_type_lookup p (type qt)) as [ty|] eqn:Elookup.
  2: { intros [= <- <-]. discriminate. }
  rewrite (lookup_grows p p' _ _ Elookup Hgrows).
  destruct ty; try (intros [= <- <-]; discriminate).
  - destruct (array_unfold p n element_type) as [l e] eqn:E.
    intros [= <- <-] [= Hl]. now rewrite (IH _ _ _ E Hl).
  - destruct (array_unfold p n element_type) as [l e] eqn:E.
    intros [= <- <-] [= Hl]. now rewrite (IH _ _ _ E Hl).
Qed.

Lemma array_unfold_app p n m qt lengths element :
  array_unfold p n qt = (lengths, element) →
  List.length lengths = n →
  array_unfold p (n + m) qt
  = (lengths ++ fst (array_unfold p m element),
     snd (array_unfold p m element)).
Proof.
  revert qt lengths element.
  induction n as [|n IH]; intros qt lengths element; cbn [array_unfold].
  { intros [= <- <-] _. cbn. now destruct (array_unfold p m qt). }
  cbn [Nat.add array_unfold].
  destruct (drgn_type_lookup p (type qt)) as [[]|];
    try (intros [= <- <-]; discriminate).
  - destruct (array_unfold p n element_type) as [l e] eqn:E.
    intros [= <- <-] [= Hl]. now rewrite (IH _ _ _ E Hl).
  - destruct (array_unfold p n element_type) as [l e] eqn:E.
    intros [= <- <-] [= Hl]. now rewrite (IH _ _ _ E Hl).
Qed.

Lemma decoded_lengths_snoc cbia dimensions dimension :
  dimensions ≠ [] →
  decoded_lengths cbia (dimensions ++ [dimension])
  = decoded_lengths cbia dimensions ++ [dimension_length false cbia dimension].
Proof.
  destruct dimensions as [|d ds]; [done|]. intros _. cbn.
  now rewrite map_app.
Qed.

Lemma decoded_lengths_length cbia dimensions :
  List.length (decoded_lengths cbia dimensions) = List.length dimensions.
Proof. destruct dimensions; cbn; [done|]. now rewrite length_map. Qed.

(** The do-while loop: [dimension] and [dimensions] are the dimensions
    still to wrap around [element_type], the innermost first. *)
Lemma array_type_loop_unfold lang cbia dimensions :
  ∀ dimension element_type c t c',
    array_type_loop lang cbia dimension dimensions element_type c
    = (Ok t, c') →
    (∃ ty, creates c c' t ty ∧
           ((∃ et len, ty = T_array et len lang) ∨
            (∃ et, ty = T_incomplete_array et lang))) ∧
    array_unfold (prog c') (S (List.length dimensions))
      {| type := t; qualifiers := 0 |}
    = (decoded_lengths cbia (rev (dimension :: dimensions)), element_type).
Proof.
  induction dimensions as [|d' ds IH]; intros d et c t c' H;
    cbn [array_type_loop] in H;
    apply bind_Ok in H as (t0 & c1 & Hcreate & H).
  - apply ret_Ok in H as [-> ->].
    assert (Hc : ∃ ty, drgn_type_create ty c = (Ok t0, c1) ∧
              ((∃ len, ty = T_array et len lang ∧
                       Some len = dimension_length true cbia d) ∨
               ty = T_incomplete_array et lang ∧
               None = dimension_length true cbia d)).
    { unfold dimension_length. destruct (is_complete d) eqn:Ecomplete.
      - eexists. split; [exact Hcreate|]. left.
        exists (length d). now split.
      - rewrite bool_decide_eq_true_2 in Hcreate by done.
        cbn [negb orb andb] in *. destruct cbia; cbn [negb] in *.
        + eexists. split; [exact Hcreate|]. now right.
        + eexists. split; [exact Hcreate|]. left. exists 0. now split. }
    destruct Hc as (ty & Hty & Hshape).
    pose proof (creates_intro c c ty t0 c1 (store_grows_refl c) Hty)
      as Hcreates.
    pose proof (creates_lookup _ _ _ _ Hcreates) as Hlookup.
    split.
    + exists ty. split; [exact Hcreates|].
      destruct Hshape as [(len & -> & _)|(-> & _)];
        [left; now eexists _, _|right; now eexists].
    + cbn [array_unfold List.length type rev app decoded_lengths List.map].
      rewrite Hlookup.
      destruct Hshape as [(len & -> & <-)|(-> & <-)]; reflexivity.
  - destruct (IH _ _ _ _ _ H) as [(ty & Hcreates & Hshape) Hunfold].
    assert (Hc : ∃ len, drgn_type_create (T_array et len lang) c
                        = (Ok t0, c1) ∧
                        Some len = dimension_length false cbia d).
    { unfold dimension_length. destruct (is_complete d).
      - exists (length d). now split.
      - rewrite bool_decide_eq_false_2 in Hcreate by done.
        cbn [negb orb andb] in *. exists 0. now split. }
    destruct Hc as (len & Hty & Hlen).
    pose proof (creates_intro c c _ t0 c1 (store_grows_refl c) Hty)
      as Hcreates0.
    pose proof (creates_grows _ _ _ _ Hcreates0) as Hgrows0.
    pose proof (creates_grows _ _ _ _ Hcreates) as Hgrows1.
    split.
    + exists ty. split; [now apply (creates_after c c1)|exact Hshape].
    + replace (S (List.length (d' :: ds)))
        with (S (List.length ds) + 1)%nat by (cbn; lia).
      rewrite (array_unfold_app _ _ 1 _ _ _ Hunfold).
      2: { rewrite decoded_lengths_length, length_rev. reflexivity. }
      cbn [array_unfold type].
      rewrite (lookup_grows (prog c1) (prog c') t0 _
                 (creates_lookup _ _ _ _ Hcreates0) Hgrows1).
      cbn [fst snd].
      change (rev (d :: d' :: ds)) with (rev (d' :: ds) ++ [d]).
      rewrite decoded_lengths_snoc.
      2: { cbn [rev]. intros Hnil. now apply app_eq_nil in Hnil as [_ [=]]. }
      now rewrite <- Hlen.
Qed.

Lemma drgn_type_kind_of_lookup p h ty :
  drgn_type_lookup p h = Some ty → drgn_type_kind_of p h = type_kind ty.
Proof. unfold drgn_type_kind_of. intros ->. now destruct ty. Qed.

Lemma wrap64_signed64 z : wrap64 (signed64 z) = wrap64 z.
Proof.
  unfold signed64. pose proof (wrap64_range z) as Hr.
  destruct (wrap64 z <? 2 ^ 63).
  - now apply wrap64_small.
  - unfold wrap64 at 1.
    replace (wrap64 z - 2 ^ 64) with (wrap64 z + (-1) * 2 ^ 64) by lia.
    rewrite Z_mod_plus_full. now apply Z.mod_small.
Qed.

Lemma parse_enumerator_Ok child builder is_signed builder' is_signed' :
  parse_enumerator child builder is_signed = Ok (builder', is_signed') →
  ∃ enumerator,
    enumerator_of child = Some enumerator ∧
    builder' = builder ++ [enumerator] ∧
    is_signed' = is_signed || enumerator_is_negative child.
Proof.
  unfold parse_enumerator, enumerator_of, enumerator_is_negative,
    other_error.
  destruct (dwarf_diename child) as [name|]; [|discriminate].
  destruct (dwarf_attr_integrate child DW_AT_const_value) as [attr|];
    [|discriminate].
  unfold dwarf_formsdata, dwarf_formudata, is_DW_FORM_sdata,
    is_DW_FORM_implicit_const.
  destruct (form attr) as [u|s|s|str|target|b|data|];
    cbn [orb andb]; try discriminate.
  - intros [= <- <-]. eexists. split; [reflexivity|].
    split; [reflexivity|]. now rewrite orb_false_r.
  - intros [= <- <-]. eexists. split; [reflexivity|].
    rewrite wrap64_signed64. split; [reflexivity|].
    now destruct (signed64 s <? 0), is_signed.
  - intros [= <- <-]. eexists. split; [reflexivity|].
    rewrite wrap64_signed64. split; [reflexivity|].
    now destruct (signed64 s <? 0), is_signed.
Qed.

Lemma enum_children_loop_Ok children :
  ∀ builder is_signed builder' is_signed',
    enum_children_loop children builder is_signed
    = Ok (builder', is_signed') →
    let enumerators :=
      List.filter
        (fun child => bool_decide (dwarf_tag child = DW_TAG_enumerator))
        children in
    Forall2 (fun child enumerator => enumerator_of child = Some enumerator)
      enumerators (drop (List.length builder) builder') ∧
    take (List.length builder) builder' = builder ∧
    is_signed' = is_signed || existsb enumerator_is_negative enumerators.
Proof.
  induction children as [|child children IH];
    intros builder is_signed builder' is_signed';
    cbn [enum_children_loop List.filter].
  - intros [= <- <-]. cbn. rewrite drop_all, firstn_all, orb_false_r.
    repeat split. constructor.
  - destruct (bool_decide (dwarf_tag child = DW_TAG_enumerator)).
    + destruct (parse_enumerator child builder is_signed)
        as [[b1 s1]| |] eqn:Eparse; cbn [res_bind]; try discriminate.
      apply parse_enumerator_Ok in Eparse as (e & He & -> & ->).
      intros H. apply IH in H as (Hall & Htake & ->). cbv zeta.
      rewrite length_app in Hall, Htake. cbn [List.length] in Hall, Htake.
      assert (Hb : builder' = builder ++ e :: drop (List.length builder + 1)
                                                 builder').
      { rewrite <- (take_drop (List.length builder + 1) builder') at 1.
        rewrite Htake, <- app_assoc. reflexivity. }
      split; [|split].
      * rewrite Hb at 1. rewrite drop_app_length. now constructor.
      * rewrite Hb. now rewrite take_app_length.
      * cbn [existsb]. now rewrite orb_assoc.
    + apply IH.
Qed.

Section Created.

Variable img : debug_info.
Variable rec : resolver.
Hypothesis rec_grows :
  ∀ die cbia iia c r c', rec die cbia iia c = (r, c') → store_grows c c'.

Lemma rec_sound_grows die cbia iia :
  True → sound (fun _ => True) store_grows True (fun _ => True)
           (rec die cbia iia).
Proof. intros _ c r c' _ H. split; [now apply rec_grows in H|done]. Qed.

Ltac grows_by lem :=
  let c := fresh "c" in let r := fresh "r" in let c' := fresh "c'" in
  let H := fresh "H" in let Hs := fresh "Hs" in
  intros c r c' H;
  match type of H with
  | ?m c = _ =>
      assert (Hs : sound (fun _ => True) store_grows True (fun _ => True) m);
      [ eapply lem with (P := fun _ : Dwarf_Die => True);
        eauto using store_grows_refl, store_grows_trans, store_grows_create,
          rec_sound_grows;
        try done
      | exact (proj1 (Hs c r c' I H)) ]
  end.

Lemma child_grows die parent_lang tag_name can_be_void cbia iia :
  ∀ c r c',
    drgn_type_from_dwarf_child img rec die parent_lang tag_name can_be_void
      cbia iia c = (r, c') →
    store_grows c c'.
Proof. grows_by sound_drgn_type_from_dwarf_child. Qed.

Lemma created_typedef die lang cbia iia0 c t b c' :
  drgn_typedef_type_from_dwarf img rec die lang cbia iia0 c
  = (Ok (t, b), c') →
  ∃ name aliased_type,
    dwarf_diename die = Some name ∧
    creates c c' t (T_typedef name aliased_type lang).
Proof.
  unfold drgn_typedef_type_from_dwarf.
  destruct (dwarf_diename die) as [name|]; [|discriminate].
  intros H. apply bind_Ok in H as ([aliased r] & c1 & Hchild & H).
  apply bind_Ok in H as (t' & c2 & Hcreate & H).
  apply ret_Ok in H as [[= -> ->] ->].
  exists name, aliased. split; [reflexivity|].
  apply (creates_intro c c1); [|exact Hcreate].
  now apply child_grows in Hchild.
Qed.

Lemma created_pointer die lang c t c' :
  drgn_pointer_type_from_dwarf img rec die lang c = (Ok t, c') →
  ∃ referenced_type size,
    creates c c' t (T_pointer referenced_type size lang).
Proof.
  unfold drgn_pointer_type_from_dwarf.
  intros H. apply bind_Ok in H as ([referenced r] & c1 & Hchild & H).
  apply bind_Ok in H as (size & c2 & Hsize & Hcreate).
  exists referenced, size.
  apply (creates_intro c c2); [|exact Hcreate].
  apply child_grows in Hchild.
  assert (c2 = c1) as ->; [|exact Hchild].
  destruct (dwarf_attr_integrate die DW_AT_byte_size) as [attr|].
  - destruct (dwarf_formudata attr); [|discriminate].
    now apply ret_Ok in Hsize as [_ ->].
  - apply bind_Ok in Hsize as (p & c3 & [= <- <-] & Hsize).
    now apply lift_Ok in Hsize as [_ ->].
Qed.

Lemma created_function die lang c t c' :
  drgn_function_type_from_dwarf img rec die lang c = (Ok t, c') →
  ∃ return_type parameters is_variadic,
    creates c c' t (T_function return_type parameters is_variadic lang).
Proof.
  unfold drgn_function_type_from_dwarf. cbv zeta.
  intros H. apply bind_Ok in H as ([builder is_variadic] & c1 & Hloop & H).
  apply lift_Ok in Hloop as [_ ->].
  destruct (die_children_error die); [discriminate|].
  apply bind_Ok in H as ([return_type r] & c2 & Hchild & Hcreate).
  exists return_type, builder, is_variadic.
  apply (creates_intro c c2); [|exact Hcreate].
  now apply child_grows in Hchild.
Qed.

Lemma created_base die lang c t c' :
  drgn_base_type_from_dwarf img rec die lang c = (Ok t, c') →
  ∃ name encoding attr,
    dwarf_diename die = Some name ∧
    dwarf_attr_integrate die DW_AT_encoding = Some attr ∧
    dwarf_formudata attr = Some encoding ∧
    let size := wrap64 (dwarf_bytesize die) in
    (encoding = DW_ATE_boolean ∧ creates c c' t (T_bool name size lang) ∨
     encoding = DW_ATE_float ∧ creates c c' t (T_float name size lang) ∨
     (encoding = DW_ATE_signed ∨ encoding = DW_ATE_signed_char) ∧
     creates c c' t (T_int name size true lang) ∨
     (encoding = DW_ATE_unsigned ∨ encoding = DW_ATE_unsigned_char) ∧
     creates c c' t (T_int name size false lang) ∨
     encoding = DW_ATE_complex_float ∧
     ∃ real_type, creates c c' t (T_complex name size real_type lang)).
Proof.
  unfold drgn_base_type_from_dwarf.
  destruct (dwarf_diename die) as [name|]; [|discriminate].
  destruct (dwarf_attr_integrate die DW_AT_encoding) as [attr|];
    [|discriminate].
  destruct (dwarf_formudata attr) as [encoding|] eqn:Eenc; [|discriminate].
  cbv zeta.
  destruct (dwarf_bytesize die =? -1); [discriminate|].
  intros H. exists name, encoding, attr.
  split; [done|]. split; [done|]. split; [done|]. cbv zeta.
  destruct (encoding =? DW_ATE_boolean) eqn:E1.
  { apply Z.eqb_eq in E1. left. split; [done|].
    now apply (creates_intro c c); [apply store_grows_refl|]. }
  destruct (encoding =? DW_ATE_float) eqn:E2.
  { apply Z.eqb_eq in E2. right; left. split; [done|].
    now apply (creates_intro c c); [apply store_grows_refl|]. }
  destruct ((encoding =? DW_ATE_signed) || (encoding =? DW_ATE_signed_char))
    eqn:E3.
  { apply orb_true_iff in E3. rewrite !Z.eqb_eq in E3.
    right; right; left. split; [done|].
    now apply (creates_intro c c); [apply store_grows_refl|]. }
  destruct ((encoding =? DW_ATE_unsigned)
            || (encoding =? DW_ATE_unsigned_char)) eqn:E4.
  { apply orb_true_iff in E4. rewrite !Z.eqb_eq in E4.
    right; right; right; left. split; [done|].
    now apply (creates_intro c c); [apply store_grows_refl|]. }
  destruct (encoding =? DW_ATE_complex_float) eqn:E5; [|discriminate].
  apply Z.eqb_eq in E5. right; right; right; right. split; [done|].
  destruct (dwarf_type img die) as [[child|]|]; try discriminate.
  apply bind_Ok in H as (real_type & c1 & Hreal & H).
  apply bind_Ok in H as (p & c2 & [= <- <-] & H).
  destruct (negb _ && negb _); [discriminate|].
  exists (type real_type).
  apply (creates_intro c c1); [|exact H].
  unfold drgn_type_from_dwarf in Hreal.
  apply bind_Ok in Hreal as ([qt r] & c3 & Hrec & Hret).
  apply ret_Ok in Hret as [_ ->]. now apply rec_grows in Hrec.
Qed.

Lemma created_array die lang cbia c t b c' :
  drgn_array_type_from_dwarf img rec die lang cbia c = (Ok (t, b), c') →
  ∃ ty, creates c c' t ty ∧ type_kind ty = DRGN_TYPE_ARRAY.
Proof.
  unfold drgn_array_type_from_dwarf.
  intros H. apply bind_Ok in H as (dims & c0 & Hdims & H).
  apply lift_Ok in Hdims as [_ ->].
  destruct (die_children_error die); [discriminate|].
  cbv zeta in H.
  apply bind_Ok in H as ([element_type iia] & c1 & Hchild & H).
  apply bind_Ok in H as (t' & c2 & Hloop & H).
  apply ret_Ok in H as [[= -> ->] ->].
  destruct (rev _) as [|d rest]; [discriminate|].
  apply array_type_loop_unfold in Hloop as [(ty & Hcreates & Hshape) _].
  exists ty. split.
  - apply (creates_after c c1); [|exact Hcreates].
    now apply child_grows in Hchild.
  - now destruct Hshape as [(et & len & ->)|(et & ->)].
Qed.

Lemma parse_member_grows die little_endian cbia builder :
  ∀ c r c',
    parse_member img rec die little_endian cbia builder c = (r, c') →
    store_grows c c'.
Proof. grows_by sound_parse_member. Qed.

Lemma parse_members_as_specified_grows little_endian kind members :
  ∀ n builder c r c',
    parse_members_as_specified img rec little_endian kind n members builder c
    = (r, c') →
    store_grows c c'.
Proof.
  induction members as [|m members IH]; intros n builder c r c';
    cbn [parse_members_as_specified].
  { intros [= <- <-]. apply store_grows_refl. }
  destruct members as [|m' members].
  { apply parse_member_grows. }
  unfold bind at 1.
  destruct (parse_member img rec m little_endian false builder c)
    as [[b| |] c1] eqn:E; apply parse_member_grows in E.
  - intros H. apply IH in H. now apply store_grows_trans with c1.
  - now intros [= <- <-].
  - now intros [= <- <-].
Qed.

Lemma drgn_compound_type_from_dwarf_complete_unfold die lang kind dw_tag_str
    tag c :
  die_children_error die = false →
  drgn_compound_type_from_dwarf_complete img rec die lang kind dw_tag_str
    tag c
  = (if dwarf_bytesize die =? -1 then
       lift (other_error
               (dw_tag_str +:+ " has missing or invalid DW_AT_byte_size"))
     else
       do builder <-
         parse_members_as_specified img rec (die_elf_lsb die) kind 0
           (member_children die) (mk_compound_builder kind []);
       drgn_type_create
         (T_compound kind tag (wrap64 (dwarf_bytesize die))
            (builder_members builder) lang)) c.
Proof.
  intros Herror.
  unfold drgn_compound_type_from_dwarf_complete. cbv zeta.
  destruct (dwarf_bytesize die =? -1); [done|].
  rewrite Herror.
  change (match dwarf_die_is_little_endian die false with
          | Ok little_endian => little_endian
          | _ => false
          end) with (die_elf_lsb die).
  pose proof (compound_children_loop_as_specified img rec (die_elf_lsb die)
                kind (die_children die) None (mk_compound_builder kind [])
                c) as Hloop.
  change (option_list None ++
          List.filter
            (fun child => bool_decide (dwarf_tag child = DW_TAG_member))
            (die_children die)) with (member_children die) in Hloop.
  cbn [builder_members List.length] in Hloop.
  rewrite (bind_ext _ _ _ c (eq_sym Hloop)), bind_assoc.
  apply bind_ext_r. intros [member builder] c1 _. reflexivity.
Qed.

Lemma compound_complete_children_error die lang kind dw_tag_str tag c t c' :
  drgn_compound_type_from_dwarf_complete img rec die lang kind dw_tag_str
    tag c = (Ok t, c') →
  die_children_error die = false.
Proof.
  unfold drgn_compound_type_from_dwarf_complete. cbv zeta.
  destruct (dwarf_bytesize die =? -1); [discriminate|].
  intros H. apply bind_Ok in H as ([member builder] & c1 & _ & H).
  now destruct (die_children_error die).
Qed.

Lemma created_compound_complete die lang kind dw_tag_str tag c t c' :
  drgn_compound_type_from_dwarf_complete img rec die lang kind dw_tag_str
    tag c = (Ok t, c') →
  ∃ members,
    creates c c' t
      (T_compound kind tag (wrap64 (dwarf_bytesize die)) members lang).
Proof.
  intros H.
  pose proof (compound_complete_children_error _ _ _ _ _ _ _ _ H) as Herror.
  rewrite (drgn_compound_type_from_dwarf_complete_unfold _ _ _ _ _ _ Herror)
    in H.
  destruct (dwarf_bytesize die =? -1); [discriminate|].
  apply bind_Ok in H as (builder & c1 & Hmembers & Hcreate).
  exists (builder_members builder).
  apply (creates_intro c c1); [|exact Hcreate].
  now apply parse_members_as_specified_grows in Hmembers.
Qed.

Lemma created_compound die lang kind c t c' :
  dwarf_attr_integrate die DW_AT_declaration = None →
  drgn_compound_type_from_dwarf img rec die lang kind c = (Ok t, c') →
  ∃ tag members,
    creates c c' t
      (T_compound kind tag (wrap64 (dwarf_bytesize die)) members lang).
Proof.
  intros Hdecl. unfold drgn_compound_type_from_dwarf, dwarf_flag.
  rewrite Hdecl.
  destruct (compound_dw_tag kind) as [[dw_tag_str dw_tag]|]; [|discriminate].
  intros H. apply bind_Ok in H as (tag & c1 & Htag & H).
  apply lift_Ok in Htag as [_ ->]. exists tag.
  cbv zeta in H.
  assert (H' : drgn_compound_type_from_dwarf_complete img rec die lang kind
                 dw_tag_str tag c = (Ok t, c')) by now destruct tag.
  now apply created_compound_complete in H'.
Qed.

Lemma created_enum die lang c t c' :
  dwarf_flag die DW_AT_declaration = Some false →
  drgn_enum_type_from_dwarf img rec die lang c = (Ok t, c') →
  ∃ tag compatible_type enumerators is_signed,
    enum_children_loop (die_children die) [] false
    = Ok (enumerators, is_signed) ∧
    creates c c' t (T_enum tag compatible_type enumerators lang) ∧
    drgn_type_kind_of (prog c') compatible_type = DRGN_TYPE_INT ∧
    (dwarf_attr_integrate die DW_AT_type = None →
     drgn_type_lookup (prog c') compatible_type
     = Some (T_int "<unknown>" (wrap64 (dwarf_bytesize die)) is_signed
               lang)).
Proof.
  intros Hdecl. unfold drgn_enum_type_from_dwarf. rewrite Hdecl.
  intros H. apply bind_Ok in H as (tag & c1 & Htag & H).
  apply lift_Ok in Htag as [_ ->]. cbv zeta in H.
  assert (H' :
    (do (builder, is_signed) <-
       lift (enum_children_loop (die_children die) [] false);
     if die_children_error die then
       lift (other_error "libdw could not parse DIE children")
     else
       do compatible_type <-
         match dwarf_type img die with
         | Some None =>
             lift (other_error
                     "DW_TAG_enumeration_type has invalid DW_AT_type")
         | None => enum_compatible_type_fallback die is_signed lang
         | Some (Some child) =>
             do qualified_compatible_type <- drgn_type_from_dwarf rec child;
             do p <- gets prog;
             let compatible_type := type qualified_compatible_type in
             if negb (bool_decide (drgn_type_kind_of p compatible_type
                                   = DRGN_TYPE_INT)) then
               lift (other_error
                       "DW_AT_type of DW_TAG_enumeration_type is not an integer type")
             else ret compatible_type
         end;
       drgn_type_create (T_enum tag compatible_type builder lang)) c
    = (Ok t, c')) by now destruct tag.
  clear H.
  apply bind_Ok in H' as ([enumerators is_signed] & c1 & Hloop & H).
  apply lift_Ok in Hloop as [Hloop ->].
  destruct (die_children_error die); [discriminate|].
  apply bind_Ok in H as (compatible_type & c2 & Hct & Hcreate).
  exists tag, compatible_type, enumerators, is_signed.
  split; [exact Hloop|].
  assert (Hct' : store_grows c c2 ∧
    ∃ ty, drgn_type_lookup (prog c2) compatible_type = Some ty ∧
          type_kind ty = DRGN_TYPE_INT ∧
          (dwarf_attr_integrate die DW_AT_type = None →
           ty = T_int "<unknown>" (wrap64 (dwarf_bytesize die)) is_signed
                  lang)).
  { unfold dwarf_type in Hct.
    destruct (dwarf_attr_integrate die DW_AT_type) as [attr|].
    - destruct (dwarf_formref_die img attr) as [child|]; [|discriminate].
      apply bind_Ok in Hct as (qct & c3 & Hrec & Hct).
      apply bind_Ok in Hct as (p & c4 & [= <- <-] & Hct).
      destruct (bool_decide _) eqn:Ekind; [|discriminate].
      apply bool_decide_eq_true in Ekind.
      apply ret_Ok in Hct as [-> ->].
      split.
      { unfold drgn_type_from_dwarf in Hrec.
        apply bind_Ok in Hrec as ([qt r] & c5 & Hrec & Hret).
        apply ret_Ok in Hret as [_ ->]. now apply rec_grows in Hrec. }
      unfold drgn_type_kind_of in Ekind.
      destruct (drgn_type_lookup (prog c3) (type qct)) as [ty|];
        [|discriminate].
      exists ty. split; [reflexivity|]. split; [now destruct ty|].
      discriminate.
    - unfold enum_compatible_type_fallback in Hct. cbv zeta in Hct.
      destruct (dwarf_bytesize die =? -1); [discriminate|].
      pose proof (creates_intro c c _ _ _ (store_grows_refl c) Hct) as Hc.
      split; [now apply creates_grows in Hc|].
      eexists. split; [exact (creates_lookup _ _ _ _ Hc)|]. now split. }
  destruct Hct' as (Hgrows & ty & Hlookup & Hkind & Hfallback).
  pose proof (creates_intro c c2 _ _ _ Hgrows Hcreate) as Hcreates.
  split; [exact Hcreates|].
  assert (Hlookup' : drgn_type_lookup (prog c') compatible_type = Some ty).
  { apply (lookup_grows (prog c2)); [exact Hlookup|].
    injection Hcreate as _ <-. now exists [T_enum tag compatible_type enumerators lang]. }
  split.
  - now rewrite (drgn_type_kind_of_lookup _ _ _ Hlookup').
  - intros Hnone. now rewrite Hlookup', (Hfallback Hnone).
Qed.

(** What [dispatch] returns for a DIE that stands for a type of its own and
    is not a declaration. *)
Lemma dispatch_creates die lang cbia kind c qualified_type
    is_incomplete_array c' :
  kind_of_die die = Some kind →
  dwarf_attr_integrate die DW_AT_declaration = None →
  dispatch img rec die lang cbia c
  = (Ok (qualified_type, is_incomplete_array), c') →
  qualifiers qualified_type = 0 ∧
  ∃ ty, creates c c' (type qualified_type) ty ∧ type_kind ty = kind.
Proof.
  unfold kind_of_die, dispatch, unqualified. cbv zeta.
  intros Hkind Hdecl H.
  destruct (dwarf_tag die); try discriminate;
    apply bind_Ok in H as (x & c1 & H & Hret);
    try match goal with
        | x : (type_handle * bool)%type |- _ => destruct x as [x b0]
        end;
    apply ret_Ok in Hret as [Heq ->]; injection Heq as -> ->;
    cbn [type qualifiers]; (split; [reflexivity|]).
  - injection Hkind as <-. now apply created_array in H.
  - injection Hkind as <-.
    apply created_compound in H as (tag & members & H); [|done].
    eexists; split; [exact H|reflexivity].
  - injection Hkind as <-.
    apply created_enum in H as (tag & ct & ens & s & _ & H & _);
      [|unfold dwarf_flag; now rewrite Hdecl].
    eexists; split; [exact H|reflexivity].
  - injection Hkind as <-.
    apply created_pointer in H as (rt & size & H).
    eexists; split; [exact H|reflexivity].
  - injection Hkind as <-.
    apply created_compound in H as (tag & members & H); [|done].
    eexists; split; [exact H|reflexivity].
  - injection Hkind as <-.
    apply created_function in H as (rt & ps & v & H).
    eexists; split; [exact H|reflexivity].
  - injection Hkind as <-.
    apply created_typedef in H as (name & at_ & _ & H).
    eexists; split; [exact H|reflexivity].
  - injection Hkind as <-.
    apply created_compound in H as (tag & members & H); [|done].
    eexists; split; [exact H|reflexivity].
  - apply created_base in H
      as (name & encoding & attr & _ & Hattr & Henc & H).
    rewrite Hattr, Henc in Hkind. cbv zeta in H.
    destruct H as [[-> H]|[[-> H]|[[He H]|[[He H]|[-> [rt H]]]]]].
    + injection Hkind as <-. eexists; split; [exact H|reflexivity].
    + injection Hkind as <-. eexists; split; [exact H|reflexivity].
    + assert (kind = DRGN_TYPE_INT) as ->
        by (destruct He as [-> | ->]; now injection Hkind).
      eexists; split; [exact H|reflexivity].
    + assert (kind = DRGN_TYPE_INT) as ->
        by (destruct He as [-> | ->]; now injection Hkind).
      eexists; split; [exact H|reflexivity].
    + injection Hkind as <-. eexists; split; [exact H|reflexivity].
  - injection Hkind as <-.
    apply created_function in H as (rt & ps & v & H).
    eexists; split; [exact H|reflexivity].
Qed.

End Created.

Section Arrays.

Variable img : debug_info.
Variable rec : resolver.

(** X4.  When [drgn_array_type_from_dwarf] succeeds, the type it returns is
    a nest of array types, one for each dimension of the DIE, the outermost
    first, around the type that the DW_AT_type of the DIE resolves to.  A
    dimension that has a length gets it; one that has none gets the length
    zero, except the outermost one when [can_be_incomplete_array] is set,
    which gets an incomplete array type.  [is_incomplete_array] tells that
    the outermost dimension has no length. *)
Theorem array_type_has_decoded_dimensions die lang cbia c t
    is_incomplete_array c' :
  drgn_array_type_from_dwarf img rec die lang cbia c
  = (Ok (t, is_incomplete_array), c') →
  ∃ dimensions element_type iia c1,
    array_dimensions die = Ok dimensions ∧
    drgn_type_from_dwarf_child img rec die
      (Some (drgn_language_or_default lang)) "DW_TAG_array_type" false false
      None c
    = (Ok (element_type, iia), c1) ∧
    array_unfold (prog c') (List.length dimensions)
      {| type := t; qualifiers := 0 |}
    = (decoded_lengths cbia dimensions, element_type) ∧
    is_incomplete_array
    = negb (is_complete (hd uninitialized_dimension dimensions)).
Proof.
  unfold drgn_array_type_from_dwarf, array_dimensions.
  intros H. apply bind_Ok in H as (dims & c0 & Hdims & H).
  apply lift_Ok in Hdims as [Hdims ->]. rewrite Hdims. cbn [res_bind].
  destruct (die_children_error die); [discriminate|].
  cbv zeta in H.
  set (dimensions := match dims with
                     | [] => [{| length := length uninitialized_dimension;
                                 is_complete := false |}]
                     | _ => dims
                     end) in *.
  apply bind_Ok in H as ([element_type iia] & c1 & Hchild & H).
  apply bind_Ok in H as (t' & c2 & Hloop & H).
  apply ret_Ok in H as [[= -> ->] ->].
  exists dimensions, element_type, iia, c1.
  split; [reflexivity|]. split; [exact Hchild|]. split; [|reflexivity].
  destruct (rev dimensions) as [|d rest] eqn:Erev; [discriminate|].
  apply array_type_loop_unfold in Hloop as [_ Hunfold].
  rewrite <- Erev, rev_involutive in Hunfold.
  replace (List.length dimensions) with (S (List.length rest)).
  - exact Hunfold.
  - rewrite <- (length_rev dimensions), Erev. reflexivity.
Qed.

End Arrays.

Lemma array_type_has_decoded_dimensions_witness :
  let c' :=
    snd (drgn_array_type_from_dwarf sample_image
           (drgn_type_from_dwarf_internal sample_image) matrix_die None true
           empty_cache) in
  ∃ dimensions element_type iia c1,
    array_dimensions matrix_die = Ok dimensions ∧
    drgn_type_from_dwarf_child sample_image
      (drgn_type_from_dwarf_internal sample_image) matrix_die
      (Some (drgn_language_or_default None)) "DW_TAG_array_type" false false
      None empty_cache
    = (Ok (element_type, iia), c1) ∧
    array_unfold (prog c') (List.length dimensions)
      {| type := created_type 2; qualifiers := 0 |}
    = (decoded_lengths true dimensions, element_type) ∧
    false = negb (is_complete (hd uninitialized_dimension dimensions)).
Proof.
  apply (array_type_has_decoded_dimensions sample_image
           (drgn_type_from_dwarf_internal sample_image) matrix_die None true
           empty_cache (created_type 2) false).
  vm_compute. reflexivity.
Defined.

(** ** The kind of the type a DIE resolves to *)

Lemma insert_searched_prog restricted key value c :
  prog (snd (dwarf_type_map_insert_searched restricted key value c))
  = prog c.
Proof.
  unfold dwarf_type_map_insert_searched.
  now destruct (hd false (insert_enomem c)), restricted.
Qed.

Lemma resolve_fuel_grows img fuel :
  ∀ die cbia iia c r c',
    resolve_fuel img fuel die cbia iia c = (r, c') → store_grows c c'.
Proof. intros. now apply resolve_fuel_store_grows in H. Qed.

(** X5.  A successful call on a DIE that the primary map does not hold and
    that has no DW_AT_declaration returns an unqualified type of the kind
    its tag stands for (for DW_TAG_base_type: its DW_AT_encoding), when the
    tag is that of a base type, a structure, a union, a class, an
    enumeration, a typedef, a pointer, an array or a function. *)
Theorem resolved_kind_matches_tag img die cbia iia c kind qualified_type
    iia' c' :
  kind_of_die die = Some kind →
  dwarf_attr_integrate die DW_AT_declaration = None →
  map c !! die_addr die = None →
  drgn_type_from_dwarf_internal img die cbia iia c
  = (Ok (qualified_type, iia'), c') →
  drgn_type_kind_of (prog c') (type qualified_type) = kind ∧
  qualifiers qualified_type = 0.
Proof.
  intros Hkind Hdecl Hmap H.
  destruct (miss_inversion _ _ _ _ _ _ _ _ Hmap H)
    as (_ & lang & is_incomplete_array & cd & _ & Hdisp & _ & _ & ->).
  apply (dispatch_creates img _ (resolve_fuel_grows img _) _ _ _ kind)
    in Hdisp as (Hq & ty & Hcreates & Hty); [|done|done].
  split; [|exact Hq].
  rewrite insert_searched_prog. cbn [prog set_depth].
  rewrite (drgn_type_kind_of_lookup _ _ ty); [exact Hty|].
  exact (creates_lookup _ _ _ _ Hcreates).
Qed.

Lemma resolved_kind_matches_tag_witness :
  drgn_type_kind_of
    (prog (snd (drgn_type_from_dwarf_internal sample_image
                  incomplete_array_die false None empty_cache)))
    (created_type 1)
  = DRGN_TYPE_ARRAY.
Proof.
  refine (proj1 (resolved_kind_matches_tag sample_image incomplete_array_die
                   false None empty_cache DRGN_TYPE_ARRAY
                   {| type := created_type 1; qualifiers := 0 |} None
                   _ _ _ _ _)).
  - reflexivity.
  - reflexivity.
  - reflexivity.
  - vm_compute. reflexivity.
Defined.





(** ** Enumerations and their enumerators *)

Lemma enumerator_children_enumerators die enumerators is_signed :
  enum_children_loop (die_children die) [] false
  = Ok (enumerators, is_signed) →
  Forall2 (fun child enumerator => enumerator_of child = Some enumerator)
    (enumerator_children die) enumerators ∧
  is_signed = existsb enumerator_is_negative (enumerator_children die).
Proof.
  intros H. apply enum_children_loop_Ok in H as (Hall & _ & Hs).
  cbn [List.length] in Hall. rewrite drop_0 in Hall. now split.
Qed.

Lemma internal_enum img die cbia iia c qualified_type iia' c' :
  dwarf_tag die = DW_TAG_enumeration_type →
  dwarf_flag die DW_AT_declaration = Some false →
  map c !! die_addr die = None →
  drgn_type_from_dwarf_internal img die cbia iia c
  = (Ok (qualified_type, iia'), c') →
  ∃ lang tag compatible_type enumerators,
    drgn_language_from_die die = Ok lang ∧
    drgn_type_lookup (prog c') (type qualified_type)
    = Some (T_enum tag compatible_type enumerators lang) ∧
    Forall2 (fun child enumerator => enumerator_of child = Some enumerator)
      (enumerator_children die) enumerators ∧
    drgn_type_kind_of (prog c') compatible_type = DRGN_TYPE_INT ∧
    (dwarf_attr_integrate die DW_AT_type = None →
     drgn_type_lookup (prog c') compatible_type
     = Some (T_int "<unknown>" (wrap64 (dwarf_bytesize die))
               (existsb enumerator_is_negative (enumerator_children die))
               lang)).
Proof.
  intros Htag Hdecl Hmap H.
  destruct (miss_inversion _ _ _ _ _ _ _ _ Hmap H)
    as (_ & lang & is_incomplete_array & cd & Hlang & Hdisp & _ & _ & ->).
  unfold dispatch, unqualified in Hdisp. rewrite Htag in Hdisp.
  cbv zeta in Hdisp.
  apply bind_Ok in Hdisp as (t & c1 & Henum & Hret).
  apply ret_Ok in Hret as [[= -> ->] ->]. cbn [type].
  apply (created_enum img _ (resolve_fuel_grows img _)) in Henum
    as (tag & ct & ens & s & Hloop & Hcreates & Hkind & Hfallback);
    [|exact Hdecl].
  apply enumerator_children_enumerators in Hloop as [Hall ->].
  exists lang, tag, ct, ens. rewrite insert_searched_prog.
  cbn [prog set_depth]. split; [exact Hlang|].
  split; [exact (creates_lookup _ _ _ _ Hcreates)|]. now split.
Qed.

(** X7.  The enumeration type that a successful call makes from a
    DW_TAG_enumeration_type DIE that is not a declaration (and that the
    primary map does not hold) has one enumerator for each DW_TAG_enumerator
    child of the DIE, in their order: it has the name of the child and, as
    its 64 bits, the DW_AT_const_value of the child as [dwarf_formudata]
    reads it. *)
Theorem enumeration_has_the_enumerators_of_its_children img die cbia iia c
    qualified_type iia' c' :
  dwarf_tag die = DW_TAG_enumeration_type →
  dwarf_flag die DW_AT_declaration = Some false →
  map c !! die_addr die = None →
  drgn_type_from_dwarf_internal img die cbia iia c
  = (Ok (qualified_type, iia'), c') →
  Forall2
    (fun child enumerator =>
       dwarf_diename child = Some (enumerator_name enumerator) ∧
       ∃ attr,
         dwarf_attr_integrate child DW_AT_const_value = Some attr ∧
         dwarf_formudata attr = Some (enumerator_uvalue enumerator))
    (enumerator_children die)
    (drgn_type_enumerators (prog c') (type qualified_type)).
Proof.
  intros Htag Hdecl Hmap H.
  destruct (internal_enum _ _ _ _ _ _ _ _ Htag Hdecl Hmap H)
    as (lang & tag & ct & ens & _ & Hlookup & Hall & _).
  unfold drgn_type_enumerators. rewrite Hlookup.
  eapply Forall2_impl; [exact Hall|].
  intros child e. unfold enumerator_of.
  destruct (dwarf_diename child) as [name|]; [|discriminate].
  destruct (dwarf_attr_integrate child DW_AT_const_value) as [attr|];
    [|discriminate].
  destruct (dwarf_formudata attr) as [u|] eqn:Eu; [|discriminate].
  intros [= <-]. split; [reflexivity|]. now exists attr.
Qed.

Lemma enumeration_has_the_enumerators_of_its_children_witness :
  let c' :=
    snd (drgn_type_from_dwarf_internal sample_image color_die true None
           empty_cache) in
  Forall2
    (fun child enumerator =>
       dwarf_diename child = Some (enumerator_name enumerator) ∧
       ∃ attr,
         dwarf_attr_integrate child DW_AT_const_value = Some attr ∧
         dwarf_formudata attr = Some (enumerator_uvalue enumerator))
    (enumerator_children color_die)
    (drgn_type_enumerators (prog c') (created_type 1)).
Proof.
  apply (enumeration_has_the_enumerators_of_its_children sample_image
           color_die true None empty_cache
           {| type := created_type 1; qualifiers := 0 |} None).
  - reflexivity.
  - reflexivity.
  - reflexivity.
  - vm_compute. reflexivity.
Defined.

(** X8.  The compatible type of the enumeration type that a successful call
    makes from a DW_TAG_enumeration_type DIE that is not a declaration is of
    kind DRGN_TYPE_INT.  When the DIE has no DW_AT_type, it is the integer
    type named "<unknown>" of the byte size of the DIE, signed exactly when
    an enumerator has a DW_AT_const_value in a signed form that is
    negative. *)
Theorem enumeration_compatible_type_is_an_integer img die cbia iia c
    qualified_type iia' c' :
  dwarf_tag die = DW_TAG_enumeration_type →
  dwarf_flag die DW_AT_declaration = Some false →
  map c !! die_addr die = None →
  drgn_type_from_dwarf_internal img die cbia iia c
  = (Ok (qualified_type, iia'), c') →
  ∃ lang tag compatible_type enumerators,
    drgn_language_from_die die = Ok lang ∧
    drgn_type_lookup (prog c') (type qualified_type)
    = Some (T_enum tag compatible_type enumerators lang) ∧
    drgn_type_kind_of (prog c') compatible_type = DRGN_TYPE_INT ∧
    (dwarf_attr_integrate die DW_AT_type = None →
     drgn_type_lookup (prog c') compatible_type
     = Some (T_int "<unknown>" (wrap64 (dwarf_bytesize die))
               (existsb enumerator_is_negative (enumerator_children die))
               lang)).
Proof.
  intros Htag Hdecl Hmap H.
  destruct (internal_enum _ _ _ _ _ _ _ _ Htag Hdecl Hmap H)
    as (lang & tag & ct & ens & Hlang & Hlookup & _ & Hkind & Hfallback).
  now exists lang, tag, ct, ens.
Qed.

Lemma enumeration_compatible_type_is_an_integer_witness :
  let c' :=
    snd (drgn_type_from_dwarf_internal sample_image color_die true None
           empty_cache) in
  ∃ lang tag compatible_type enumerators,
    drgn_language_from_die color_die = Ok lang ∧
    drgn_type_lookup (prog c') (created_type 1)
    = Some (T_enum tag compatible_type enumerators lang) ∧
    drgn_type_kind_of (prog c') compatible_type = DRGN_TYPE_INT ∧
    (dwarf_attr_integrate color_die DW_AT_type = None →
     drgn_type_lookup (prog c') compatible_type
     = Some (T_int "<unknown>" (wrap64 (dwarf_bytesize color_die))
               (existsb enumerator_is_negative (enumerator_children color_die))
               lang)).
Proof.
  apply (enumeration_compatible_type_is_an_integer sample_image color_die
           true None empty_cache
           {| type := created_type 1; qualifiers := 0 |} None).
  - reflexivity.
  - reflexivity.
  - reflexivity.
  - vm_compute. reflexivity.
Defined.

Lemma enumerators_scan_find is_signed qualified_type enumerators name :
  enumerators_scan is_signed qualified_type enumerators name
  = enumerator_object is_signed qualified_type
    <$> List.find (fun e => bool_decide (enumerator_name e = name))
          enumerators.
Proof.
  induction enumerators as [|e enumerators IH];
    cbn [enumerators_scan List.find]; [reflexivity|].
  destruct (bool_decide (enumerator_name e = name)); cbn [negb];
    [|exact IH].
  unfold enumerator_object. now destruct is_signed.
Qed.

Lemma Forall2_omap_enumerator_of children enumerators :
  Forall2 (fun child enumerator => enumerator_of child = Some enumerator)
    children enumerators →
  omap enumerator_of children = enumerators.
Proof.
  induction 1 as [|child e children ens He _ IH]; [reflexivity|].
  cbn. rewrite He. f_equal. exact IH.
Qed.

Lemma hit_after_call img die cbia iia c qualified_type iia' c' :
  drgn_type_from_dwarf_internal img die cbia iia c
  = (Ok (qualified_type, iia'), c') →
  (depth c' < 1000)%nat.
Proof.
  intros H.
  pose proof (drgn_type_from_dwarf_internal_depth _ _ _ _ _ _ _ H) as Hd.
  rewrite drgn_type_from_dwarf_internal_unfold in H.
  unfold drgn_type_from_dwarf_internal_body in H. cbv beta zeta in H.
  destruct (1000 <=? depth c)%nat eqn:Eguard; [discriminate|].
  apply Nat.leb_gt in Eguard. lia.
Qed.

(** X9.  On a DW_TAG_enumeration_type DIE that is not a declaration, that
    the primary map does not hold and that resolves, the object that
    [drgn_object_from_dwarf_enumerator] returns for a name is that of the
    first DW_TAG_enumerator child of that name: its 64 bits read as signed
    if the compatible type of the enumeration is signed, and as unsigned
    otherwise.  If no child has the name, the call runs into
    [UNREACHABLE()].  When the DIE has no DW_AT_type, the compatible type is
    signed exactly when an enumerator is negative. *)
Theorem enumerator_object_is_its_constant img die name c qualified_type c' :
  dwarf_tag die = DW_TAG_enumeration_type →
  dwarf_flag die DW_AT_declaration = Some false →
  map c !! die_addr die = None →
  drgn_type_from_dwarf (drgn_type_from_dwarf_internal img) die c
  = (Ok qualified_type, c') →
  drgn_object_from_dwarf_enumerator img die name c
  = (match List.find (fun e => bool_decide (enumerator_name e = name))
             (omap enumerator_of (enumerator_children die)) with
     | Some enumerator =>
         Returns
           (Ok (enumerator_object
                  (drgn_enum_type_is_signed (prog c') (type qualified_type))
                  qualified_type enumerator))
     | None => Unreachable
     end, c') ∧
  (dwarf_attr_integrate die DW_AT_type = None →
   drgn_enum_type_is_signed (prog c') (type qualified_type)
   = existsb enumerator_is_negative (enumerator_children die)).
Proof.
  intros Htag Hdecl Hmap H.
  unfold drgn_object_from_dwarf_enumerator. rewrite H.
  unfold drgn_type_from_dwarf in H.
  apply bind_Ok in H as ([qt r] & c1 & H & Hret).
  apply ret_Ok in Hret as [-> ->].
  destruct (internal_enum _ _ _ _ _ _ _ _ Htag Hdecl Hmap H)
    as (lang & tag & ct & ens & _ & Hlookup & Hall & _ & Hfallback).
  rewrite enumerators_scan_find.
  unfold drgn_type_enumerators, drgn_enum_type_is_signed.
  rewrite Hlookup, (Forall2_omap_enumerator_of _ _ Hall).
  split.
  - now destruct (List.find _ ens).
  - intros Hnone. now rewrite (Hfallback Hnone).
Qed.

Lemma enumerator_object_is_its_constant_witness :
  let c' :=
    snd (drgn_type_from_dwarf (drgn_type_from_dwarf_internal sample_image)
           wide_enum_die empty_cache) in
  let qualified_type := {| type := created_type 1; qualifiers := 0 |} in
  drgn_object_from_dwarf_enumerator sample_image wide_enum_die "A"
    empty_cache
  = (Returns (Ok (object_signed qualified_type (-1))), c') ∧
  drgn_object_from_dwarf_enumerator sample_image wide_enum_die "B"
    empty_cache
  = (Returns (Ok (object_signed qualified_type (-1))), c') ∧
  drgn_object_from_dwarf_enumerator sample_image wide_enum_die "C"
    empty_cache
  = (Unreachable, c').
Proof.
  assert (H : ∀ name,
    drgn_object_from_dwarf_enumerator sample_image wide_enum_die name
      empty_cache
    = (match List.find (fun e => bool_decide (enumerator_name e = name))
               (omap enumerator_of (enumerator_children wide_enum_die)) with
       | Some enumerator =>
           Returns
             (Ok (enumerator_object
                    (drgn_enum_type_is_signed
                       (prog (snd (drgn_type_from_dwarf
                                     (drgn_type_from_dwarf_internal
                                        sample_image)
                                     wide_enum_die empty_cache)))
                       (created_type 1))
                    {| type := created_type 1; qualifiers := 0 |}
                    enumerator))
       | None => Unreachable
       end,
       snd (drgn_type_from_dwarf (drgn_type_from_dwarf_internal sample_image)
              wide_enum_die empty_cache))).
  { intros name.
    refine (proj1 (enumerator_object_is_its_constant sample_image
                     wide_enum_die name empty_cache
                     {| type := created_type 1; qualifiers := 0 |}
                     _ eq_refl eq_refl eq_refl _)).
    vm_compute. reflexivity. }
  cbv zeta. rewrite !H. vm_compute. repeat split.
Defined.

(** ** Function types and array dimensions *)

Lemma parse_formal_parameter_Ok img child builder builder' :
  parse_formal_parameter img child builder = Ok builder' →
  ∃ name type_die,
    optional_name child = Some name ∧
    dwarf_type img child = Some (Some type_die) ∧
    builder' = builder ++ [mk_parameter (lazy_thunk type_die true) name].
Proof.
  unfold parse_formal_parameter, optional_name, drgn_lazy_type_from_dwarf,
    dwarf_type, other_error.
  destruct (dwarf_attr_integrate child DW_AT_name) as [attr|].
  - destruct (dwarf_formstring attr) as [name|]; cbn [res_bind];
      [|discriminate].
    destruct (dwarf_attr_integrate child DW_AT_type) as [tattr|];
      [|discriminate].
    destruct (dwarf_formref_die img tattr) as [type_die|]; [|discriminate].
    cbn [res_bind]. intros [= <-]. now exists (Some name), type_die.
  - cbn [res_bind].
    destruct (dwarf_attr_integrate child DW_AT_type) as [tattr|];
      [|discriminate].
    destruct (dwarf_formref_die img tattr) as [type_die|]; [|discriminate].
    cbn [res_bind]. intros [= <-]. now exists None, type_die.
Qed.

Lemma function_children_loop_Ok img tag_name children :
  ∀ builder is_variadic builder' is_variadic',
    function_children_loop img tag_name children builder is_variadic
    = Ok (builder', is_variadic') →
    Forall2 (parameter_of img)
      (List.filter
         (fun child =>
            bool_decide (dwarf_tag child = DW_TAG_formal_parameter))
         children)
      (drop (List.length builder) builder') ∧
    take (List.length builder) builder' = builder ∧
    is_variadic'
    = is_variadic ||
      existsb
        (fun child =>
           bool_decide (dwarf_tag child = DW_TAG_unspecified_parameters))
        children ∧
    (if is_variadic then
       forallb
         (fun child =>
            negb (bool_decide (dwarf_tag child = DW_TAG_formal_parameter))
            && negb (bool_decide
                       (dwarf_tag child = DW_TAG_unspecified_parameters)))
         children
     else variadic_marker_is_last children) = true.
Proof.
  induction children as [|child children IH];
    intros builder is_variadic builder' is_variadic';
    cbn [function_children_loop List.filter existsb forallb
         variadic_marker_is_last].
  - intros [= <- <-]. rewrite drop_all, firstn_all, orb_false_r.
    split; [constructor|]. split; [done|]. split; [done|].
    now destruct builder, is_variadic.
  - destruct (dwarf_tag child) eqn:Etag;
      cbn [bool_decide decide_rel dwarf_tag_eq_dec];
      rewrite ?bool_decide_eq_true_2, ?bool_decide_eq_false_2
        by (done || discriminate);
      cbn [negb andb orb];
      try (intros H; apply IH in H as (Hall & Htake & -> & Hlast);
           repeat split; try done; fail).
    + (* DW_TAG_formal_parameter *)
      destruct is_variadic; [discriminate|].
      destruct (parse_formal_parameter img child builder) as [b1| |]
        eqn:Eparse; cbn [res_bind]; try discriminate.
      apply parse_formal_parameter_Ok in Eparse
        as (name & type_die & Hname & Htype & ->).
      intros H. apply IH in H as (Hall & Htake & -> & Hlast).
      rewrite length_app in Hall, Htake. cbn [List.length] in Hall, Htake.
      assert (Hb : builder'
                   = builder ++
                     mk_parameter (lazy_thunk type_die true) name ::
                     drop (List.length builder + 1) builder').
      { rewrite <- (take_drop (List.length builder + 1) builder') at 1.
        rewrite Htake, <- app_assoc. reflexivity. }
      split; [|split; [|split]].
      * rewrite Hb at 1. rewrite drop_app_length. constructor; [|done].
        split; [exact Hname|]. now exists type_die.
      * rewrite Hb. now rewrite take_app_length.
      * reflexivity.
      * exact Hlast.
    + (* DW_TAG_unspecified_parameters *)
      destruct is_variadic; [discriminate|].
      intros H. apply IH in H as (Hall & Htake & -> & Hlast).
      repeat split; try done.
Qed.

Section Functions.

Variable img : debug_info.
Variable rec : resolver.

(** X10.  The function type that [drgn_function_type_from_dwarf] creates
    when it succeeds has one parameter for each DW_TAG_formal_parameter
    child of the DIE, in their order: it has the name of the child, if the
    child has one, and as its type the thunk, not evaluated, of the DIE that
    the DW_AT_type of the child refers to, which may be an incomplete array.
    The type is variadic exactly when the DIE has a
    DW_TAG_unspecified_parameters child; that child then is the only one of
    its tag and no DW_TAG_formal_parameter child comes after it.  Without
    DW_AT_type the return type is [void]. *)
Theorem function_type_has_the_parameters_of_its_children die lang c t c' :
  drgn_function_type_from_dwarf img rec die lang c = (Ok t, c') →
  ∃ return_type parameters,
    drgn_type_lookup (prog c') t
    = Some (T_function return_type parameters
              (existsb
                 (fun child =>
                    bool_decide
                      (dwarf_tag child = DW_TAG_unspecified_parameters))
                 (die_children die)) lang) ∧
    Forall2 (parameter_of img) (formal_parameter_children die) parameters ∧
    variadic_marker_is_last (die_children die) = true ∧
    (dwarf_attr_integrate die DW_AT_type = None →
     return_type
     = {| type := void_type (drgn_language_or_default lang);
          qualifiers := 0 |}).
Proof.
  unfold drgn_function_type_from_dwarf. cbv zeta.
  intros H. apply bind_Ok in H as ([builder is_variadic] & c1 & Hloop & H).
  apply lift_Ok in Hloop as [Hloop ->].
  destruct (die_children_error die); [discriminate|].
  apply bind_Ok in H as ([return_type r] & c2 & Hchild & Hcreate).
  apply function_children_loop_Ok in Hloop as (Hall & _ & -> & Hlast).
  cbn [List.length orb] in *. rewrite drop_0 in Hall.
  exists return_type, builder.
  split; [|split; [exact Hall|split; [exact Hlast|]]].
  - exact (creates_lookup _ _ _ _
             (creates_intro c2 c2 _ _ _ (store_grows_refl c2) Hcreate)).
  - intros Hnone. unfold drgn_type_from_dwarf_child in Hchild.
    rewrite Hnone in Hchild.
    apply bind_Ok in Hchild as (l & c3 & Hl & Hret).
    apply ret_Ok in Hl as [-> ->]. now apply ret_Ok in Hret as [[= -> _] _].
Qed.

End Functions.

Lemma function_type_has_the_parameters_of_its_children_witness :
  let c' :=
    snd (drgn_function_type_from_dwarf sample_image
           (drgn_type_from_dwarf_internal sample_image) variadic_die None
           empty_cache) in
  ∃ return_type parameters,
    drgn_type_lookup (prog c') (created_type 1)
    = Some (T_function return_type parameters true None) ∧
    Forall2 (parameter_of sample_image)
      (formal_parameter_children variadic_die) parameters ∧
    variadic_marker_is_last (die_children variadic_die) = true ∧
    (dwarf_attr_integrate variadic_die DW_AT_type = None →
     return_type
     = {| type := void_type (drgn_language_or_default None);
          qualifiers := 0 |}).
Proof.
  apply (function_type_has_the_parameters_of_its_children sample_image
           (drgn_type_from_dwarf_internal sample_image) variadic_die None
           empty_cache (created_type 1)).
  vm_compute. reflexivity.
Defined.

(** X11.  For a DW_TAG_subrange_type DIE that has no DW_AT_upper_bound,
    [subrange_length] takes the DW_AT_count, read as an unsigned constant,
    as the length, as it is: no count is rejected as too large.  A
    DW_AT_count that is not a constant is an error; with neither attribute
    the dimension is incomplete and its length is left as it was. *)
Theorem subrange_count_is_the_length die old :
  dwarf_attr_integrate die DW_AT_upper_bound = None →
  subrange_length die old
  = match dwarf_attr_integrate die DW_AT_count with
    | None => Ok {| length := length old; is_complete := false |}
    | Some attr =>
        match dwarf_formudata attr with
        | Some word => Ok {| length := word; is_complete := true |}
        | None => other_error "DW_TAG_subrange_type has invalid DW_AT_count"
        end
    end.
Proof.
  intros Hub. unfold subrange_length. rewrite Hub.
  destruct (dwarf_attr_integrate die DW_AT_count) as [attr|] eqn:Eattr;
    [|reflexivity].
  pose proof (dwarf_attr_integrate_code _ _ _ Eattr) as Hcode.
  rewrite Hcode.
  rewrite (bool_decide_eq_false_2 (DW_AT_count = DW_AT_upper_bound))
    by discriminate.
  destruct (dwarf_formudata attr) as [word|] eqn:Eword; [|reflexivity].
  cbn [andb].
  pose proof (dwarf_formudata_range _ _ Eword) as Hrange.
  replace (UINT64_MAX <? word) with false; [reflexivity|].
  symmetry. apply Z.ltb_ge. unfold UINT64_MAX. lia.
Qed.

Lemma subrange_count_is_the_length_witness :
  subrange_length
    (sample_die 41%N DW_TAG_subrange_type
       [mk_attr DW_AT_count (DW_FORM_udata 2)] [])
    uninitialized_dimension
  = Ok {| length := 2; is_complete := true |} ∧
  subrange_length (sample_die 3%N DW_TAG_subrange_type [] [])
    uninitialized_dimension
  = Ok {| length := length uninitialized_dimension; is_complete := false |}.
Proof.
  split.
  - exact (subrange_count_is_the_length
             (sample_die 41%N DW_TAG_subrange_type
                [mk_attr DW_AT_count (DW_FORM_udata 2)] [])
             uninitialized_dimension eq_refl).
  - exact (subrange_count_is_the_length
             (sample_die 3%N DW_TAG_subrange_type [] [])
             uninitialized_dimension eq_refl).
Defined.

(** ** Members are resolved lazily *)

Lemma parse_member_offset_lazy rec die member_type bit_field_size
    little_endian c r c' :
  (little_endian = true → member_type_is_read die = false) →
  parse_member_offset rec die member_type bit_field_size little_endian c
  = (Ok r, c') →
  fst r = member_type ∧ c' = c.
Proof.
  intros Hlazy. unfold parse_member_offset, member_type_is_read in *.
  destruct (dwarf_attr_integrate die DW_AT_data_bit_offset) as [attr|].
  { destruct (dwarf_formudata attr); [|discriminate].
    now intros [= <- <-]. }
  intros H. apply bind_Ok in H as (ret0 & c1 & Hret0 & H).
  apply lift_Ok in Hret0 as [_ ->].
  destruct (dwarf_attr_integrate die DW_AT_bit_offset) as [attr|].
  2: now apply ret_Ok in H as [-> ->].
  destruct (dwarf_formudata attr) as [bit_offset|]; [|discriminate].
  destruct little_endian.
  2: now apply ret_Ok in H as [-> ->].
  apply bind_Ok in H as ([mt byte_size] & c2 & Hsize & H).
  apply ret_Ok in H as [-> ->]. cbn [fst].
  destruct (dwarf_attr_integrate die DW_AT_byte_size) as [sattr|].
  - destruct (dwarf_formudata sattr); [|discriminate].
    now apply ret_Ok in Hsize as [[= -> _] ->].
  - now specialize (Hlazy eq_refl).
Qed.

Lemma parse_member_lazy img rec die little_endian cbia builder c builder'
    c' :
  (little_endian = true → member_type_is_read die = false) →
  parse_member img rec die little_endian cbia builder c = (Ok builder', c') →
  c' = c ∧
  ∃ member,
    builder_members builder' = builder_members builder ++ [member] ∧
    lazy_member_of img die member.
Proof.
  intros Hlazy. unfold parse_member. intros H.
  apply bind_Ok in H as (name & c1 & Hname & H).
  apply lift_Ok in Hname as [Hname ->].
  apply bind_Ok in H as (bit_field_size & c1 & Hsize & H).
  apply lift_Ok in Hsize as [_ ->].
  apply bind_Ok in H as (mt & c1 & Htype & H).
  apply lift_Ok in Htype as [Htype ->].
  apply bind_Ok in H as ([mt' bit_offset] & c1 & Hoffset & H).
  apply ret_Ok in H as [-> ->].
  apply parse_member_offset_lazy in Hoffset as [Hmt ->]; [|exact Hlazy].
  cbn [fst] in Hmt. subst mt'.
  split; [reflexivity|]. eexists. split; [reflexivity|].
  unfold lazy_member_of, optional_name. cbn [member_name member_type].
  split.
  - destruct (dwarf_attr_integrate die DW_AT_name) as [attr|].
    + destruct (dwarf_formstring attr); [|discriminate].
      now injection Hname as <-.
    + now injection Hname as <-.
  - unfold drgn_lazy_type_from_dwarf, dwarf_type in *.
    destruct (dwarf_attr_integrate die DW_AT_type) as [attr|];
      [|discriminate].
    destruct (dwarf_formref_die img attr) as [type_die|]; [|discriminate].
    injection Htype as <-. now exists type_die, cbia.
Qed.

Lemma parse_members_as_specified_lazy img rec little_endian kind members :
  (little_endian = true →
   Forall (fun member => member_type_is_read member = false) members) →
  ∀ n builder c builder' c',
    parse_members_as_specified img rec little_endian kind n members builder c
    = (Ok builder', c') →
    c' = c ∧
    ∃ new,
      builder_members builder' = builder_members builder ++ new ∧
      Forall2 (lazy_member_of img) members new.
Proof.
  intros Hlazy.
  induction members as [|m members IH]; intros n builder c builder' c';
    cbn [parse_members_as_specified].
  { intros [= <- <-]. split; [reflexivity|]. exists [].
    rewrite app_nil_r. split; [reflexivity|constructor]. }
  assert (Hm : little_endian = true → member_type_is_read m = false).
  { intros Hle. now apply Hlazy, Forall_cons in Hle as [Hm _]. }
  assert (Hrest : little_endian = true →
            Forall (fun member => member_type_is_read member = false)
              members).
  { intros Hle. now apply Hlazy, Forall_cons in Hle as [_ Hms]. }
  destruct members as [|m' members].
  { intros H. apply parse_member_lazy in H as (-> & member & Hb & Hmember);
      [|exact Hm].
    split; [reflexivity|]. exists [member].
    split; [exact Hb|]. constructor; [exact Hmember|constructor]. }
  intros H. apply bind_Ok in H as (b1 & c1 & Hfirst & H).
  apply parse_member_lazy in Hfirst as (-> & member & Hb & Hmember);
    [|exact Hm].
  apply (IH Hrest) in H as (-> & new & Hb' & Hall).
  split; [reflexivity|]. exists (member :: new).
  split; [|now constructor].
  rewrite Hb', Hb, <- app_assoc. reflexivity.
Qed.

Section Compounds.

Variable img : debug_info.
Variable rec : resolver.

(** X12.  When [drgn_compound_type_from_dwarf_complete] succeeds on a DIE
    none of whose members has its type read for its bit offset (a
    DW_AT_bit_offset without DW_AT_byte_size, on a little-endian file), the
    only thing it does to the cache is to create the compound type: no type
    of a member is resolved.  The compound has one member for each
    DW_TAG_member child, in their order, with the name of the child, if it
    has one, and as its type the thunk, not evaluated, of the DIE that the
    DW_AT_type of the child refers to. *)
Theorem compound_members_are_not_resolved die lang kind dw_tag_str tag c t
    c' :
  (die_elf_lsb die = true →
   Forall (fun member => member_type_is_read member = false)
     (member_children die)) →
  drgn_compound_type_from_dwarf_complete img rec die lang kind dw_tag_str
    tag c = (Ok t, c') →
  ∃ members,
    drgn_type_create
      (T_compound kind tag (wrap64 (dwarf_bytesize die)) members lang) c
    = (Ok t, c') ∧
    Forall2 (lazy_member_of img) (member_children die) members.
Proof.
  intros Hlazy H.
  pose proof (compound_complete_children_error _ _ _ _ _ _ _ _ _ _ H)
    as Herror.
  rewrite (drgn_compound_type_from_dwarf_complete_unfold _ _ _ _ _ _ _ _
             Herror) in H.
  destruct (dwarf_bytesize die =? -1); [discriminate|].
  apply bind_Ok in H as (builder & c1 & Hmembers & Hcreate).
  apply (parse_members_as_specified_lazy _ _ _ _ _ Hlazy) in Hmembers
    as (-> & new & Hb & Hall).
  cbn [builder_members app] in Hb. rewrite Hb in Hcreate.
  now exists new.
Qed.

End Compounds.

Lemma compound_members_are_not_resolved_witness :
  let c' :=
    snd (drgn_compound_type_from_dwarf_complete sample_image
           (drgn_type_from_dwarf_internal sample_image) flexible_struct_die
           None DRGN_TYPE_STRUCT "DW_TAG_structure_type" (Some "s")
           empty_cache) in
  ∃ members,
    drgn_type_create
      (T_compound DRGN_TYPE_STRUCT (Some "s")
         (wrap64 (dwarf_bytesize flexible_struct_die)) members None)
      empty_cache
    = (Ok (created_type 0), c') ∧
    Forall2 (lazy_member_of sample_image)
      (member_children flexible_struct_die) members.
Proof.
  apply (compound_members_are_not_resolved sample_image
           (drgn_type_from_dwarf_internal sample_image) flexible_struct_die
           None DRGN_TYPE_STRUCT "DW_TAG_structure_type" (Some "s")
           empty_cache (created_type 0)).
  - intros _. repeat constructor.
  - vm_compute. reflexivity.
Defined.

(** ** The sentinel DRGN_ERROR_STOP stays inside *)

Lemma surfaced_res_bind {A B} (r : res A) (k : A → res B) :
  surfaced r → (∀ a, surfaced (k a)) → surfaced (res_bind r k).
Proof.
  intros Hr Hk. destruct r as [a|e|]; cbn [res_bind];
    [apply Hk| |discriminate].
  intros e0 [= <-]. now apply Hr.
Qed.

Ltac surfaced_tac :=
  repeat first
    [ progress (cbv beta iota zeta)
    | apply surfaced_res_bind; [|intros ?]
    | match goal with
      | |- surfaced (Ok _) => intros ? [=]
      | |- surfaced OutOfFuel => intros ? [=]
      | |- surfaced (other_error _) => intros ? [= <-]; discriminate
      | |- surfaced (Err _) => intros ? [= <-]; discriminate
      | |- surfaced (match ?e with _ => _ end) =>
          let E := fresh "E" in destruct e eqn:E
      end ].

Lemma surfaced_drgn_language_from_die die :
  surfaced (drgn_language_from_die die).
Proof. unfold drgn_language_from_die. surfaced_tac. Qed.

Lemma surfaced_drgn_program_word_size p :
  surfaced (drgn_program_word_size p).
Proof. unfold drgn_program_word_size. surfaced_tac. Qed.

Lemma surfaced_drgn_lazy_type_from_dwarf img die cbia tag_name :
  surfaced (drgn_lazy_type_from_dwarf img die cbia tag_name).
Proof. unfold drgn_lazy_type_from_dwarf. surfaced_tac. Qed.

Lemma surfaced_parse_enumerator die builder is_signed :
  surfaced (parse_enumerator die builder is_signed).
Proof. unfold parse_enumerator. surfaced_tac. Qed.

Lemma surfaced_subrange_length die old : surfaced (subrange_length die old).
Proof. unfold subrange_length. surfaced_tac. Qed.

Lemma surfaced_parse_formal_parameter img die builder :
  surfaced (parse_formal_parameter img die builder).
Proof.
  unfold parse_formal_parameter. surfaced_tac.
  apply surfaced_drgn_lazy_type_from_dwarf.
Qed.

Lemma surfaced_enum_children_loop children builder is_signed :
  surfaced (enum_children_loop children builder is_signed).
Proof.
  revert builder is_signed.
  induction children as [|child children IH]; intros builder is_signed;
    cbn [enum_children_loop]; [surfaced_tac|].
  destruct (bool_decide _); [|apply IH].
  apply surfaced_res_bind; [apply surfaced_parse_enumerator|].
  intros [b s]. apply IH.
Qed.

Lemma surfaced_array_children_loop children dimensions :
  surfaced (array_children_loop children dimensions).
Proof.
  revert dimensions.
  induction children as [|child children IH]; intros dimensions;
    cbn [array_children_loop]; [surfaced_tac|].
  destruct (bool_decide _); [|apply IH].
  apply surfaced_res_bind; [apply surfaced_subrange_length|].
  intros d. apply IH.
Qed.

Lemma surfaced_function_children_loop img tag_name children builder
    is_variadic :
  surfaced (function_children_loop img tag_name children builder is_variadic).
Proof.
  revert builder is_variadic.
  induction children as [|child children IH]; intros builder is_variadic;
    cbn [function_children_loop]; [surfaced_tac|].
  destruct (dwarf_tag child); try apply IH.
  - destruct is_variadic; [surfaced_tac|].
    apply surfaced_res_bind; [apply surfaced_parse_formal_parameter|].
    intros b. apply IH.
  - destruct is_variadic; [surfaced_tac|apply IH].
Qed.

Ltac surfaced_solve :=
  first
    [ apply surfaced_drgn_language_from_die
    | apply surfaced_drgn_program_word_size
    | apply surfaced_drgn_lazy_type_from_dwarf
    | apply surfaced_enum_children_loop
    | apply surfaced_array_children_loop
    | apply surfaced_function_children_loop
    | solve [surfaced_tac] ].

Lemma no_stop_ret {A} (a : A) : no_stop (ret a).
Proof. intros c e c' [=]. Qed.

Lemma no_stop_lift {A} (r : res A) : surfaced r → no_stop (lift r).
Proof. intros Hr c e c' [= -> _]. now apply Hr. Qed.

Lemma no_stop_gets {A} (f : drgn_dwarf_info_cache → A) : no_stop (gets f).
Proof. intros c e c' [=]. Qed.

Lemma no_stop_create t : no_stop (drgn_type_create t).
Proof. intros c e c' [=]. Qed.

Lemma no_stop_bind {A B} (m : M A) (k : A → M B) :
  no_stop m → (∀ a, no_stop (k a)) → no_stop (bind m k).
Proof.
  intros Hm Hk c e c'. unfold bind.
  destruct (m c) as [[a|e1|] c1] eqn:E.
  - apply Hk.
  - intros [= <- <-]. now apply Hm in E.
  - discriminate.
Qed.

Lemma no_stop_unless_stop {A} (m k : M A) :
  no_stop k → no_stop (unless_stop m k).
Proof.
  intros Hk c e c'. unfold unless_stop.
  destruct (m c) as [[a|e1|] c1]; [discriminate| |discriminate].
  destruct (bool_decide (error_code e1 = DRGN_ERROR_STOP)) eqn:E.
  - apply Hk.
  - apply bool_decide_eq_false in E. now intros [= <- <-].
Qed.

Section NoStop.

Variable img : debug_info.
Variable rec : resolver.
Hypothesis rec_no_stop : ∀ die cbia iia, no_stop (rec die cbia iia).

Ltac no_stop_tac :=
  repeat first
    [ progress (cbv beta iota zeta)
    | match goal with
      | |- no_stop (ret _) => apply no_stop_ret
      | |- no_stop (gets _) => apply no_stop_gets
      | |- no_stop (drgn_type_create _) => apply no_stop_create
      | |- no_stop (lift _) => apply no_stop_lift; surfaced_solve
      | |- no_stop (bind _ _) => apply no_stop_bind; [|intros ?]
      | |- no_stop (unless_stop _ _) => apply no_stop_unless_stop
      | |- no_stop (rec _ _ _) => apply rec_no_stop
      | |- no_stop (match ?e with _ => _ end) =>
          let E := fresh "E" in destruct e eqn:E
      end ].

Lemma no_stop_drgn_type_from_dwarf die :
  no_stop (drgn_type_from_dwarf rec die).
Proof. unfold drgn_type_from_dwarf. no_stop_tac. Qed.

Lemma no_stop_drgn_lazy_type_evaluate lazy_type :
  no_stop (drgn_lazy_type_evaluate rec lazy_type).
Proof.
  unfold drgn_lazy_type_evaluate, drgn_type_from_dwarf_thunk_evaluate_fn.
  no_stop_tac.
Qed.

Lemma no_stop_drgn_type_from_dwarf_child die parent_lang tag_name can_be_void
    cbia iia :
  no_stop (drgn_type_from_dwarf_child img rec die parent_lang tag_name
             can_be_void cbia iia).
Proof. unfold drgn_type_from_dwarf_child. no_stop_tac. Qed.

Lemma no_stop_drgn_base_type_from_dwarf die lang :
  no_stop (drgn_base_type_from_dwarf img rec die lang).
Proof.
  unfold drgn_base_type_from_dwarf. no_stop_tac.
  apply no_stop_drgn_type_from_dwarf.
Qed.

Lemma no_stop_parse_member_offset die member_type bit_field_size
    little_endian :
  no_stop (parse_member_offset rec die member_type bit_field_size
             little_endian).
Proof.
  unfold parse_member_offset. no_stop_tac.
  apply no_stop_drgn_lazy_type_evaluate.
Qed.

Lemma no_stop_parse_member die little_endian cbia builder :
  no_stop (parse_member img rec die little_endian cbia builder).
Proof.
  unfold parse_member. no_stop_tac. apply no_stop_parse_member_offset.
Qed.

Lemma no_stop_compound_children_loop little_endian children :
  ∀ member builder,
    no_stop (compound_children_loop img rec little_endian children member
               builder).
Proof.
  induction children as [|child children IH]; intros member builder;
    cbn [compound_children_loop]; no_stop_tac;
    first [apply IH|apply no_stop_parse_member].
Qed.

Lemma no_stop_drgn_compound_type_from_dwarf die lang kind :
  no_stop (drgn_compound_type_from_dwarf img rec die lang kind).
Proof.
  unfold drgn_compound_type_from_dwarf,
    drgn_compound_type_from_dwarf_complete.
  no_stop_tac;
    first [apply no_stop_compound_children_loop|apply no_stop_parse_member].
Qed.

Lemma no_stop_drgn_enum_type_from_dwarf die lang :
  no_stop (drgn_enum_type_from_dwarf img rec die lang).
Proof.
  unfold drgn_enum_type_from_dwarf, enum_compatible_type_fallback.
  no_stop_tac; apply no_stop_drgn_type_from_dwarf.
Qed.

Lemma no_stop_array_type_loop lang cbia dimensions :
  ∀ dimension element_type,
    no_stop (array_type_loop lang cbia dimension dimensions element_type).
Proof.
  induction dimensions as [|d dimensions IH]; intros dimension element_type;
    cbn [array_type_loop]; no_stop_tac.
  apply IH.
Qed.

Lemma no_stop_dispatch die lang cbia :
  no_stop (dispatch img rec die lang cbia).
Proof.
  unfold dispatch, unqualified, qualifier_type_from_dwarf,
    drgn_typedef_type_from_dwarf, drgn_pointer_type_from_dwarf,
    drgn_array_type_from_dwarf, drgn_function_type_from_dwarf.
  no_stop_tac;
    first [ apply no_stop_drgn_type_from_dwarf_child
          | apply no_stop_drgn_base_type_from_dwarf
          | apply no_stop_drgn_compound_type_from_dwarf
          | apply no_stop_drgn_enum_type_from_dwarf
          | apply no_stop_array_type_loop ].
Qed.

End NoStop.

Lemma no_stop_resolve_fuel img fuel :
  ∀ die cbia iia, no_stop (resolve_fuel img fuel die cbia iia).
Proof.
  induction fuel as [|fuel IH]; intros die cbia iia c e c';
    cbn [resolve_fuel]; [discriminate|].
  unfold drgn_type_from_dwarf_internal_body. cbv beta zeta.
  destruct (1000 <=? depth c)%nat; [now intros [= <- _]|].
  destruct (dwarf_type_map_search c (die_addr die) cbia); [discriminate|].
  destruct (drgn_language_from_die die) as [lang|e0|] eqn:Elang;
    [| |discriminate].
  2: { intros [= <- _]. now apply surfaced_drgn_language_from_die in Elang. }
  destruct (dispatch _ _ _ _ _ _) as [[[ret0 b]|e1|] cd] eqn:Edisp;
    [| |discriminate].
  - destruct (dwarf_type_map_insert_searched _ _ _ _) as [[] ?];
      [discriminate|]. now intros [= <- _].
  - intros [= <- _]. now apply (no_stop_dispatch img _ IH) in Edisp.
Qed.

(** X13.  DRGN_ERROR_STOP, by which the index iterator reports its end
    and [drgn_dwarf_info_cache_find_complete] that it found no complete
    type, never leaves [drgn_type_from_dwarf_internal]: no call fails with
    an error of that code. *)
Theorem stop_never_surfaces img die cbia iia c e c' :
  drgn_type_from_dwarf_internal img die cbia iia c = (Err e, c') →
  error_code e ≠ DRGN_ERROR_STOP.
Proof. apply no_stop_resolve_fuel. Qed.

Lemma stop_never_surfaces_witness :
  let e :=
    drgn_error_create DRGN_ERROR_OTHER
      "DW_TAG_pointer_type has invalid DW_AT_byte_size" in
  fst (drgn_type_from_dwarf_internal sample_image bad_pointer_die true None
         empty_cache) = Err e ∧
  error_code e ≠ DRGN_ERROR_STOP.
Proof.
  split; [vm_compute; reflexivity|].
  apply (stop_never_surfaces sample_image bad_pointer_die true None
           empty_cache _
           (snd (drgn_type_from_dwarf_internal sample_image bad_pointer_die
                   true None empty_cache))).
  vm_compute. reflexivity.
Defined.

(** ** Qualifiers and declarations through the memoization *)

Lemma hit_true_returns_entry img die iia c v :
  (depth c < 1000)%nat →
  map c !! die_addr die = Some v →
  drgn_type_from_dwarf_internal img die true iia c
  = (Ok ({| type := value_type v; qualifiers := value_qualifiers v |}, iia),
     c).
Proof.
  intros Hdepth Hv.
  rewrite drgn_type_from_dwarf_internal_unfold.
  unfold drgn_type_from_dwarf_internal_body. cbv beta zeta.
  apply Nat.leb_gt in Hdepth. rewrite Hdepth.
  now rewrite dwarf_type_map_search_true, Hv.
Qed.

Lemma call_true_memoizes img die iia c qualified_type iia' c1 :
  drgn_type_from_dwarf_internal img die true iia c
  = (Ok (qualified_type, iia'), c1) →
  ∃ value,
    map c1 !! die_addr die = Some value ∧
    value_type value = type qualified_type ∧
    value_qualifiers value = qualifiers qualified_type.
Proof.
  intros H.
  destruct (map c !! die_addr die) as [value|] eqn:Ehit.
  - rewrite (hit_true_returns_entry img die iia c value) in H.
    + apply pair_eq_inv in H as [[= -> ->] ->]. now exists value.
    + rewrite drgn_type_from_dwarf_internal_unfold in H.
      unfold drgn_type_from_dwarf_internal_body in H. cbv beta zeta in H.
      destruct (1000 <=? depth c)%nat eqn:Eguard; [discriminate|].
      now apply Nat.leb_gt in Eguard.
    + exact Ehit.
  - destruct (miss_inversion _ _ _ _ _ _ _ _ Ehit H)
      as (_ & lang & b & cd & _ & _ & _ & Hoom & ->).
    unfold dwarf_type_map_insert_searched. cbn [insert_enomem set_depth].
    rewrite Hoom. cbn [negb andb snd map set_maps].
    rewrite lookup_insert_eq. now eexists.
Qed.

(** A call that materializes a qualifier DIE with a DW_AT_type. *)
Lemma qualifier_call img die target qualifier cbia iia c qualified_type iia'
    c' :
  qualifier_of_tag (dwarf_tag die) = Some qualifier →
  dwarf_type img die = Some (Some target) →
  map c !! die_addr die = None →
  drgn_type_from_dwarf_internal img die cbia iia c
  = (Ok (qualified_type, iia'), c') →
  ∃ inner iia_inner c1,
    drgn_type_from_dwarf_internal img target true None
      (set_depth (S (depth c)) c)
    = (Ok (inner, iia_inner), c1) ∧
    qualified_type
    = {| type := type inner;
         qualifiers := Z.lor (qualifiers inner) qualifier |} ∧
    prog c' = prog c1 ∧
    depth c' = depth c ∧
    map c'
    = <[die_addr die :=
          {| value_type := type qualified_type;
             value_qualifiers := qualifiers qualified_type;
             value_is_incomplete_array := false |}]> (map c1).
Proof.
  intros Hq Htarget Hmap H.
  pose proof (drgn_type_from_dwarf_internal_depth _ _ _ _ _ _ _ H) as Hd.
  destruct (miss_inversion _ _ _ _ _ _ _ _ Hmap H)
    as (Hdepth & lang & b & cd & _ & Hdisp & _ & Hoom & ->).
  assert (Hd' : dispatch img (resolve_fuel img (1000 - depth c)) die lang cbia
                = qualifier_type_from_dwarf img
                    (resolve_fuel img (1000 - depth c)) die lang
                    match dwarf_tag die with
                    | DW_TAG_const_type => "DW_TAG_const_type"
                    | DW_TAG_restrict_type => "DW_TAG_restrict_type"
                    | DW_TAG_volatile_type => "DW_TAG_volatile_type"
                    | _ => "DW_TAG_atomic_type"
                    end qualifier).
  { unfold dispatch. destruct (dwarf_tag die); try discriminate;
      now injection Hq as <-. }
  rewrite Hd' in Hdisp. clear Hd'.
  unfold qualifier_type_from_dwarf, drgn_type_from_dwarf_child in Hdisp.
  unfold dwarf_type in Htarget.
  destruct (dwarf_attr_integrate die DW_AT_type) as [attr|]; [|discriminate].
  injection Htarget as Htarget. rewrite Htarget in Hdisp.
  apply bind_Ok in Hdisp as ([inner r] & c1 & Hrec & Hret).
  apply ret_Ok in Hret as [[= -> ->] ->].
  rewrite (resolve_fuel_nested img target true None
             (set_depth (S (depth c)) c) (depth c) Hdepth eq_refl) in Hrec.
  exists inner, r, c1. split; [exact Hrec|]. split; [reflexivity|].
  rewrite insert_searched_prog. split; [reflexivity|].
  split; [exact Hd|].
  unfold dwarf_type_map_insert_searched. cbn [insert_enomem set_depth].
  rewrite Hoom, andb_false_r. reflexivity.
Qed.

(** X14.  The order of two qualifiers does not matter.  Of two chains of
    two qualifier DIEs that end in the same DIE and apply the same two
    qualifiers in opposite orders, none of the four DIEs being in the
    primary map when it is resolved and the DIE they end in being at
    another address than those of the first chain, the second one resolves
    to what the first one resolved to: the same type with the same
    qualifiers, both qualifiers among them, and no type is created for
    it. *)
Theorem qualifiers_commute img outer inner outer' inner' target q1 q2 c
    cbia iia qualified_type iia1 c1 cbia' iia' qualified_type' iia2 c2 :
  qualifier_of_tag (dwarf_tag outer) = Some q1 →
  qualifier_of_tag (dwarf_tag inner) = Some q2 →
  qualifier_of_tag (dwarf_tag outer') = Some q2 →
  qualifier_of_tag (dwarf_tag inner') = Some q1 →
  dwarf_type img outer = Some (Some inner) →
  dwarf_type img inner = Some (Some target) →
  dwarf_type img outer' = Some (Some inner') →
  dwarf_type img inner' = Some (Some target) →
  die_addr outer ≠ die_addr target →
  die_addr inner ≠ die_addr target →
  map c !! die_addr outer = None →
  map c !! die_addr inner = None →
  drgn_type_from_dwarf_internal img outer cbia iia c
  = (Ok (qualified_type, iia1), c1) →
  map c1 !! die_addr outer' = None →
  map c1 !! die_addr inner' = None →
  drgn_type_from_dwarf_internal img outer' cbia' iia' c1
  = (Ok (qualified_type', iia2), c2) →
  qualified_type' = qualified_type ∧
  prog c2 = prog c1 ∧
  Z.land (qualifiers qualified_type) (Z.lor q1 q2) = Z.lor q1 q2.
Proof.
  intros Hq1 Hq2 Hq1' Hq2' Ho Hi Ho' Hi' Hne1 Hne2 Hmo Hmi H Hmo' Hmi' H'.
  destruct (qualifier_call _ _ _ _ _ _ _ _ _ _ Hq1 Ho Hmo H)
    as (qi & ri & ci & Hinner & -> & Hprog1 & Hdepth1 & Hmap1).
  destruct (qualifier_call _ _ _ _ _ _ (set_depth (S (depth c)) c) _ _ _
              Hq2 Hi Hmi Hinner)
    as (qt & rt & ct & Htarget & -> & Hprogi & Hdepthi & Hmapi).
  cbn [type qualifiers] in *.
  destruct (call_true_memoizes _ _ _ _ _ _ _ Htarget)
    as (v & Hv & Hvt & Hvq).
  assert (Hv1 : map c1 !! die_addr target = Some v).
  { rewrite Hmap1, lookup_insert_ne by done.
    rewrite Hmapi, lookup_insert_ne by done. exact Hv. }
  destruct (qualifier_call _ _ _ _ _ _ _ _ _ _ Hq1' Ho' Hmo' H')
    as (qi' & ri' & ci' & Hinner' & -> & Hprog2 & Hdepth2 & Hmap2).
  destruct (qualifier_call _ _ _ _ _ _ (set_depth (S (depth c1)) c1) _ _ _
              Hq2' Hi' Hmi' Hinner')
    as (qt' & rt' & ct' & Htarget' & -> & Hprogi' & Hdepthi' & Hmapi').
  cbn [type qualifiers] in *.
  rewrite (hit_true_returns_entry img target None _ v) in Htarget'.
  2: { pose proof (hit_after_call _ _ _ _ _ _ _ _ Htarget') as Hlt.
       now rewrite (drgn_type_from_dwarf_internal_depth _ _ _ _ _ _ _
                      Htarget') in Hlt. }
  2: exact Hv1.
  apply pair_eq_inv in Htarget' as [[= -> ->] ->].
  cbn [type qualifiers]. rewrite Hvt, Hvq.
  split; [|split].
  - f_equal. rewrite <- !Z.lor_assoc. f_equal. apply Z.lor_comm.
  - now rewrite Hprog2, Hprogi'.
  - rewrite <- Z.lor_assoc, (Z.lor_comm q2 q1). apply land_lor_same.
Qed.

Lemma qualifiers_commute_witness :
  let c1 :=
    snd (drgn_type_from_dwarf_internal qualifier_image (qualifier_die 50%N)
           true None empty_cache) in
  let c2 :=
    snd (drgn_type_from_dwarf_internal qualifier_image (qualifier_die 52%N)
           true None c1) in
  {| type := created_type 0; qualifiers := 3 |}
  = {| type := created_type 0; qualifiers := 3 |} ∧
  prog c2 = prog c1 ∧
  Z.land 3 (Z.lor DRGN_QUALIFIER_CONST DRGN_QUALIFIER_VOLATILE)
  = Z.lor DRGN_QUALIFIER_CONST DRGN_QUALIFIER_VOLATILE.
Proof.
  apply (qualifiers_commute qualifier_image (qualifier_die 50%N)
           (qualifier_die 51%N) (qualifier_die 52%N) (qualifier_die 53%N) int_die
           DRGN_QUALIFIER_CONST DRGN_QUALIFIER_VOLATILE empty_cache
           true None {| type := created_type 0; qualifiers := 3 |} None
           (snd (drgn_type_from_dwarf_internal qualifier_image
                   (qualifier_die 50%N) true None empty_cache))
           true None {| type := created_type 0; qualifiers := 3 |} None
           (snd (drgn_type_from_dwarf_internal qualifier_image
                   (qualifier_die 52%N) true None
                   (snd (drgn_type_from_dwarf_internal qualifier_image
                           (qualifier_die 50%N) true None empty_cache))))).
  all: try reflexivity.
  all: try discriminate.
  all: vm_compute; reflexivity.
Defined.

(** What [dispatch] does for a declaration whose name the index has one
    definition under. *)
Lemma dispatch_declaration img rec die lang cbia name definition bias c
    qualified_type b c' :
  (∀ die cbia iia, no_stop (rec die cbia iia)) →
  dwarf_tag die = DW_TAG_structure_type ∨
  dwarf_tag die = DW_TAG_union_type ∨
  dwarf_tag die = DW_TAG_class_type ∨
  dwarf_tag die = DW_TAG_enumeration_type →
  dwarf_diename die = Some name →
  dwarf_flag die DW_AT_declaration = Some true →
  index_hits img name (dwarf_tag die) = [(definition, bias)] →
  index_fails img name (dwarf_tag die) = false →
  dispatch img rec die lang cbia c = (Ok (qualified_type, b), c') →
  b = false ∧ qualifiers qualified_type = 0 ∧
  ∃ resolved iia,
    rec definition true None c = (Ok (resolved, iia), c') ∧
    type qualified_type = type resolved.
Proof.
  intros Hrec Htag Hname Hdecl Hhits Hfails.
  destruct (dwarf_diename_attr _ _ Hname) as (attr & Hattr & Hstring).
  unfold dispatch, unqualified. cbv zeta.
  destruct Htag as [Htag|[Htag|[Htag|Htag]]]; rewrite Htag in *;
    intros H; apply bind_Ok in H as (t & c1 & H & Hret);
    apply ret_Ok in Hret as [[= -> ->] ->]; cbn [type qualifiers];
    (split; [reflexivity|]); (split; [reflexivity|]).
  1-3: unfold drgn_compound_type_from_dwarf in H;
       cbn [compound_dw_tag] in H;
       rewrite Hattr, Hstring, Hdecl in H;
       unfold bind at 1 in H; unfold lift at 1 in H; unfold unless_stop in H;
       cbv beta iota zeta in H;
       rewrite (find_complete_single img rec _ name definition bias c
                  Hhits Hfails) in H;
       unfold drgn_type_from_dwarf, bind in H;
       destruct (rec definition true None c) as [[[qt r]|e|] c2] eqn:Erec;
       cbn in H; try discriminate;
       [ injection H as <- <-; now exists qt, r
       | apply Hrec in Erec;
         rewrite (bool_decide_eq_false_2 _ Erec) in H; discriminate ].
  unfold drgn_enum_type_from_dwarf in H.
  rewrite Hattr, Hstring, Hdecl in H.
  unfold bind at 1 in H; unfold lift at 1 in H; unfold unless_stop in H.
  cbv beta iota zeta in H.
  rewrite (find_complete_single img rec _ name definition bias c
             Hhits Hfails) in H.
  unfold drgn_type_from_dwarf, bind in H.
  destruct (rec definition true None c) as [[[qt r]|e|] c2] eqn:Erec;
    cbn in H; try discriminate.
  - injection H as <- <-. now exists qt, r.
  - apply Hrec in Erec.
    rewrite (bool_decide_eq_false_2 _ Erec) in H. discriminate.
Qed.

(** X15.  When a call succeeds on a declaration of a structure, union,
    class or enumeration for whose name and tag the index has exactly one
    hit, at another address, the declaration stands for the type of that
    hit: after the call the primary map holds the type returned, without
    qualifiers, under the address of the declaration, and the same type
    under the address of the hit. *)
Theorem declaration_shares_the_type_of_its_definition img die cbia iia c name
    definition bias qualified_type iia' c' :
  dwarf_tag die = DW_TAG_structure_type ∨
  dwarf_tag die = DW_TAG_union_type ∨
  dwarf_tag die = DW_TAG_class_type ∨
  dwarf_tag die = DW_TAG_enumeration_type →
  dwarf_diename die = Some name →
  dwarf_flag die DW_AT_declaration = Some true →
  index_hits img name (dwarf_tag die) = [(definition, bias)] →
  index_fails img name (dwarf_tag die) = false →
  die_addr definition ≠ die_addr die →
  map c !! die_addr die = None →
  drgn_type_from_dwarf_internal img die cbia iia c
  = (Ok (qualified_type, iia'), c') →
  map c' !! die_addr die
  = Some {| value_type := type qualified_type; value_qualifiers := 0;
            value_is_incomplete_array := false |} ∧
  ∃ value,
    map c' !! die_addr definition = Some value ∧
    value_type value = type qualified_type.
Proof.
  intros Htag Hname Hdecl Hhits Hfails Hne Hmap H.
  destruct (miss_inversion _ _ _ _ _ _ _ _ Hmap H)
    as (Hdepth & lang & b & cd & _ & Hdisp & _ & Hoom & ->).
  destruct (dispatch_declaration _ _ _ _ _ _ _ _ _ _ _ _
              (no_stop_resolve_fuel img _) Htag Hname Hdecl
              Hhits Hfails Hdisp) as (-> & Hq & resolved & r & Hrec & Ht).
  rewrite (resolve_fuel_nested img definition true None
             (set_depth (S (depth c)) c) (depth c) Hdepth eq_refl) in Hrec.
  destruct (call_true_memoizes _ _ _ _ _ _ _ Hrec) as (v & Hv & Hvt & _).
  unfold dwarf_type_map_insert_searched. cbn [insert_enomem set_depth].
  rewrite Hoom, andb_false_r. cbn [snd map set_maps]. rewrite Hq.
  split; [apply lookup_insert_eq|].
  exists v. rewrite lookup_insert_ne by done. split; [exact Hv|congruence].
Qed.

Lemma declaration_shares_the_type_of_its_definition_witness :
  let img := foo_image [foo_definition_die 20%N 8] in
  let c' :=
    snd (drgn_type_from_dwarf_internal img foo_declaration_die true None
           empty_cache) in
  map c' !! die_addr foo_declaration_die
  = Some {| value_type := created_type 0; value_qualifiers := 0;
            value_is_incomplete_array := false |} ∧
  ∃ value,
    map c' !! die_addr (foo_definition_die 20%N 8) = Some value ∧
    value_type value = created_type 0.
Proof.
  apply (declaration_shares_the_type_of_its_definition
           (foo_image [foo_definition_die 20%N 8]) foo_declaration_die true
           None empty_cache "foo" (foo_definition_die 20%N 8) 0
           {| type := created_type 0; qualifiers := 0 |} None).
  - now left.
  - reflexivity.
  - reflexivity.
  - reflexivity.
  - reflexivity.
  - discriminate.
  - reflexivity.
  - vm_compute. reflexivity.
Defined.

(** ** The type finder *)

Lemma later_trans img a b c : later img a b → later img b c → later img a c.
Proof.
  intros Hab Hbc. induction Hbc as [|b c1 die cbia iia _ IH]; [exact Hab|].
  now apply later_call, IH.
Qed.

Lemma later_one img die cbia iia c :
  later img c (snd (drgn_type_from_dwarf_internal img die cbia iia c)).
Proof. apply later_call, later_now. Qed.

Section TypeFinderFacts.

Variable img : debug_info.
Variable die_matches_filename : Dwarf_Die → option string → bool.

Lemma type_find_loop_found kind filename fuel :
  ∀ it c qualified_type c',
    type_find_loop img die_matches_filename fuel kind filename it c
    = (Ok qualified_type, c') →
    ∃ before die bias after c0,
      it_hits it = before ++ (die, bias) :: after ∧
      die_matches_filename die filename = true ∧
      later img c c0 ∧
      drgn_type_from_dwarf_internal img die true None c0
      = (Ok (qualified_type, None), c') ∧
      drgn_type_kind_of (prog c') (type qualified_type) = kind.
Proof.
  induction fuel as [|fuel IH]; intros it c qt c'; cbn [type_find_loop];
    [discriminate|].
  unfold drgn_dwarf_index_iterator_next.
  destruct (it_hits it) as [|[die bias] rest] eqn:Ehits.
  { destruct (negb _); discriminate. }
  assert (Hskip :
    ∀ c1, later img c c1 →
      type_find_loop img die_matches_filename fuel kind filename
        {| it_hits := rest; it_end := it_end it |} c1 = (Ok qt, c') →
      ∃ before die0 bias0 after c0,
        (die, bias) :: rest = before ++ (die0, bias0) :: after ∧
        die_matches_filename die0 filename = true ∧
        later img c c0 ∧
        drgn_type_from_dwarf_internal img die0 true None c0
        = (Ok (qt, None), c') ∧
        drgn_type_kind_of (prog c') (type qt) = kind).
  { intros c1 Hl H.
    destruct (IH _ _ _ _ H)
      as (before & die0 & bias0 & after & c0 & Hh & Hm & Hl0 & Hc & Hk).
    cbn [it_hits] in Hh. subst rest.
    exists ((die, bias) :: before), die0, bias0, after, c0.
    split; [reflexivity|]. split; [exact Hm|].
    split; [now apply later_trans with c1|]. now split. }
  destruct (die_matches_filename die filename) eqn:Ematch;
    [|apply Hskip, later_now].
  intros H. apply bind_Ok in H as (ret0 & c2 & Hcall & H).
  unfold drgn_type_from_dwarf in Hcall.
  apply bind_Ok in Hcall as ([ret1 r] & c1 & Hcall & Hret).
  apply ret_Ok in Hret as [-> ->].
  cbn [fst] in H. unfold bind, gets in H. cbv beta iota in H.
  destruct (bool_decide (drgn_type_kind_of (prog c1) (type ret1) = kind))
    eqn:Ekind.
  - apply ret_Ok in H as [-> ->]. apply bool_decide_eq_true in Ekind.
    assert (r = None) as ->.
    { rewrite drgn_type_from_dwarf_internal_unfold in Hcall.
      unfold drgn_type_from_dwarf_internal_body in Hcall.
      cbv beta zeta in Hcall.
      destruct (1000 <=? depth c)%nat; [discriminate|].
      destruct (dwarf_type_map_search c (die_addr die) true);
        [now injection Hcall as _ <- _|].
      destruct (drgn_language_from_die die); try discriminate.
      destruct (dispatch _ _ _ _ _ _) as [[[? ?]| |] ?]; try discriminate.
      destruct (dwarf_type_map_insert_searched _ _ _ _) as [[] ?];
        [|discriminate]. now injection Hcall as _ <- _. }
    exists [], die, bias, rest, c.
    split; [reflexivity|]. split; [exact Ematch|].
    split; [apply later_now|]. now split.
  - apply (Hskip c1); [|exact H].
    replace c1 with
      (snd (drgn_type_from_dwarf_internal img die true None c))
      by now rewrite Hcall.
    apply later_one.
Qed.

(** X16.  A type that [drgn_dwarf_type_find] returns is what a hit of the
    index for the name, under the tag of the requested kind, resolves to in
    a cache that calls of [drgn_type_from_dwarf_internal] have made of the
    given one; the hit matches the file name, and the type is of the
    requested kind. *)
Theorem found_type_is_a_hit_of_the_requested_kind kind name filename c
    qualified_type c' :
  drgn_dwarf_type_find img die_matches_filename kind name filename c
  = (Returns (Ok qualified_type), c') →
  ∃ tag before die bias after c0,
    type_find_tag kind = Some tag ∧
    index_hits img name tag = before ++ (die, bias) :: after ∧
    die_matches_filename die filename = true ∧
    later img c c0 ∧
    drgn_type_from_dwarf_internal img die true None c0
    = (Ok (qualified_type, None), c') ∧
    drgn_type_kind_of (prog c') (type qualified_type) = kind.
Proof.
  unfold drgn_dwarf_type_find.
  destruct (type_find_tag kind) as [tag|]; [|discriminate].
  cbv zeta.
  destruct (type_find_loop _ _ _ _ _ _ _) as [r c1] eqn:Eloop.
  intros [= -> ->].
  destruct (type_find_loop_found _ _ _ _ _ _ _ Eloop)
    as (before & die & bias & after & c0 & Hh & Hm & Hl & Hc & Hk).
  now exists tag, before, die, bias, after, c0.
Qed.

Lemma type_find_loop_no_match kind filename it c :
  Forall (λ hit : index_hit, die_matches_filename hit.1 filename = false)
    (it_hits it) →
  type_find_loop img die_matches_filename (S (List.length (it_hits it))) kind
    filename it c
  = (Err (if bool_decide (error_code (it_end it) = DRGN_ERROR_STOP)
          then drgn_not_found else it_end it), c).
Proof.
  destruct it as [hits e]. cbn [it_hits it_end].
  induction hits as [|[die bias] hits IH]; intros Hall.
  - cbn. now destruct (bool_decide _).
  - apply Forall_cons in Hall as [Hdie Hall]. cbn [fst] in Hdie.
    cbn [List.length]. cbn [type_find_loop].
    unfold drgn_dwarf_index_iterator_next at 1. cbn [it_hits it_end].
    rewrite Hdie. now apply IH.
Qed.

(** X17.  When no hit of the index for the name, under the tag of the
    requested kind, matches the file name, and so when the index has no hit
    at all, [drgn_dwarf_type_find] resolves nothing, leaves the cache as it
    is and returns [drgn_not_found], or the error of libdw if the iteration
    failed. *)
Theorem type_without_a_match_is_not_found kind tag name filename c :
  type_find_tag kind = Some tag →
  Forall (λ hit : index_hit, die_matches_filename hit.1 filename = false)
    (index_hits img name tag) →
  drgn_dwarf_type_find img die_matches_filename kind name filename c
  = (Returns (Err (if index_fails img name tag then drgn_error_libdw
                   else drgn_not_found)), c).
Proof.
  intros Htag Hall. unfold drgn_dwarf_type_find. rewrite Htag. cbv zeta.
  rewrite type_find_loop_no_match by exact Hall.
  unfold drgn_dwarf_index_iterator_init. cbn [it_end].
  now destruct (index_fails img name tag).
Qed.

Lemma type_find_loop_result kind filename fuel :
  ∀ it c r c',
    (List.length (it_hits it) < fuel)%nat →
    type_find_loop img die_matches_filename fuel kind filename it c = (r, c') →
    r ≠ OutOfFuel ∧ surfaced r.
Proof.
  induction fuel as [|fuel IH]; intros it c r c' Hfuel; [lia|].
  cbn [type_find_loop]. unfold drgn_dwarf_index_iterator_next.
  destruct (it_hits it) as [|[die bias] rest] eqn:Ehits.
  { destruct (bool_decide (error_code (it_end it) = DRGN_ERROR_STOP)) eqn:E;
      cbn [negb]; intros [= <- <-]; (split; [discriminate|]);
      intros e [= <-]; [discriminate|].
    now apply bool_decide_eq_false in E. }
  cbn [List.length] in Hfuel.
  assert (Hrest :
    ∀ c1, type_find_loop img die_matches_filename fuel kind filename
            {| it_hits := rest; it_end := it_end it |} c1 = (r, c') →
          r ≠ OutOfFuel ∧ surfaced r).
  { intros c1. apply IH. cbn [it_hits]. lia. }
  destruct (die_matches_filename die filename); [|apply Hrest].
  unfold bind at 1. unfold drgn_type_from_dwarf, bind.
  pose proof (drgn_type_from_dwarf_internal_total img die true None c) as Ht.
  destruct (drgn_type_from_dwarf_internal img die true None c)
    as [[[ret1 b]|e1|] c1] eqn:Ecall; cbn [fst] in *.
  - cbn. destruct (bool_decide _); [|apply Hrest].
    intros [= <- <-]. split; [discriminate|]. intros e [=].
  - intros [= <- <-]. split; [discriminate|]. intros e [= <-].
    exact (no_stop_resolve_fuel img _ _ _ _ _ _ _ Ecall).
  - done.
Qed.

(** X18.  [drgn_dwarf_type_find] never fails with DRGN_ERROR_STOP: the end
    of the iteration is reported as [drgn_not_found], and no resolution
    fails with that code.  Its loop over the hits ends: the model's bound
    on its turns is never what stops it. *)
Theorem type_find_reports_no_sentinel kind name filename c r c' :
  drgn_dwarf_type_find img die_matches_filename kind name filename c
  = (Returns r, c') →
  r ≠ OutOfFuel ∧ ∀ e, r = Err e → error_code e ≠ DRGN_ERROR_STOP.
Proof.
  unfold drgn_dwarf_type_find.
  destruct (type_find_tag kind) as [tag|]; [|discriminate].
  cbv zeta.
  destruct (type_find_loop _ _ _ _ _ _ _) as [r1 c1] eqn:Eloop.
  intros [= <- <-].
  apply (type_find_loop_result _ _ _ _ _ _ _ (Nat.lt_succ_diag_r _) Eloop).
Qed.

End TypeFinderFacts.

Lemma found_type_is_a_hit_of_the_requested_kind_witness :
  let c' :=
    snd (drgn_dwarf_type_find base_image in_a_c DRGN_TYPE_INT "int"
           (Some "a.c") empty_cache) in
  let qualified_type := {| type := created_type 1; qualifiers := 0 |} in
  ∃ tag before die bias after c0,
    type_find_tag DRGN_TYPE_INT = Some tag ∧
    index_hits base_image "int" tag = before ++ (die, bias) :: after ∧
    in_a_c die (Some "a.c") = true ∧
    later base_image empty_cache c0 ∧
    drgn_type_from_dwarf_internal base_image die true None c0
    = (Ok (qualified_type, None), c') ∧
    drgn_type_kind_of (prog c') (type qualified_type) = DRGN_TYPE_INT.
Proof.
  apply (found_type_is_a_hit_of_the_requested_kind base_image in_a_c
           DRGN_TYPE_INT "int" (Some "a.c") empty_cache
           {| type := created_type 1; qualifiers := 0 |}).
  vm_compute. reflexivity.
Defined.

Lemma type_without_a_match_is_not_found_witness :
  drgn_dwarf_type_find base_image in_a_c DRGN_TYPE_INT "int" (Some "b.c")
    empty_cache
  = (Returns (Err drgn_not_found), empty_cache) ∧
  drgn_dwarf_type_find base_image in_a_c DRGN_TYPE_INT "long" None
    empty_cache
  = (Returns (Err drgn_not_found), empty_cache).
Proof.
  split.
  - apply (type_without_a_match_is_not_found base_image in_a_c DRGN_TYPE_INT
             DW_TAG_base_type "int" (Some "b.c") empty_cache eq_refl).
    repeat constructor.
  - apply (type_without_a_match_is_not_found base_image in_a_c DRGN_TYPE_INT
             DW_TAG_base_type "long" None empty_cache eq_refl).
    constructor.
Defined.

Lemma type_find_reports_no_sentinel_witness :
  let r : res drgn_qualified_type := Err drgn_not_found in
  r ≠ OutOfFuel ∧ ∀ e, r = Err e → error_code e ≠ DRGN_ERROR_STOP.
Proof.
  apply (type_find_reports_no_sentinel base_image in_a_c DRGN_TYPE_INT "int"
           (Some "b.c") empty_cache (Err drgn_not_found) empty_cache).
  vm_compute. reflexivity.
Defined.

(** ** The types of the program *)

Lemma later_store_grows img c c' : later img c c' → store_grows c c'.
Proof.
  apply (later_invariant img store_grows store_grows_refl store_grows_trans
           store_grows_create).
  - intros c0 d. exists []. cbn. now rewrite app_nil_r.
  - intros c0 c1 cbia key value _. apply store_grows_insert.
Qed.

(** X19.  A type of the program is neither changed nor dropped by the
    calls that follow: a handle that stands for a type descriptor stands
    for the same descriptor after any number of calls of
    [drgn_type_from_dwarf_internal]. *)
Theorem created_type_is_kept img c c' h ty :
  later img c c' →
  drgn_type_lookup (prog c) h = Some ty →
  drgn_type_lookup (prog c') h = Some ty.
Proof.
  intros Hlater Hty. apply (lookup_grows (prog c)); [exact Hty|].
  exact (later_store_grows img c c' Hlater).
Qed.

Lemma created_type_is_kept_witness :
  let c :=
    snd (drgn_type_from_dwarf_internal sample_image int_die true None
           empty_cache) in
  let c' :=
    snd (drgn_type_from_dwarf_internal sample_image color_die true None c) in
  drgn_type_lookup (prog c') (created_type 0)
  = Some (T_int "int" 4 true (Some drgn_language_c)).
Proof.
  apply (created_type_is_kept sample_image
           (snd (drgn_type_from_dwarf_internal sample_image int_die true None
                   empty_cache))).
  - apply later_one.
  - vm_compute. reflexivity.
Defined.
